(** * QuickHull visualizer: the steppable convex-hull computation

    A shallow embedding of [src/quickhull.cpp] (class [QuickHull] and the
    data it works on) together with the properties established about it.

    - [int] values are integers of [Z] with the 32-bit two's-complement
      wrap-around written out ([Int.wrap]): an overflow, which the language
      leaves undefined, wraps as it does on the machines the program is
      built for.
    - [std::vector<Point>] is [list Point]; an unchecked [operator[]] read
      outside the vector is the outcome [Undefined IndexOutOfRange].
    - The [std::shared_ptr<StepData>] nodes live in a store ([heap]), a list
      indexed by allocation order; a pointer is [option nat], [None] being
      [nullptr].  [std::make_shared] appends to the store.  The store is
      the record of the nodes allocated: a node the program destroys (when
      lines 280-281 drop the last pointer to it) keeps its place in the
      list, where no pointer of the object leads to it any more.
    - A member function is a function from the object (and the store) to an
      [outcome]. *)

From Stdlib Require Import ZArith Lia Bool.
From stdpp Require Import base list sorting.

(** ** Outcomes of a C++ call *)

Inductive ub : Type :=
| NullDeref          (* [p->field] with [p == nullptr] *)
| IndexOutOfRange.   (* [v[i]] with [i >= v.size()] *)

Inductive outcome (A : Type) : Type :=
| Returns (a : A)     (* normal return *)
| Raises              (* an explicit error: exception or reported failure *)
| Undefined (u : ub)  (* undefined behaviour reached *)
| Diverges.           (* a loop that never exits *)

Arguments Returns {A} a.
Arguments Raises {A}.
Arguments Undefined {A} u.
Arguments Diverges {A}.

Definition bind {A B} (m : outcome A) (k : A -> outcome B) : outcome B :=
  match m with
  | Returns a => k a
  | Raises => Raises
  | Undefined u => Undefined u
  | Diverges => Diverges
  end.

Notation "'let*' v ':=' m 'in' k" := (bind m (fun v => k))
  (at level 10, v name, m at level 100, k at level 200).
Notation "'let*' ' pat ':=' m 'in' k" :=
  (bind m (fun v => match v with pat => k end))
  (at level 10, pat pattern, m at level 100, k at level 200).

Definition explicitError {A} (o : outcome A) : Prop :=
  match o with Raises => True | _ => False end.

(** ** 32-bit [int] arithmetic *)

Module Int.
(* INT_MIN = -2^31, INT_MAX = 2^31 - 1 *)
Definition min_int : Z := -2147483648.
Definition max_int : Z := 2147483647.

(* Reduction modulo 2^32 into the range of [int].  The case analysis
   changes nothing of the value ([wrap_unfold]); it keeps the function
   from unfolding on an argument that is not yet known. *)
Definition wrap (z : Z) : Z :=
  match z with
  | Z0 => 0
  | Zpos p => (Zpos p + 2147483648) mod 4294967296 - 2147483648
  | Zneg p => (Zneg p + 2147483648) mod 4294967296 - 2147483648
  end%Z.

Definition add (a b : Z) : Z := wrap (a + b).
Definition sub (a b : Z) : Z := wrap (a - b).
Definition mul (a b : Z) : Z := wrap (a * b).
(* [abs] of <cstdlib>; [abs(INT_MIN)] wraps back to [INT_MIN] *)
Definition abs (a : Z) : Z := wrap (Z.abs a).
(* [a % b] truncates towards zero *)
Definition rem (a b : Z) : Z := wrap (Z.rem a b).

Definition in_range (z : Z) : Prop := (min_int <= z <= max_int)%Z.
End Int.

Arguments Int.wrap : simpl never.
Arguments Int.add : simpl never.
Arguments Int.sub : simpl never.
Arguments Int.mul : simpl never.
Arguments Int.abs : simpl never.
Arguments Int.rem : simpl never.

(** ** Configuration constants (lines 62-70) *)

Definition pointCount : Z := 1000.
Definition windowWidth : Z := 1280.
Definition windowHeight : Z := 720.
Definition windowMargin : Z := 10.
Definition pointXmax : Z := Int.sub windowWidth (Int.mul windowMargin 2).
Definition pointYmax : Z := Int.sub windowHeight (Int.mul windowMargin 2).

(** ** Data model (lines 74-96) *)

Record Point : Type := mkPoint { x : Z; y : Z }.

Inductive StepDataProgress : Type :=
| SDP_RecurseOne
| SDP_RecurseTwo
| SDP_Done
| SDP_FirstIteration.

Record StepData : Type := mkStepData {
  pointSet : list Point;
  segmentA : Point;
  segmentB : Point;
  progress : StepDataProgress;
  recursiveOne : option nat;
  recursiveTwo : option nat;
  prevStep : option nat
}.

(** The object, with the store of the [StepData] nodes its pointers reach. *)
Record QuickHull : Type := mkQuickHull {
  heap : list StepData;
  basePointList : list Point;
  hullPoints : list Point;
  nextStep : option nat;
  center : Point;
  minPoint : Point;
  maxPoint : Point;
  furthestStore : Point
}.

Definition isDone (p : StepDataProgress) : bool :=
  match p with SDP_Done => true | _ => false end.

Definition isRecurseOne (p : StepDataProgress) : bool :=
  match p with SDP_RecurseOne => true | _ => false end.

(** Field assignments through a pointer. *)
Definition setProgress (pr : StepDataProgress) (nd : StepData) : StepData :=
  mkStepData (pointSet nd) (segmentA nd) (segmentB nd) pr
             (recursiveOne nd) (recursiveTwo nd) (prevStep nd).

Definition setRecursive (one two : option nat) (nd : StepData) : StepData :=
  mkStepData (pointSet nd) (segmentA nd) (segmentB nd) (progress nd)
             one two (prevStep nd).

(** [p->...]: the node a pointer refers to. *)
Definition load (h : list StepData) (p : option nat) : outcome StepData :=
  match p with
  | None => Undefined NullDeref
  | Some i => match h !! i with
              | Some nd => Returns nd
              | None => Undefined NullDeref
              end
  end.

(** [v[i]] on a vector. *)
Definition index (v : list Point) (i : nat) : outcome Point :=
  match v !! i with
  | Some p => Returns p
  | None => Undefined IndexOutOfRange
  end.

(** ** comparePoints (lines 177-179) *)

Definition comparePoints (lhs rhs : Point) : bool :=
  (x lhs =? x rhs)%Z && (y lhs =? y rhs)%Z.

(** ** The sort comparator and [std::sort] (lines 153-155, 244-249) *)

Definition pointLess (left right : Point) : bool :=
  (x left <? x right)%Z || ((x left =? x right)%Z && (y left <? y right)%Z).

Fixpoint insertPoint (p : Point) (l : list Point) : list Point :=
  match l with
  | [] => [p]
  | q :: l' => if pointLess p q then p :: q :: l' else q :: insertPoint p l'
  end.

(** [std::sort] with [pointLess]: two points that the comparator does not
    order are equal, so the sorted vector does not depend on the algorithm. *)
Definition sortPoints (l : list Point) : list Point :=
  foldr insertPoint [] l.

(** The order [std::sort] leaves: no element is [pointLess] than the one
    before it. *)
Definition pointLe (a b : Point) : Prop := pointLess b a = false.

(** ** The determinant of lines 197 and 220 *)

Definition determinant (p1 p2 p3 : Point) : Z :=
  let x1 := x p1 in let y1 := y p1 in
  let x2 := x p2 in let y2 := y p2 in
  let x3 := x p3 in let y3 := y p3 in
  Int.sub (Int.sub (Int.sub
    (Int.add (Int.add (Int.mul x1 y2) (Int.mul x3 y1)) (Int.mul x2 y3))
    (Int.mul x3 y2)) (Int.mul x2 y1)) (Int.mul x1 y3).

Arguments determinant : simpl never.

(** The same expression over the integers, without wrap-around. *)
Definition exactDeterminant (p1 p2 p3 : Point) : Z :=
  (x p1 * y p2 + x p3 * y p1 + x p2 * y p3
   - x p3 * y p2 - x p2 * y p1 - x p1 * y p3)%Z.

(** ** calcPointsOnRightSide (lines 181-204) *)

Definition calcPointsOnRightSide (begin end_ : Point) (pts : list Point)
  : list Point :=
  fold_left
    (fun temp p =>
       if comparePoints p begin || comparePoints p end_ then temp
       else if (determinant begin end_ p <? 0)%Z then temp ++ [p]
       else temp)
    pts [].

(** ** calculateFurthestPoint (lines 206-228) *)

(** The value line 220 stores in its local [determinant]. *)
Definition absDeterminant (segA segB p : Point) : Z :=
  Int.abs (determinant segA segB p).

Arguments absDeterminant : simpl never.

(** One turn of the loop of lines 209-226 on [(furthest, prevMax)]. *)
Definition furthestStep (segA segB : Point) (acc : Point * Z) (p : Point)
  : Point * Z :=
  if (absDeterminant segA segB p >? snd acc)%Z
  then (p, absDeterminant segA segB p)
  else acc.

Definition furthestLoop (segA segB : Point) (pts : list Point)
    (init : Point * Z) : Point * Z :=
  fold_left (furthestStep segA segB) pts init.

Definition calculateFurthestPoint (segA segB : Point) (pts : list Point)
  : outcome Point :=
  let* furthest0 := index pts 0 in
  Returns (fst (furthestLoop segA segB pts (furthest0, (-1)%Z))).

(** ** prepareNextRecursion (lines 231-264) *)

(** A node as lines 233-260 build it: the points of [pts] on the right of
    the segment, sorted, and the link back to the node it comes from. *)
Definition newStep (currentStep : option nat) (segA segB : Point)
    (pts : list Point) : StepData :=
  mkStepData (sortPoints (calcPointsOnRightSide segA segB pts))
             segA segB SDP_RecurseOne None None currentStep.

Definition prepareNextRecursion (currentStep : option nat) (P Q C : Point)
    (h : list StepData) : outcome (list StepData) :=
  let* cur := load h currentStep in
  let leftPtr := length h in
  let rightPtr := S (length h) in
  let leftStep := newStep currentStep P C (pointSet cur) in
  let rightStep := newStep currentStep C Q (pointSet cur) in
  match currentStep with
  | Some c =>
      Returns (<[c := setRecursive (Some rightPtr) (Some leftPtr) cur]> h
                 ++ [leftStep; rightStep])
  | None => Undefined NullDeref
  end.

(** ** randomizeInput (lines 136-175)

    The loop of lines 142-150 draws the coordinates from [rand()];
    [generatePoints] takes the values [rand()] returned, a pair per point. *)

Definition generatePoint (r : Z * Z) : Point :=
  mkPoint (Int.add (Int.rem (fst r) pointXmax) windowMargin)
          (Int.add (Int.rem (snd r) pointYmax) windowMargin).

Definition generatePoints (rands : list (Z * Z)) : list Point :=
  map generatePoint rands.

(** Lines 152-174, on the points generated.  The store starts afresh: the
    nodes of an earlier computation are no longer reached from the object. *)
Definition setupInput (generated : list Point) (qh : QuickHull)
  : outcome QuickHull :=
  let base := sortPoints generated in
  let* minP := index base 0 in
  let* maxP := index base (length base - 1) in
  let root := mkStepData base minP maxP SDP_FirstIteration None None None in
  let* h := prepareNextRecursion (Some 0) minP minP maxP [root] in
  Returns (mkQuickHull h base [minP; maxP] (Some 0)
             (mkPoint (windowWidth / 2) (windowHeight / 2))
             minP maxP (furthestStore qh)).

Definition randomizeInput (rands : list (Z * Z)) (qh : QuickHull)
  : outcome QuickHull :=
  setupInput (generatePoints rands) qh.

(** ** step (lines 266-320) *)

(** The loop of lines 276-287.  It follows [prevStep] pointers; a chain
    longer than the store has a cycle, on which the loop never exits.  The
    result is the store, the cursor and whether the loop fell through
    ([false]: the [return false] of line 284). *)
Fixpoint unwindDone (fuel : nat) (h : list StepData) (cur : option nat)
  : outcome (list StepData * option nat * bool) :=
  match fuel with
  | O => Diverges
  | S fuel' =>
      let* nd := load h cur in
      if isDone (progress nd) then
        let h' := match cur with
                  | Some c => <[c := setRecursive None None nd]> h
                  | None => h
                  end in
        match prevStep nd with
        | None => Returns (h', cur, false)
        | Some p => unwindDone fuel' h' (Some p)
        end
      else Returns (h, cur, true)
  end.

(** Lines 271-273. *)
Definition markEmptyDone (h : list StepData) (cur : option nat)
  : outcome (list StepData) :=
  let* nd := load h cur in
  match pointSet nd, cur with
  | [], Some c => Returns (<[c := setProgress SDP_Done nd]> h)
  | _, _ => Returns h
  end.

(** Lines 290-319: one visit of the node under the cursor. *)
Definition visit (h : list StepData) (cur : option nat) (s : QuickHull)
  : outcome QuickHull :=
  let* nd := load h cur in
  let stepPoints := pointSet nd in
  let* minP := index stepPoints 0 in
  let* maxP := index stepPoints (length stepPoints - 1) in
  let* furthest := calculateFurthestPoint (segmentA nd) (segmentB nd) stepPoints in
  let* '(h1, hull1, store1) :=
     (if isRecurseOne (progress nd) then
        let* h1 :=
          prepareNextRecursion cur (segmentA nd) (segmentB nd) furthest h in
        Returns (h1, hullPoints s ++ [furthest], furthest)
      else Returns (h, hullPoints s, furthestStore s)) in
  let* nd1 := load h1 cur in
  let finish h2 next :=
    mkQuickHull h2 (basePointList s) hull1 next (center s) minP maxP store1 in
  match progress nd1, cur with
  | SDP_FirstIteration, Some c
  | SDP_RecurseOne, Some c =>
      Returns (finish (<[c := setProgress SDP_RecurseTwo nd1]> h1)
                      (recursiveOne nd1))
  | SDP_RecurseTwo, Some c =>
      Returns (finish (<[c := setProgress SDP_Done nd1]> h1)
                      (recursiveTwo nd1))
  | _, _ => Returns (finish h1 cur)
  end.

Definition step (s : QuickHull) : outcome (bool * QuickHull) :=
  let* h1 := markEmptyDone (heap s) (nextStep s) in
  let* '(h2, cur, more) := unwindDone (length h1) h1 (nextStep s) in
  if more then
    let* s' := visit h2 cur s in
    Returns (true, s')
  else
    Returns (false, mkQuickHull h2 (basePointList s) (hullPoints s) cur
                      (center s) (minPoint s) (maxPoint s) (furthestStore s)).

(** The loop of [main] (lines 482-484): call [step] until it returns
    [false]; the result counts the calls made. *)
Fixpoint runSteps (fuel : nat) (s : QuickHull) : outcome (nat * QuickHull) :=
  match fuel with
  | O => Diverges
  | S fuel' =>
      let* '(more, s') := step s in
      if more then
        let* '(n, s'') := runSteps fuel' s' in
        Returns (S n, s'')
      else Returns (1, s')
  end.

(** [n] successive calls of [step], whatever they return. *)
Fixpoint stepN (n : nat) (s : QuickHull) : outcome QuickHull :=
  match n with
  | O => Returns s
  | S n' => let* '(_, s') := step s in stepN n' s'
  end.

(** ** Sample objects *)

(** The object the constructor leaves: no points, no node. *)
Definition newQuickHull : QuickHull :=
  mkQuickHull [] [] [] None (mkPoint 0 0) (mkPoint 0 0) (mkPoint 0 0)
              (mkPoint 0 0).

Definition orElse {A} (d : A) (o : outcome A) : A :=
  match o with Returns a => a | _ => d end.

(** The square with its centre. *)
Definition squareInput : list Point :=
  [mkPoint 0 0; mkPoint 10 0; mkPoint 10 10; mkPoint 0 10; mkPoint 5 5].

(** The states of the run on [squareInput], call after call. *)
Definition squareState (n : nat) : QuickHull :=
  orElse newQuickHull
         (let* s := setupInput squareInput newQuickHull in stepN n s).

(** ** Vocabulary of the properties *)

(** The coordinates [randomizeInput] can draw (lines 143-144). *)
Definition inWindow (p : Point) : Prop :=
  (windowMargin <= x p < windowMargin + pointXmax)%Z /\
  (windowMargin <= y p < windowMargin + pointYmax)%Z.

(** No operation of the determinant leaves the range of [int]: the six
    products, the five partial sums and the [abs] of line 220, over the
    integers. *)
Definition noOverflow (p1 p2 p3 : Point) : Prop :=
  let x1 := x p1 in let y1 := y p1 in
  let x2 := x p2 in let y2 := y p2 in
  let x3 := x p3 in let y3 := y p3 in
  Int.in_range (x1 * y2) /\ Int.in_range (x3 * y1) /\
  Int.in_range (x2 * y3) /\ Int.in_range (x3 * y2) /\
  Int.in_range (x2 * y1) /\ Int.in_range (x1 * y3) /\
  Int.in_range (x1 * y2 + x3 * y1) /\
  Int.in_range (x1 * y2 + x3 * y1 + x2 * y3) /\
  Int.in_range (x1 * y2 + x3 * y1 + x2 * y3 - x3 * y2) /\
  Int.in_range (x1 * y2 + x3 * y1 + x2 * y3 - x3 * y2 - x2 * y1) /\
  Int.in_range (x1 * y2 + x3 * y1 + x2 * y3 - x3 * y2 - x2 * y1 - x1 * y3) /\
  Int.in_range (Z.abs
    (x1 * y2 + x3 * y1 + x2 * y3 - x3 * y2 - x2 * y1 - x1 * y3)).

(** The test a point passes to be pushed on [temp] (lines 184-201). *)
Definition onRightSide (begin end_ p : Point) : bool :=
  negb (comparePoints p begin || comparePoints p end_)
  && (determinant begin end_ p <? 0)%Z.

Definition segmentExample : Point * Point := (mkPoint 0 0, mkPoint 10 0).
Definition candidatesExample : list Point :=
  [mkPoint 5 (-5); mkPoint 5 5; mkPoint 5 0].

(** The state a visit of node [c] ends in (lines 299-319), given the
    furthest point and the two points stored for drawing. *)
Definition visited (h : list StepData) (c : nat) (nd : StepData)
    (furthest minP maxP : Point) (s : QuickHull) : QuickHull :=
  match progress nd with
  | SDP_RecurseOne =>
      mkQuickHull
        (<[c := setProgress SDP_RecurseTwo
                  (setRecursive (Some (S (length h))) (Some (length h)) nd)]> h
           ++ [newStep (Some c) (segmentA nd) furthest (pointSet nd);
               newStep (Some c) furthest (segmentB nd) (pointSet nd)])
        (basePointList s) (hullPoints s ++ [furthest]) (Some (S (length h)))
        (center s) minP maxP furthest
  | SDP_FirstIteration =>
      mkQuickHull (<[c := setProgress SDP_RecurseTwo nd]> h)
        (basePointList s) (hullPoints s) (recursiveOne nd)
        (center s) minP maxP (furthestStore s)
  | SDP_RecurseTwo =>
      mkQuickHull (<[c := setProgress SDP_Done nd]> h)
        (basePointList s) (hullPoints s) (recursiveTwo nd)
        (center s) minP maxP (furthestStore s)
  | SDP_Done =>
      mkQuickHull h (basePointList s) (hullPoints s) (Some c)
        (center s) minP maxP (furthestStore s)
  end.

Definition validPtr (h : list StepData) (o : option nat) : Prop :=
  exists k, o = Some k /\ k < length h.

(** What holds of the node at index [i] of the store [h]. *)
Record nodeOk (h : list StepData) (i : nat) (nd : StepData) : Prop := {
  (* the parent was allocated earlier, has points, and more of them *)
  ok_parent : forall p, prevStep nd = Some p ->
      p < i /\
      exists pn, h !! p = Some pn /\ pointSet pn <> [] /\
                 length (pointSet nd) < length (pointSet pn);
  (* the root, and only the root, has no parent *)
  ok_root : prevStep nd = None <-> i = 0;
  (* a node built by [prepareNextRecursion] holds no end of its segment *)
  ok_exclude : prevStep nd <> None ->
      forall q, In q (pointSet nd) -> q <> segmentA nd /\ q <> segmentB nd;
  (* the root holds both ends of its segment *)
  ok_root_ends : prevStep nd = None ->
      In (segmentA nd) (pointSet nd) /\ In (segmentB nd) (pointSet nd);
  (* the children still to be entered are there *)
  ok_first : progress nd = SDP_FirstIteration ->
      validPtr h (recursiveOne nd) /\ validPtr h (recursiveTwo nd);
  ok_second : progress nd = SDP_RecurseTwo -> validPtr h (recursiveTwo nd)
}.

Definition heapOk (h : list StepData) : Prop :=
  forall i nd, h !! i = Some nd -> nodeOk h i nd.

Definition wellFormed (s : QuickHull) : Prop :=
  validPtr (heap s) (nextStep s) /\ heapOk (heap s).

(** Two versions of a node that differ in [progress] and children only. *)
Definition sameCore (nd nd' : StepData) : Prop :=
  pointSet nd' = pointSet nd /\ segmentA nd' = segmentA nd /\
  segmentB nd' = segmentB nd /\ prevStep nd' = prevStep nd.

(** A bound on the calls a fresh node with [n] points still takes. *)
Definition callsFor (n : nat) : nat := 2 ^ (n + 2) - 2.

Definition work (nd : StepData) : nat :=
  match progress nd with
  | SDP_RecurseOne => callsFor (length (pointSet nd))
  | SDP_FirstIteration => 2
  | SDP_RecurseTwo => 1
  | SDP_Done => 0
  end.

Definition pending (h : list StepData) : nat := sum_list_with work h.

(** Every node of [h] is still in [h'], at the same place, with the same
    points, segment and parent. *)
Definition extends (h h' : list StepData) : Prop :=
  forall i nd, h !! i = Some nd ->
    exists nd', h' !! i = Some nd' /\ sameCore nd nd'.

(** ** Invariants of a computation *)

(** The object with another store and cursor. *)
Definition atCursor (h : list StepData) (cur : option nat) (s : QuickHull)
  : QuickHull :=
  mkQuickHull h (basePointList s) (hullPoints s) cur (center s)
              (minPoint s) (maxPoint s) (furthestStore s).

(** [I] is kept by each of the three moves of a call, made from a
    well-formed state in which [A] holds: the marking of an empty node, a
    turn of the loop, and the visit. *)
Definition keptByMoves (A I : QuickHull -> Prop) : Prop :=
  (forall s c nd,
     wellFormed s -> A s -> I s ->
     nextStep s = Some c -> heap s !! c = Some nd -> pointSet nd = [] ->
     I (atCursor (<[c := setProgress SDP_Done nd]> (heap s)) (Some c) s)) /\
  (forall s c nd,
     wellFormed s -> A s -> I s ->
     nextStep s = Some c -> heap s !! c = Some nd ->
     progress nd = SDP_Done ->
     I (atCursor (<[c := setRecursive None None nd]> (heap s))
          (match prevStep nd with Some p => Some p | None => Some c end)
          s)) /\
  (forall s c nd furthest minP maxP,
     wellFormed s -> A s -> I s ->
     nextStep s = Some c -> heap s !! c = Some nd ->
     pointSet nd <> [] -> progress nd <> SDP_Done ->
     calculateFurthestPoint (segmentA nd) (segmentB nd) (pointSet nd)
     = Returns furthest ->
     index (pointSet nd) 0 = Returns minP ->
     index (pointSet nd) (length (pointSet nd) - 1) = Returns maxP ->
     I (visited (heap s) c nd furthest minP maxP s)).

(** [I] is kept by the moves, whatever else holds. *)
Definition kept (I : QuickHull -> Prop) : Prop :=
  keptByMoves (fun _ => True) I.

(** The contents of a node, against the input [base]: its points are in
    order and are points of the input, the ends of its segment are points
    of the input, and, for a node with a parent, every point has a
    negative determinant against the node's own segment. *)
Definition nodeContents (base : list Point) (nd : StepData) : Prop :=
  Sorted pointLe (pointSet nd) /\
  (forall q, In q (pointSet nd) -> In q base) /\
  In (segmentA nd) base /\ In (segmentB nd) base /\
  (prevStep nd <> None ->
   forall q, In q (pointSet nd) ->
     (determinant (segmentA nd) (segmentB nd) q < 0)%Z).

(** Every node has the contents above, the hull points are points of the
    input, and the store has one node less than twice their number. *)
Definition contentsOk (s : QuickHull) : Prop :=
  Forall (nodeContents (basePointList s)) (heap s) /\
  (forall p, In p (hullPoints s) -> In p (basePointList s)) /\
  length (heap s) + 1 = 2 * length (hullPoints s).

(** [onPath h c a]: node [a] is [c] or is met going up from [c] by
    [prevStep]. *)
Inductive onPath (h : list StepData) : nat -> nat -> Prop :=
| onPath_here (c : nat) : onPath h c c
| onPath_up (c : nat) (nd : StepData) (p a : nat) :
    h !! c = Some nd -> prevStep nd = Some p -> onPath h p a ->
    onPath h c a.

(** [i] is a child [na] has still to enter. *)
Definition pendingChild (na : StepData) (i : nat) : Prop :=
  (progress na = SDP_RecurseTwo /\ recursiveTwo na = Some i) \/
  (progress na = SDP_FirstIteration /\
   (recursiveOne na = Some i \/ recursiveTwo na = Some i)).

(** The nodes a computation with the cursor on [c] still has to deal
    with: those above the cursor and the children they have to enter. *)
Definition live (h : list StepData) (c i : nat) : Prop :=
  onPath h c i \/
  exists a na, onPath h c a /\ h !! a = Some na /\ pendingChild na i.

(** The shape of the tree, for a cursor on node [c]. *)
Record treeOk (h : list StepData) (c : nat) : Prop := {
  (* a node that is not done is still to be dealt with *)
  tree_live : forall i nd, h !! i = Some nd -> progress nd <> SDP_Done ->
      live h c i;
  (* a done node that still has links to children is above the cursor *)
  tree_links : forall i nd, h !! i = Some nd -> progress nd = SDP_Done ->
      recursiveOne nd <> None \/ recursiveTwo nd <> None -> onPath h c i;
  (* a child to enter is there and points back to its parent *)
  tree_child : forall a na k, h !! a = Some na -> pendingChild na k ->
      exists nk, h !! k = Some nk /\ prevStep nk = Some a;
  (* a node without points was never visited *)
  tree_empty : forall i nd, h !! i = Some nd -> pointSet nd = [] ->
      progress nd = SDP_RecurseOne \/ progress nd = SDP_Done
}.

(** The cursor is on a node, and the tree has its shape around it. *)
Definition shapeOk (s : QuickHull) : Prop :=
  exists c, nextStep s = Some c /\ treeOk (heap s) c.

(** The visits a node has had: a node with points is visited twice, and
    its [progress] tells how often it has been so far. *)
Definition visitsOf (nd : StepData) : nat :=
  match pointSet nd with
  | [] => 0
  | _ :: _ => match progress nd with
              | SDP_RecurseOne | SDP_FirstIteration => 0
              | SDP_RecurseTwo => 1
              | SDP_Done => 2
              end
  end.

(** The visits made so far. *)
Definition visits (h : list StepData) : nat := sum_list_with visitsOf h.

(** A node that gave a hull point: it has a parent, points, and its first
    visit behind it. *)
Definition foundOf (nd : StepData) : nat :=
  match prevStep nd, pointSet nd, progress nd with
  | Some _, _ :: _, (SDP_RecurseTwo | SDP_Done) => 1
  | _, _, _ => 0
  end.

(** The hull points found by visits. *)
Definition found (h : list StepData) : nat := sum_list_with foundOf h.

(** [SDP_FirstIteration] is the state of the root before its first visit,
    [SDP_RecurseOne] that of the other nodes. *)
Definition kindOk (nd : StepData) : Prop :=
  (progress nd = SDP_RecurseOne -> prevStep nd <> None) /\
  (progress nd = SDP_FirstIteration -> prevStep nd = None).

(** Every node is of its kind. *)
Definition kindsOk (s : QuickHull) : Prop := Forall kindOk (heap s).

(** Beside the two extremes, each hull point comes from one node. *)
Definition foundOk (s : QuickHull) : Prop :=
  length (hullPoints s) = 2 + found (heap s).

(** The nodes still to be visited for the first time hold points that are
    in no other such node and are not hull points yet. *)
Definition distinctOk (s : QuickHull) : Prop :=
  NoDup (hullPoints s) /\
  (forall i nd, heap s !! i = Some nd -> progress nd = SDP_RecurseOne ->
     forall q, In q (pointSet nd) -> ~ In q (hullPoints s)) /\
  (forall i j ni nj, i <> j ->
     heap s !! i = Some ni -> heap s !! j = Some nj ->
     progress ni = SDP_RecurseOne -> progress nj = SDP_RecurseOne ->
     forall q, In q (pointSet ni) -> ~ In q (pointSet nj)).

(** The input lies within the margins of the window. *)
Definition windowOk (s : QuickHull) : Prop :=
  forall p, In p (basePointList s) -> inWindow p.

(** What the argument on distinct hull points relies on. *)
Definition exactOk (s : QuickHull) : Prop :=
  (contentsOk s /\ kindsOk s) /\ windowOk s.

(** [q] is in the triangle of three points of [hull], the side [A B]
    left out: strictly on the right of [A B], as [F] is, and not on the
    right of [A F] nor of [F B]. *)
Definition inTriangle (hull : list Point) (q : Point) : Prop :=
  exists A B F,
    In A hull /\ In B hull /\ In F hull /\
    (exactDeterminant A B F < 0)%Z /\ (exactDeterminant A B q < 0)%Z /\
    (0 <= exactDeterminant A F q)%Z /\ (0 <= exactDeterminant F B q)%Z.

(** The ends of every segment are hull points. *)
Definition endsOk (s : QuickHull) : Prop :=
  forall i nd, heap s !! i = Some nd ->
    In (segmentA nd) (hullPoints s) /\ In (segmentB nd) (hullPoints s).

(** Where a point of the input is, in a computation that started with
    the extremes [mn] and [mx]: among the hull points, on the line of the
    extremes, in a triangle of hull points, or in a node still to be
    visited for the first time. *)
Definition coverOk (mn mx : Point) (s : QuickHull) : Prop :=
  forall q, In q (basePointList s) ->
    In q (hullPoints s) \/ exactDeterminant mn mx q = 0%Z \/
    inTriangle (hullPoints s) q \/
    exists i nd, heap s !! i = Some nd /\ progress nd = SDP_RecurseOne /\
                 In q (pointSet nd).

(** The fields [render] draws from, in a computation started on an object
    whose [furthestStore] was [old]. *)
Definition drawOk (old : Point) (s : QuickHull) : Prop :=
  center s = mkPoint 640 360 /\
  (length (hullPoints s) = 2 /\ furthestStore s = old \/
   2 < length (hullPoints s) /\
   last (hullPoints s) = Some (furthestStore s)) /\
  In (minPoint s) (basePointList s) /\ In (maxPoint s) (basePointList s) /\
  pointLe (minPoint s) (maxPoint s).

(** ** The parts of a call, and the links to the children *)

(** The store after the test of lines 271-273 on node [c], whose record
    is [nd]: the node is marked [SDP_Done] when it has no point, and
    nothing is written otherwise. *)
Definition marked (h : list StepData) (c : nat) (nd : StepData)
  : list StepData :=
  match pointSet nd with
  | [] => <[c := setProgress SDP_Done nd]> h
  | _ :: _ => h
  end.

(** [pops h c h' c' more]: from node [c] of the store [h], going up by
    [prevStep] as long as the node met is [SDP_Done] and resetting the two
    child links of each such node, one ends on node [c'] with the store
    [h']; [more] tells whether [c'] is a node that is not done ([true]) or
    a done node without parent ([false]). *)
Inductive pops : list StepData -> nat -> list StepData -> nat -> bool -> Prop :=
| pops_stop (h : list StepData) (c : nat) (nd : StepData) :
    h !! c = Some nd -> progress nd <> SDP_Done ->
    pops h c h c true
| pops_end (h : list StepData) (c : nat) (nd : StepData) :
    h !! c = Some nd -> progress nd = SDP_Done -> prevStep nd = None ->
    pops h c (<[c := setRecursive None None nd]> h) c false
| pops_up (h : list StepData) (c : nat) (nd : StepData) (p : nat)
    (h' : list StepData) (c' : nat) (more : bool) :
    h !! c = Some nd -> progress nd = SDP_Done -> prevStep nd = Some p ->
    pops (<[c := setRecursive None None nd]> h) p h' c' more ->
    pops h c h' c' more.

(** Node [k] of the store [h] is the child of node [i], whose record is
    [nd], for the segment [A]-[B]: it points back to [i], has that
    segment, and holds the points of [nd] that [calcPointsOnRightSide]
    keeps for it. *)
Definition childFor (h : list StepData) (i : nat) (nd : StepData) (k : nat)
    (A B : Point) : Prop :=
  exists child,
    h !! k = Some child /\ prevStep child = Some i /\
    segmentA child = A /\ segmentB child = B /\
    pointSet child = sortPoints (calcPointsOnRightSide A B (pointSet nd)).

(** Where the links of node [i] lead before its visits are over.  The
    root, before its first visit: [recursiveOne] to the child for
    (segmentB, segmentA), [recursiveTwo] to the child for (segmentA,
    segmentB).  A node between its two visits: [recursiveTwo] to the child
    for (segmentA, segmentB) if the node is the root, and for (segmentA,
    furthest) otherwise, [furthest] being the furthest point of the
    node. *)
Definition linkOk (h : list StepData) (i : nat) (nd : StepData) : Prop :=
  (progress nd = SDP_FirstIteration ->
   exists k1 k2,
     recursiveOne nd = Some k1 /\ recursiveTwo nd = Some k2 /\
     childFor h i nd k1 (segmentB nd) (segmentA nd) /\
     childFor h i nd k2 (segmentA nd) (segmentB nd)) /\
  (progress nd = SDP_RecurseTwo ->
   exists k,
     recursiveTwo nd = Some k /\
     match prevStep nd with
     | None => childFor h i nd k (segmentA nd) (segmentB nd)
     | Some _ =>
         exists furthest,
           calculateFurthestPoint (segmentA nd) (segmentB nd) (pointSet nd)
           = Returns furthest /\
           childFor h i nd k (segmentA nd) furthest
     end).

Definition linksOk (s : QuickHull) : Prop :=
  forall i nd, heap s !! i = Some nd -> linkOk (heap s) i nd.

(** * Properties *)

(** ** 32-bit arithmetic *)

Lemma wrap_unfold (z : Z) :
  Int.wrap z = ((z + 2147483648) mod 4294967296 - 2147483648)%Z.
Proof. destruct z; reflexivity. Qed.

Lemma wrap_id (z : Z) : Int.in_range z -> Int.wrap z = z.
Proof.
  unfold Int.in_range, Int.min_int, Int.max_int. rewrite wrap_unfold.
  intros Hz. rewrite Z.mod_small; lia.
Qed.

Lemma wrap_in_range (z : Z) : Int.in_range (Int.wrap z).
Proof.
  unfold Int.in_range, Int.min_int, Int.max_int. rewrite wrap_unfold.
  pose proof (Z.mod_pos_bound (z + 2147483648) 4294967296 ltac:(lia)). lia.
Qed.

Lemma determinant_in_range (p1 p2 p3 : Point) :
  Int.in_range (determinant p1 p2 p3).
Proof. unfold determinant, Int.sub at 1. apply wrap_in_range. Qed.

(** [abs] gives a non-negative value, except at [INT_MIN]. *)
Lemma abs_range (z : Z) :
  Int.in_range z -> (0 <= Int.abs z)%Z \/ Int.abs z = Int.min_int.
Proof.
  unfold Int.in_range, Int.min_int, Int.max_int. intros Hz.
  destruct (Z.eq_dec z (-2147483648)%Z) as [-> | Hne].
  - right. vm_compute. reflexivity.
  - left. unfold Int.abs. rewrite wrap_id.
    + lia.
    + unfold Int.in_range, Int.min_int, Int.max_int. lia.
Qed.

(** From here on [wrap] is used through the lemmas above only. *)
Opaque Int.wrap.

(** ** Points *)

Lemma comparePoints_eq (p q : Point) : comparePoints p q = true <-> p = q.
Proof.
  unfold comparePoints. destruct p as [a b], q as [c d]; simpl.
  rewrite andb_true_iff, !Z.eqb_eq. split.
  - intros [-> ->]. reflexivity.
  - intros H. injection H as -> ->. split; reflexivity.
Qed.

Lemma comparePoints_neq (p q : Point) : comparePoints p q = false <-> p <> q.
Proof.
  rewrite <- comparePoints_eq. destruct (comparePoints p q); split; congruence.
Qed.

(** ** The generator's range *)

Lemma pointXmax_value : pointXmax = 1260%Z.
Proof. vm_compute. reflexivity. Qed.

Lemma pointYmax_value : pointYmax = 700%Z.
Proof. vm_compute. reflexivity. Qed.

(** [rand()] returns a value between 0 and [RAND_MAX], an [int]. *)
Lemma generatePoint_inWindow (r : Z * Z) :
  (0 <= fst r <= Int.max_int)%Z -> (0 <= snd r <= Int.max_int)%Z ->
  inWindow (generatePoint r).
Proof.
  intros H1 H2. unfold inWindow, generatePoint; simpl.
  rewrite pointXmax_value, pointYmax_value. unfold windowMargin, Int.add, Int.rem.
  pose proof (Z.rem_bound_pos (fst r) 1260 ltac:(lia) ltac:(lia)).
  pose proof (Z.rem_bound_pos (snd r) 700 ltac:(lia) ltac:(lia)).
  rewrite !(wrap_id (Z.rem _ _))
    by (unfold Int.in_range, Int.min_int, Int.max_int; lia).
  rewrite !wrap_id by (unfold Int.in_range, Int.min_int, Int.max_int; lia).
  lia.
Qed.

Lemma noOverflow_exact (p1 p2 p3 : Point) :
  noOverflow p1 p2 p3 ->
  determinant p1 p2 p3 = exactDeterminant p1 p2 p3 /\
  Int.abs (determinant p1 p2 p3) = Z.abs (exactDeterminant p1 p2 p3).
Proof.
  unfold noOverflow, determinant, exactDeterminant; cbv zeta.
  intros (H1 & H2 & H3 & H4 & H5 & H6 & H7 & H8 & H9 & H10 & H11 & H12).
  unfold Int.mul. rewrite !wrap_id by assumption.
  unfold Int.add. rewrite (wrap_id _ H7). rewrite (wrap_id _ H8).
  unfold Int.sub. rewrite (wrap_id _ H9). rewrite (wrap_id _ H10).
  rewrite (wrap_id _ H11). split; [reflexivity |].
  unfold Int.abs. apply wrap_id. assumption.
Qed.

Lemma product_bound (a b : Z) :
  (10 <= a < 1270)%Z -> (10 <= b < 710)%Z -> (100 <= a * b <= 1269 * 709)%Z.
Proof. intros Ha Hb. nia. Qed.

Lemma inWindow_noOverflow (p1 p2 p3 : Point) :
  inWindow p1 -> inWindow p2 -> inWindow p3 -> noOverflow p1 p2 p3.
Proof.
  unfold inWindow. rewrite pointXmax_value, pointYmax_value.
  unfold windowMargin. intros [Hx1 Hy1] [Hx2 Hy2] [Hx3 Hy3].
  pose proof (product_bound _ _ Hx1 Hy2).
  pose proof (product_bound _ _ Hx3 Hy1).
  pose proof (product_bound _ _ Hx2 Hy3).
  pose proof (product_bound _ _ Hx3 Hy2).
  pose proof (product_bound _ _ Hx2 Hy1).
  pose proof (product_bound _ _ Hx1 Hy3).
  unfold noOverflow, Int.in_range, Int.min_int, Int.max_int; cbv zeta.
  repeat split; lia.
Qed.

(** C9.  For points within the range of the generator the determinant of
    lines 197 and 220, computed on [int], is the exact integer: none of its
    operations overflows, and neither does the [abs] of line 220. *)
Theorem determinant_exact_in_window (p1 p2 p3 : Point) :
  inWindow p1 -> inWindow p2 -> inWindow p3 ->
  noOverflow p1 p2 p3 /\
  determinant p1 p2 p3 = exactDeterminant p1 p2 p3 /\
  Int.abs (determinant p1 p2 p3) = Z.abs (exactDeterminant p1 p2 p3).
Proof.
  intros H1 H2 H3.
  pose proof (inWindow_noOverflow p1 p2 p3 H1 H2 H3) as Hno.
  split; [exact Hno |]. apply noOverflow_exact. exact Hno.
Qed.

Lemma determinant_exact_in_window_witness :
  let p1 := mkPoint 10 10 in
  let p2 := mkPoint 1269 709 in
  let p3 := mkPoint 1269 10 in
  determinant p1 p2 p3 = exactDeterminant p1 p2 p3.
Proof.
  intros p1 p2 p3.
  refine (proj1 (proj2 (determinant_exact_in_window p1 p2 p3 _ _ _)));
    unfold inWindow; vm_compute; intuition congruence.
Defined.

(** ** calcPointsOnRightSide *)

Lemma calcPointsOnRightSide_loop (begin end_ : Point) (pts temp : list Point) :
  fold_left
    (fun temp p =>
       if comparePoints p begin || comparePoints p end_ then temp
       else if (determinant begin end_ p <? 0)%Z then temp ++ [p]
       else temp)
    pts temp
  = temp ++ List.filter (onRightSide begin end_) pts.
Proof.
  revert temp. induction pts as [| p pts IH]; intros temp; simpl.
  - symmetry. apply app_nil_r.
  - rewrite IH. unfold onRightSide.
    destruct (comparePoints p begin || comparePoints p end_); simpl;
      [reflexivity |].
    destruct (determinant begin end_ p <? 0)%Z; [| reflexivity].
    rewrite <- app_assoc. reflexivity.
Qed.

Lemma calcPointsOnRightSide_filter (begin end_ : Point) (pts : list Point) :
  calcPointsOnRightSide begin end_ pts
  = List.filter (onRightSide begin end_) pts.
Proof. unfold calcPointsOnRightSide. apply calcPointsOnRightSide_loop. Qed.

Lemma onRightSide_true (begin end_ p : Point) :
  onRightSide begin end_ p = true <->
  p <> begin /\ p <> end_ /\ (determinant begin end_ p < 0)%Z.
Proof.
  unfold onRightSide.
  rewrite andb_true_iff, negb_true_iff, orb_false_iff, Z.ltb_lt.
  rewrite !comparePoints_neq. tauto.
Qed.

Lemma calcPointsOnRightSide_In (begin end_ p : Point) (pts : list Point) :
  In p (calcPointsOnRightSide begin end_ pts) <->
  In p pts /\ p <> begin /\ p <> end_ /\ (determinant begin end_ p < 0)%Z.
Proof.
  rewrite calcPointsOnRightSide_filter, filter_In, onRightSide_true.
  reflexivity.
Qed.

Lemma filter_length_lt {A} (f : A -> bool) (l : list A) (a : A) :
  In a l -> f a = false -> length (List.filter f l) < length l.
Proof.
  induction l as [| b l IH]; simpl; [tauto |].
  intros [-> | Hin] Hf.
  - rewrite Hf. pose proof (List.filter_length_le f l). lia.
  - specialize (IH Hin Hf). destruct (f b); simpl; lia.
Qed.

(** A point of the list that is an endpoint makes the result shorter. *)
Lemma calcPointsOnRightSide_shrinks (begin end_ : Point) (pts : list Point) :
  In begin pts \/ In end_ pts ->
  length (calcPointsOnRightSide begin end_ pts) < length pts.
Proof.
  rewrite calcPointsOnRightSide_filter. intros [Hin | Hin].
  - apply (filter_length_lt _ _ begin Hin). unfold onRightSide.
    rewrite (proj2 (comparePoints_eq begin begin) eq_refl). reflexivity.
  - apply (filter_length_lt _ _ end_ Hin). unfold onRightSide.
    rewrite (proj2 (comparePoints_eq end_ end_) eq_refl).
    rewrite orb_true_r. reflexivity.
Qed.

Lemma calcPointsOnRightSide_as_filter (A B : Point) (pts : list Point) :
  calcPointsOnRightSide A B pts
  = List.filter
      (fun p => negb (comparePoints p A) && negb (comparePoints p B)
                && (determinant A B p <? 0)%Z) pts.
Proof.
  rewrite calcPointsOnRightSide_filter.
  apply List.filter_ext. intros p. unfold onRightSide.
  rewrite negb_orb. reflexivity.
Qed.

Lemma calcPointsOnRightSide_drops (A B p : Point) (pts : list Point) :
  (0 <= determinant A B p)%Z -> ~ In p (calcPointsOnRightSide A B pts).
Proof.
  intros Hpos Hin. apply calcPointsOnRightSide_In in Hin. lia.
Qed.

Lemma calcPointsOnRightSide_example :
  calcPointsOnRightSide (fst segmentExample) (snd segmentExample)
    candidatesExample = [mkPoint 5 (-5)] /\
  calcPointsOnRightSide (snd segmentExample) (fst segmentExample)
    candidatesExample = [mkPoint 5 5] /\
  determinant (fst segmentExample) (snd segmentExample) (mkPoint 5 (-5))
  = (-50)%Z /\
  determinant (fst segmentExample) (snd segmentExample) (mkPoint 5 5)
  = 50%Z /\
  determinant (fst segmentExample) (snd segmentExample) (mkPoint 5 0)
  = 0%Z.
Proof. repeat apply conj; vm_compute; reflexivity. Qed.

Lemma calcPointsOnRightSide_exact (A B p : Point) (pts : list Point) :
  noOverflow A B p ->
  In p (calcPointsOnRightSide A B pts) <->
  In p pts /\ p <> A /\ p <> B /\ (exactDeterminant A B p < 0)%Z.
Proof.
  intros Hno. rewrite calcPointsOnRightSide_In.
  rewrite (proj1 (noOverflow_exact A B p Hno)). reflexivity.
Qed.

Lemma calcPointsOnRightSide_exact_filter (A B : Point) (pts : list Point) :
  (forall q, In q pts -> noOverflow A B q) ->
  calcPointsOnRightSide A B pts
  = List.filter
      (fun p => negb (comparePoints p A) && negb (comparePoints p B)
                && (exactDeterminant A B p <? 0)%Z) pts.
Proof.
  intros Hno. rewrite calcPointsOnRightSide_as_filter.
  induction pts as [| p pts IH]; [reflexivity |].
  cbn [List.filter].
  rewrite (proj1 (noOverflow_exact A B p (Hno p (or_introl eq_refl)))).
  rewrite IH by (intros q Hq; apply Hno; right; exact Hq).
  reflexivity.
Qed.

(** C5 (as the code has it).  Where the determinant of lines 189-197 is
    computed without overflow, as it is for all points the generator
    draws, [calcPointsOnRightSide] keeps, in their order, exactly the
    points of the list whose exact determinant against the segment is
    negative and that are neither [begin] nor [end]; points with
    determinant zero or positive are dropped.  In general the sign tested
    is that of the value the 32-bit computation gives.  For the segment
    (0,0)-(10,0): (5,-5) is kept, (5,5) is not, and (5,0) is kept on
    neither side. *)
Theorem calcPointsOnRightSide_spec :
  (forall (A B : Point) (pts : list Point),
      (forall q, In q pts -> noOverflow A B q) ->
      calcPointsOnRightSide A B pts
      = List.filter
          (fun p => negb (comparePoints p A) && negb (comparePoints p B)
                    && (exactDeterminant A B p <? 0)%Z) pts) /\
  (forall (A B p : Point) (pts : list Point),
      noOverflow A B p ->
      In p (calcPointsOnRightSide A B pts) <->
      In p pts /\ p <> A /\ p <> B /\ (exactDeterminant A B p < 0)%Z) /\
  (forall (A B : Point) (pts : list Point),
      Forall inWindow (A :: B :: pts) ->
      forall p, In p (calcPointsOnRightSide A B pts) <->
                In p pts /\ p <> A /\ p <> B /\
                (exactDeterminant A B p < 0)%Z) /\
  (forall (A B : Point) (pts : list Point),
      calcPointsOnRightSide A B pts
      = List.filter
          (fun p => negb (comparePoints p A) && negb (comparePoints p B)
                    && (determinant A B p <? 0)%Z) pts) /\
  (forall (A B p : Point) (pts : list Point),
      In p (calcPointsOnRightSide A B pts) <->
      In p pts /\ p <> A /\ p <> B /\ (determinant A B p < 0)%Z) /\
  (forall (A B p : Point) (pts : list Point),
      (0 <= determinant A B p)%Z -> ~ In p (calcPointsOnRightSide A B pts)) /\
  (calcPointsOnRightSide (fst segmentExample) (snd segmentExample)
     candidatesExample = [mkPoint 5 (-5)] /\
   calcPointsOnRightSide (snd segmentExample) (fst segmentExample)
     candidatesExample = [mkPoint 5 5] /\
   determinant (fst segmentExample) (snd segmentExample) (mkPoint 5 (-5))
   = (-50)%Z /\
   determinant (fst segmentExample) (snd segmentExample) (mkPoint 5 5)
   = 50%Z /\
   determinant (fst segmentExample) (snd segmentExample) (mkPoint 5 0)
   = 0%Z).
Proof.
  split; [exact calcPointsOnRightSide_exact_filter |].
  split; [exact calcPointsOnRightSide_exact |].
  split.
  { intros A B pts Hwin p. rewrite calcPointsOnRightSide_In.
    rewrite !List.Forall_cons_iff in Hwin. destruct Hwin as (HA & HB & Hpts).
    rewrite List.Forall_forall in Hpts.
    split; intros (Hp & H1 & H2 & Hneg);
      (split; [exact Hp |]; split; [exact H1 |]; split; [exact H2 |]);
      pose proof (proj1 (noOverflow_exact A B p
                           (inWindow_noOverflow A B p HA HB (Hpts p Hp))))
        as Heq; lia. }
  exact (conj calcPointsOnRightSide_as_filter
          (conj calcPointsOnRightSide_In
            (conj calcPointsOnRightSide_drops
                  calcPointsOnRightSide_example))).
Qed.

Lemma calcPointsOnRightSide_spec_witness :
  calcPointsOnRightSide (mkPoint 1269 10) (mkPoint 10 10)
    [mkPoint 600 300; mkPoint 600 10]
  = List.filter
      (fun p => negb (comparePoints p (mkPoint 1269 10))
                && negb (comparePoints p (mkPoint 10 10))
                && (exactDeterminant (mkPoint 1269 10) (mkPoint 10 10) p
                    <? 0)%Z)
      [mkPoint 600 300; mkPoint 600 10].
Proof.
  apply (proj1 calcPointsOnRightSide_spec).
  intros q Hq. apply inWindow_noOverflow; unfold inWindow;
    rewrite pointXmax_value, pointYmax_value; unfold windowMargin;
    try (cbn [x y]; lia).
  repeat (destruct Hq as [<- | Hq]; [cbn [x y]; lia |]). destruct Hq.
Defined.

(** Outside that range the claim fails: against the segment
    (0,0)-(100000,0) the point (50000,30000) has the exact determinant
    3000000000, which is positive, and is kept all the same: in 32 bits the
    product 100000 * 30000 is -1294967296. *)
Lemma calcPointsOnRightSide_overflow_counterexample :
  exactDeterminant (mkPoint 0 0) (mkPoint 100000 0) (mkPoint 50000 30000)
  = 3000000000%Z /\
  determinant (mkPoint 0 0) (mkPoint 100000 0) (mkPoint 50000 30000)
  = (-1294967296)%Z /\
  calcPointsOnRightSide (mkPoint 0 0) (mkPoint 100000 0)
    [mkPoint 50000 30000]
  = [mkPoint 50000 30000].
Proof. repeat apply conj; vm_compute; reflexivity. Qed.

(** ** calculateFurthestPoint *)

Lemma absDeterminant_range (segA segB p : Point) :
  (0 <= absDeterminant segA segB p)%Z \/
  absDeterminant segA segB p = Int.min_int.
Proof. apply abs_range, determinant_in_range. Qed.

Lemma furthestLoop_cons (segA segB p : Point) (pts : list Point)
    (furthest : Point) (prevMax : Z) :
  furthestLoop segA segB (p :: pts) (furthest, prevMax)
  = furthestLoop segA segB pts
      (if (absDeterminant segA segB p >? prevMax)%Z
       then (p, absDeterminant segA segB p) else (furthest, prevMax)).
Proof. unfold furthestLoop. cbn [fold_left]. unfold furthestStep. reflexivity. Qed.

(** The loop either never updates [furthest], every value being at most
    [prevMax], or ends on the first point with the largest value. *)
Lemma furthestLoop_spec (segA segB : Point) (pts : list Point) :
  forall (furthest : Point) (prevMax : Z),
    let r := furthestLoop segA segB pts (furthest, prevMax) in
    (r = (furthest, prevMax) /\
     forall q, In q pts -> (absDeterminant segA segB q <= prevMax)%Z)
    \/
    (exists l1 l2,
        pts = l1 ++ fst r :: l2 /\
        snd r = absDeterminant segA segB (fst r) /\
        (prevMax < snd r)%Z /\
        (forall q, In q l1 -> (absDeterminant segA segB q < snd r)%Z) /\
        (forall q, In q l2 -> (absDeterminant segA segB q <= snd r)%Z)).
Proof.
  induction pts as [| p pts IH]; intros furthest prevMax; cbv zeta.
  - left. split; [reflexivity | intros q []].
  - rewrite furthestLoop_cons.
    destruct (absDeterminant segA segB p >? prevMax)%Z eqn:Hgt.
    + apply Z.gtb_lt in Hgt.
      destruct (IH p (absDeterminant segA segB p))
        as [[Heq Hall] | (l1 & l2 & Hpts & Hval & Hlt & Hl1 & Hl2)].
      * right. exists [], pts. rewrite Heq. cbn [fst snd app].
        repeat split; [exact Hgt | intros q [] | exact Hall].
      * right. exists (p :: l1), l2. rewrite <- app_comm_cons, <- Hpts.
        repeat split; [exact Hval | lia | | exact Hl2].
        intros q [<- | Hq]; [lia | apply Hl1, Hq].
    + assert (absDeterminant segA segB p <= prevMax)%Z as Hle.
      { destruct (Z.gtb_spec (absDeterminant segA segB p) prevMax);
          [discriminate | lia]. }
      destruct (IH furthest prevMax)
        as [[Heq Hall] | (l1 & l2 & Hpts & Hval & Hlt & Hl1 & Hl2)].
      * left. split; [exact Heq |].
        intros q [<- | Hq]; [exact Hle | apply Hall, Hq].
      * right. exists (p :: l1), l2. rewrite <- app_comm_cons, <- Hpts.
        repeat split; [exact Hval | exact Hlt | | exact Hl2].
        intros q [<- | Hq]; [lia | apply Hl1, Hq].
Qed.

Lemma calculateFurthestPoint_first_max (A B : Point) (pts : list Point) :
  pts <> [] ->
  exists furthest l1 l2,
    calculateFurthestPoint A B pts = Returns furthest /\
    pts = l1 ++ furthest :: l2 /\
    (forall q, In q l1 ->
       (absDeterminant A B q < absDeterminant A B furthest)%Z) /\
    (forall q, In q l2 ->
       (absDeterminant A B q <= absDeterminant A B furthest)%Z).
Proof.
  destruct pts as [| p0 pts']; [congruence |]. intros _.
  unfold calculateFurthestPoint, index. cbn [lookup list_lookup bind].
  destruct (furthestLoop_spec A B (p0 :: pts') p0 (-1)%Z)
    as [[Heq Hall] | (l1 & l2 & Hpts & Hval & Hlt & Hl1 & Hl2)].
  - exists p0, [], pts'. rewrite Heq. cbn [fst app].
    assert (forall q, In q (p0 :: pts') ->
              absDeterminant A B q = Int.min_int) as Hmin.
    { intros q Hq. specialize (Hall q Hq).
      destruct (absDeterminant_range A B q); [lia | assumption]. }
    repeat split; [intros q [] |].
    intros q Hq.
    rewrite (Hmin q) by (right; exact Hq).
    rewrite (Hmin p0) by (left; reflexivity). lia.
  - exists (fst (furthestLoop A B (p0 :: pts') (p0, (-1)%Z))), l1, l2.
    rewrite <- Hval. repeat split; assumption.
Qed.

(** C6 (as the code has it).  On a non-empty list
    [calculateFurthestPoint] returns the first point of the list, in
    iteration order, among those with the largest [abs] of the determinant
    as line 220 computes it in 32 bits: every point of the list has a
    value at most as large, every earlier point a strictly smaller one.
    Where that computation does not overflow on the points of the list,
    as for all points the generator draws, these are the absolute values
    of the exact determinant, and the point returned is the first that
    maximises them. *)
Theorem calculateFurthestPoint_spec (A B : Point) (pts : list Point) :
  pts <> [] ->
  exists furthest l1 l2,
    calculateFurthestPoint A B pts = Returns furthest /\
    pts = l1 ++ furthest :: l2 /\
    (forall q, In q pts ->
       (Int.abs (determinant A B q)
        <= Int.abs (determinant A B furthest))%Z) /\
    (forall q, In q l1 ->
       (Int.abs (determinant A B q)
        < Int.abs (determinant A B furthest))%Z) /\
    ((forall q, In q pts -> noOverflow A B q) ->
     (forall q, In q pts ->
        (Z.abs (exactDeterminant A B q)
         <= Z.abs (exactDeterminant A B furthest))%Z) /\
     (forall q, In q l1 ->
        (Z.abs (exactDeterminant A B q)
         < Z.abs (exactDeterminant A B furthest))%Z)).
Proof.
  intros Hne.
  destruct (calculateFurthestPoint_first_max A B pts Hne)
    as (furthest & l1 & l2 & Hret & Hpts & Hl1 & Hl2).
  exists furthest, l1, l2.
  assert (forall q, In q pts ->
            (Int.abs (determinant A B q)
             <= Int.abs (determinant A B furthest))%Z) as Hall.
  { intros q Hq. rewrite Hpts in Hq. apply in_app_or in Hq.
    destruct Hq as [Hq | [<- | Hq]].
    - specialize (Hl1 q Hq). unfold absDeterminant in Hl1. lia.
    - lia.
    - apply (Hl2 q Hq). }
  split; [exact Hret |]. split; [exact Hpts |]. split; [exact Hall |].
  split; [exact Hl1 |].
  intros Hno.
  assert (In furthest pts) as Hin.
  { rewrite Hpts. apply in_or_app. right. left. reflexivity. }
  assert (forall q, In q pts ->
            Int.abs (determinant A B q) = Z.abs (exactDeterminant A B q))
    as Hexact.
  { intros q Hq. apply noOverflow_exact, Hno, Hq. }
  split.
  - intros q Hq. rewrite <- (Hexact q Hq), <- (Hexact furthest Hin).
    apply (Hall q Hq).
  - intros q Hq.
    assert (In q pts) as Hq'.
    { rewrite Hpts. apply in_or_app. left. exact Hq. }
    rewrite <- (Hexact q Hq'), <- (Hexact furthest Hin).
    apply (Hl1 q Hq).
Qed.

Lemma calculateFurthestPoint_spec_witness :
  exists furthest l1 l2,
    calculateFurthestPoint (mkPoint 0 0) (mkPoint 10 0)
      [mkPoint 2 3; mkPoint 4 (-7); mkPoint 6 7; mkPoint 8 1]
    = Returns furthest /\
    [mkPoint 2 3; mkPoint 4 (-7); mkPoint 6 7; mkPoint 8 1]
    = l1 ++ furthest :: l2 /\
    (forall q, In q [mkPoint 2 3; mkPoint 4 (-7); mkPoint 6 7; mkPoint 8 1] ->
       (Int.abs (determinant (mkPoint 0 0) (mkPoint 10 0) q)
        <= Int.abs (determinant (mkPoint 0 0) (mkPoint 10 0) furthest))%Z) /\
    (forall q, In q l1 ->
       (Int.abs (determinant (mkPoint 0 0) (mkPoint 10 0) q)
        < Int.abs (determinant (mkPoint 0 0) (mkPoint 10 0) furthest))%Z) /\
    (forall q, In q [mkPoint 2 3; mkPoint 4 (-7); mkPoint 6 7; mkPoint 8 1] ->
       (Z.abs (exactDeterminant (mkPoint 0 0) (mkPoint 10 0) q)
        <= Z.abs (exactDeterminant (mkPoint 0 0) (mkPoint 10 0)
                    furthest))%Z) /\
    (forall q, In q l1 ->
       (Z.abs (exactDeterminant (mkPoint 0 0) (mkPoint 10 0) q)
        < Z.abs (exactDeterminant (mkPoint 0 0) (mkPoint 10 0)
                   furthest))%Z).
Proof.
  destruct (calculateFurthestPoint_spec (mkPoint 0 0) (mkPoint 10 0)
              [mkPoint 2 3; mkPoint 4 (-7); mkPoint 6 7; mkPoint 8 1]
              ltac:(discriminate))
    as (furthest & l1 & l2 & Hret & Hpts & Hall & Hl1 & Hexact).
  destruct Hexact as [Hall' Hl1'].
  { intros q Hq.
    unfold noOverflow, Int.in_range, Int.min_int, Int.max_int.
    repeat (destruct Hq as [<- | Hq]; [cbn [x y]; lia |]). destruct Hq. }
  exists furthest, l1, l2.
  exact (conj Hret (conj Hpts (conj Hall (conj Hl1 (conj Hall' Hl1'))))).
Defined.
(** Outside the range in which the determinant is computed without
    overflow the result is not the point with the largest absolute value
    of the exact determinant: against (0,0)-(100000,0) the call returns
    (0,30000), whose exact value is 3000000000, although (0,50000) has
    5000000000; in 32 bits the two absolute values are 1294967296 and
    705032704. *)
Lemma calculateFurthestPoint_overflow_counterexample :
  calculateFurthestPoint (mkPoint 0 0) (mkPoint 100000 0)
    [mkPoint 0 30000; mkPoint 0 50000]
  = Returns (mkPoint 0 30000) /\
  (Z.abs (exactDeterminant (mkPoint 0 0) (mkPoint 100000 0)
            (mkPoint 0 30000))
   < Z.abs (exactDeterminant (mkPoint 0 0) (mkPoint 100000 0)
              (mkPoint 0 50000)))%Z /\
  Int.abs (determinant (mkPoint 0 0) (mkPoint 100000 0) (mkPoint 0 30000))
  = 1294967296%Z /\
  Int.abs (determinant (mkPoint 0 0) (mkPoint 100000 0) (mkPoint 0 50000))
  = 705032704%Z.
Proof. repeat apply conj; vm_compute; reflexivity. Qed.

Example calculateFurthestPoint_tie :
  calculateFurthestPoint (mkPoint 0 0) (mkPoint 10 0)
    [mkPoint 2 3; mkPoint 4 (-7); mkPoint 6 7; mkPoint 8 1]
  = Returns (mkPoint 4 (-7)).
Proof. vm_compute. reflexivity. Qed.

Lemma calculateFurthestPoint_In (A B furthest : Point) (pts : list Point) :
  calculateFurthestPoint A B pts = Returns furthest -> In furthest pts.
Proof.
  intros Hret. destruct pts as [| p0 pts']; [discriminate |].
  destruct (calculateFurthestPoint_first_max A B (p0 :: pts') ltac:(discriminate))
    as (f & l1 & l2 & Hret' & Hpts & _).
  rewrite Hret in Hret'. injection Hret' as <-.
  rewrite Hpts. apply in_or_app. right. left. reflexivity.
Qed.
(** ** The store *)

Lemma load_Returns (h : list StepData) (cur : option nat) (nd : StepData) :
  load h cur = Returns nd <-> exists c, cur = Some c /\ h !! c = Some nd.
Proof.
  unfold load. split.
  - destruct cur as [c |]; [| discriminate].
    destruct (h !! c) as [nd' |] eqn:Hc; [| discriminate].
    intros [= ->]. exists c. split; [reflexivity | exact Hc].
  - intros (c & -> & ->). reflexivity.
Qed.

Lemma load_lookup (h : list StepData) (c : nat) (nd : StepData) :
  h !! c = Some nd -> load h (Some c) = Returns nd.
Proof. intros H. apply load_Returns. exists c. split; [reflexivity | exact H]. Qed.

Lemma setProgress_same (nd : StepData) :
  setProgress (progress nd) nd = nd.
Proof. destruct nd; reflexivity. Qed.

Lemma setRecursive_same (nd : StepData) :
  setRecursive (recursiveOne nd) (recursiveTwo nd) nd = nd.
Proof. destruct nd; reflexivity. Qed.

Lemma isDone_true (pr : StepDataProgress) : isDone pr = true <-> pr = SDP_Done.
Proof. destruct pr; simpl; split; congruence. Qed.

Lemma isDone_false (pr : StepDataProgress) :
  isDone pr = false <-> pr <> SDP_Done.
Proof. destruct pr; simpl; split; congruence. Qed.

(** ** The unwinding loop *)

Lemma unwindDone_S (fuel : nat) (h : list StepData) (c : nat) (nd : StepData) :
  h !! c = Some nd ->
  unwindDone (S fuel) h (Some c)
  = if isDone (progress nd) then
      match prevStep nd with
      | None => Returns (<[c := setRecursive None None nd]> h, Some c, false)
      | Some p => unwindDone fuel (<[c := setRecursive None None nd]> h) (Some p)
      end
    else Returns (h, Some c, true).
Proof. intros Hc. cbn [unwindDone]. rewrite (load_lookup _ _ _ Hc). reflexivity. Qed.

(** When the loop leaves through [return false] the cursor is on a node
    that is done, has no parent and no children left. *)
Lemma unwindDone_false (fuel : nat) :
  forall (h : list StepData) (cur : option nat)
         (h' : list StepData) (cur' : option nat),
    unwindDone fuel h cur = Returns (h', cur', false) ->
    length h' = length h /\
    exists c nd,
      cur' = Some c /\ h' !! c = Some nd /\ progress nd = SDP_Done /\
      recursiveOne nd = None /\ recursiveTwo nd = None /\ prevStep nd = None.
Proof.
  induction fuel as [| fuel IH]; intros h cur h' cur' Hrun; [discriminate |].
  cbn [unwindDone] in Hrun.
  destruct (load h cur) as [nd | | |] eqn:Hload; try discriminate.
  apply load_Returns in Hload. destruct Hload as (c & -> & Hc).
  cbn [bind] in Hrun.
  destruct (isDone (progress nd)) eqn:Hdone; [| discriminate].
  apply isDone_true in Hdone.
  destruct (prevStep nd) as [p |] eqn:Hprev.
  - apply IH in Hrun. rewrite length_insert in Hrun. exact Hrun.
  - injection Hrun as <- <-. split; [apply length_insert |].
    exists c, (setRecursive None None nd).
    split; [reflexivity |]. split.
    + apply list_lookup_insert_eq. apply (lookup_lt_Some _ _ _ Hc).
    + repeat apply conj; try reflexivity; assumption.
Qed.

(** After [return false] the next call does the same and changes nothing. *)
Lemma step_false_again (s s' : QuickHull) :
  step s = Returns (false, s') -> step s' = Returns (false, s').
Proof.
  intros Hstep. unfold step in Hstep.
  destruct (markEmptyDone (heap s) (nextStep s)) as [h1 | | |];
    try discriminate.
  cbn [bind] in Hstep.
  destruct (unwindDone (length h1) h1 (nextStep s))
    as [[[h2 cur] more] | | |] eqn:Hunwind; try discriminate.
  cbn [bind] in Hstep.
  destruct more.
  { destruct (visit h2 cur s); discriminate. }
  injection Hstep as <-.
  apply unwindDone_false in Hunwind.
  destruct Hunwind as (_ & c & nd & -> & Hc & Hprog & Hone & Htwo & Hprev).
  assert (setProgress SDP_Done nd = nd) as Hsame1.
  { rewrite <- Hprog. apply setProgress_same. }
  assert (setRecursive None None nd = nd) as Hsame2.
  { rewrite <- Hone at 1. rewrite <- Htwo at 1. apply setRecursive_same. }
  unfold step, markEmptyDone. cbn [heap nextStep].
  rewrite (load_lookup _ _ _ Hc). cbn [bind].
  assert ((match pointSet nd with
           | [] => Returns (<[c := setProgress SDP_Done nd]> h2)
           | _ :: _ => Returns h2
           end) = Returns h2) as ->.
  { destruct (pointSet nd); [| reflexivity].
    rewrite Hsame1, (list_insert_id _ _ _ Hc). reflexivity. }
  cbn [bind].
  pose proof (lookup_lt_Some _ _ _ Hc) as Hlt.
  destruct (length h2) as [| fuel] eqn:Hlen; [lia |].
  rewrite (unwindDone_S _ _ _ _ Hc), Hprog, Hprev. cbn [isDone].
  rewrite Hsame2, (list_insert_id _ _ _ Hc). cbn [bind].
  reflexivity.
Qed.

(** C10.  Once [step] has returned [false], every later call returns
    [false] again and leaves the whole state as it was: the hull points,
    the nodes of the store and the cursor. *)
Theorem step_false_stable (s s' : QuickHull) :
  step s = Returns (false, s') ->
  step s' = Returns (false, s') /\
  forall n, stepN n s' = Returns s' /\
            step (orElse s (stepN n s')) = Returns (false, s').
Proof.
  intros Hstep.
  pose proof (step_false_again s s' Hstep) as Hfix.
  split; [exact Hfix |].
  assert (forall n, stepN n s' = Returns s') as Hrun.
  { induction n as [| n IH]; [reflexivity |].
    cbn [stepN]. rewrite Hfix. cbn [bind]. exact IH. }
  intros n. split; [apply Hrun |].
  rewrite Hrun. exact Hfix.
Qed.

Lemma step_false_stable_witness :
  step (squareState 7) = Returns (false, squareState 7) /\
  forall n, stepN n (squareState 7) = Returns (squareState 7) /\
            step (orElse (squareState 6) (stepN n (squareState 7)))
            = Returns (false, squareState 7).
Proof.
  apply (step_false_stable (squareState 6) (squareState 7)).
  vm_compute. reflexivity.
Defined.

(** ** One visit *)

Lemma index_nonempty (pts : list Point) (i : nat) :
  i < length pts -> exists p, index pts i = Returns p /\ In p pts.
Proof.
  intros Hi. destruct (lookup_lt_is_Some_2 pts i Hi) as [p Hp].
  exists p. unfold index. rewrite Hp. split; [reflexivity |].
  apply list_elem_of_In. apply (list_elem_of_lookup_2 _ _ _ Hp).
Qed.

Lemma nonempty_length {A} (l : list A) : l <> [] -> 0 < length l.
Proof. destruct l; [congruence | simpl; lia]. Qed.

Lemma calculateFurthestPoint_Returns (A B : Point) (pts : list Point) :
  pts <> [] ->
  exists furthest,
    calculateFurthestPoint A B pts = Returns furthest /\ In furthest pts.
Proof.
  intros Hne.
  destruct (calculateFurthestPoint_first_max A B pts Hne)
    as (furthest & l1 & l2 & Hret & Hpts & _).
  exists furthest. split; [exact Hret |].
  apply (calculateFurthestPoint_In A B). exact Hret.
Qed.

Lemma visit_Returns (h : list StepData) (c : nat) (nd : StepData)
    (s : QuickHull) :
  h !! c = Some nd -> pointSet nd <> [] ->
  exists furthest minP maxP,
    calculateFurthestPoint (segmentA nd) (segmentB nd) (pointSet nd)
    = Returns furthest /\
    In furthest (pointSet nd) /\
    index (pointSet nd) 0 = Returns minP /\
    index (pointSet nd) (length (pointSet nd) - 1) = Returns maxP /\
    visit h (Some c) s = Returns (visited h c nd furthest minP maxP s).
Proof.
  intros Hc Hne.
  pose proof (nonempty_length _ Hne) as Hlen.
  pose proof (lookup_lt_Some _ _ _ Hc) as Hlt.
  destruct (calculateFurthestPoint_Returns (segmentA nd) (segmentB nd) _ Hne)
    as (furthest & Hfur & Hin).
  destruct (index_nonempty (pointSet nd) 0 Hlen) as (minP & Hmin & _).
  destruct (index_nonempty (pointSet nd) (length (pointSet nd) - 1)
              ltac:(lia)) as (maxP & Hmax & _).
  exists furthest, minP, maxP.
  repeat apply conj; try assumption.
  unfold visit, visited. rewrite (load_lookup _ _ _ Hc). cbn [bind].
  rewrite Hmin, Hmax, Hfur. cbn [bind].
  destruct (progress nd) eqn:Hprog; cbn [isRecurseOne bind].
  - unfold prepareNextRecursion. rewrite (load_lookup _ _ _ Hc). cbn [bind].
    rewrite load_lookup
      with (nd := setRecursive (Some (S (length h))) (Some (length h)) nd).
    + cbn [bind setRecursive progress]. rewrite Hprog.
      rewrite insert_app_l by (rewrite length_insert; exact Hlt).
      rewrite list_insert_insert_eq. reflexivity.
    + rewrite lookup_app_l by (rewrite length_insert; exact Hlt).
      apply list_lookup_insert_eq. exact Hlt.
  - rewrite (load_lookup _ _ _ Hc). cbn [bind]. rewrite Hprog. reflexivity.
  - rewrite (load_lookup _ _ _ Hc). cbn [bind]. rewrite Hprog. reflexivity.
  - rewrite (load_lookup _ _ _ Hc). cbn [bind]. rewrite Hprog. reflexivity.
Qed.

(** A call with the cursor on a node that has points and is not done goes
    straight to the visit of that node. *)
Lemma step_visits_cursor (s : QuickHull) (c : nat) (nd : StepData) :
  nextStep s = Some c -> heap s !! c = Some nd ->
  pointSet nd <> [] -> progress nd <> SDP_Done ->
  step s = (let* s' := visit (heap s) (Some c) s in Returns (true, s')).
Proof.
  intros Hcur Hc Hne Hprog.
  pose proof (lookup_lt_Some _ _ _ Hc) as Hlt.
  unfold step, markEmptyDone. rewrite Hcur, (load_lookup _ _ _ Hc).
  cbn [bind].
  destruct (pointSet nd) as [| p0 pts'] eqn:Hpts; [congruence |].
  cbn [bind].
  destruct (length (heap s)) as [| fuel] eqn:Hlen; [lia |].
  rewrite (unwindDone_S _ _ _ _ Hc).
  rewrite (proj2 (isDone_false _) Hprog). reflexivity.
Qed.
(** ** What a call does with the node under the cursor *)

Lemma setupInput_Returns (pts : list Point) (qh : QuickHull) (s0 : QuickHull) :
  setupInput pts qh = Returns s0 ->
  exists minP maxP,
    index (sortPoints pts) 0 = Returns minP /\
    index (sortPoints pts) (length (sortPoints pts) - 1) = Returns maxP /\
    s0 = mkQuickHull
           [mkStepData (sortPoints pts) minP maxP SDP_FirstIteration
                       (Some 2) (Some 1) None;
            newStep (Some 0) minP maxP (sortPoints pts);
            newStep (Some 0) maxP minP (sortPoints pts)]
           (sortPoints pts) [minP; maxP] (Some 0)
           (mkPoint (windowWidth / 2) (windowHeight / 2))
           minP maxP (furthestStore qh).
Proof.
  unfold setupInput.
  destruct (index (sortPoints pts) 0) as [minP | | |]; try discriminate.
  destruct (index (sortPoints pts) (length (sortPoints pts) - 1))
    as [maxP | | |]; try discriminate.
  cbn [bind]. unfold prepareNextRecursion.
  cbn [load lookup list_lookup bind length insert list_insert app
       setRecursive pointSet segmentA segmentB progress prevStep].
  intros [= <-]. exists minP, maxP. repeat apply conj; reflexivity.
Qed.

(** A visit that returns was one of a node with points, and ends in the
    state [visited] describes. *)
Lemma visit_inv (h : list StepData) (cur : option nat) (s s' : QuickHull) :
  visit h cur s = Returns s' ->
  exists c nd furthest minP maxP,
    cur = Some c /\ h !! c = Some nd /\ pointSet nd <> [] /\
    calculateFurthestPoint (segmentA nd) (segmentB nd) (pointSet nd)
    = Returns furthest /\
    s' = visited h c nd furthest minP maxP s.
Proof.
  intros Hvisit.
  assert (exists c nd, cur = Some c /\ h !! c = Some nd /\ pointSet nd <> [])
    as (c & nd & -> & Hc & Hne).
  { unfold visit in Hvisit.
    destruct (load h cur) as [nd | | |] eqn:Hload; try discriminate.
    apply load_Returns in Hload. destruct Hload as (c & -> & Hc).
    cbn [bind] in Hvisit.
    destruct (index (pointSet nd) 0) as [minP | | |] eqn:Hmin;
      try discriminate.
    exists c, nd. split; [reflexivity |]. split; [exact Hc |].
    intros Hnil. rewrite Hnil in Hmin. discriminate Hmin. }
  destruct (visit_Returns h c nd s Hc Hne)
    as (furthest & minP & maxP & Hfur & _ & _ & _ & Hret).
  rewrite Hret in Hvisit. injection Hvisit as <-.
  exists c, nd, furthest, minP, maxP.
  repeat apply conj; try assumption; reflexivity.
Qed.

Lemma visited_hullPoints (h : list StepData) (c : nat) (nd : StepData)
    (furthest minP maxP : Point) (s : QuickHull) :
  hullPoints (visited h c nd furthest minP maxP s)
  = if isRecurseOne (progress nd) then hullPoints s ++ [furthest]
    else hullPoints s.
Proof. unfold visited. destruct (progress nd); reflexivity. Qed.

Lemma step_hullPoints (s : QuickHull) (more : bool) (s' : QuickHull) :
  step s = Returns (more, s') ->
  exists h1 h2 cur,
    markEmptyDone (heap s) (nextStep s) = Returns h1 /\
    unwindDone (length h1) h1 (nextStep s) = Returns (h2, cur, more) /\
    if more then
      exists c nd furthest,
        cur = Some c /\ h2 !! c = Some nd /\
        calculateFurthestPoint (segmentA nd) (segmentB nd) (pointSet nd)
        = Returns furthest /\
        hullPoints s' = if isRecurseOne (progress nd)
                        then hullPoints s ++ [furthest]
                        else hullPoints s
    else hullPoints s' = hullPoints s.
Proof.
  intros Hstep. unfold step in Hstep.
  destruct (markEmptyDone (heap s) (nextStep s)) as [h1 | | |] eqn:Hmark;
    try discriminate.
  cbn [bind] in Hstep.
  destruct (unwindDone (length h1) h1 (nextStep s))
    as [[[h2 cur] b] | | |] eqn:Hunwind; try discriminate.
  cbn [bind] in Hstep.
  exists h1, h2, cur. destruct b.
  - destruct (visit h2 cur s) as [s1 | | |] eqn:Hvisit; try discriminate.
    injection Hstep as <- <-.
    split; [reflexivity |]. split; [exact Hunwind |].
    destruct (visit_inv _ _ _ _ Hvisit)
      as (c & nd & furthest & minP & maxP & -> & Hc & _ & Hfur & ->).
    exists c, nd, furthest.
    split; [reflexivity |]. split; [exact Hc |]. split; [exact Hfur |].
    apply visited_hullPoints.
  - injection Hstep as <- <-.
    split; [reflexivity |]. split; [exact Hunwind | reflexivity].
Qed.

(** C1 (as the code has it).  With the cursor on a node that has points:
    in state [SDP_RecurseOne] the call builds the two children, from the
    node's points against (segmentA, furthest) and (furthest, segmentB),
    appends the furthest point to [hullPoints] and moves the cursor to the
    child for (furthest, segmentB); in state [SDP_FirstIteration] (the
    root, whose children [randomizeInput] built against (min, max) and
    (max, min)) it builds no node and appends nothing, marks the node
    [SDP_RecurseTwo] and moves the cursor to its [recursiveOne]; in state
    [SDP_RecurseTwo] it builds no node and appends nothing either.
    Whatever the cursor, a call appends one furthest point exactly when
    the node it visits is in state [SDP_RecurseOne], and nothing
    otherwise.  [randomizeInput] itself puts the two extreme points in
    [hullPoints]; the first call after it is the visit of the root, and
    leaves the cursor on the child for (max, min). *)
Theorem step_appends_furthest :
  (forall (s : QuickHull) (c : nat) (nd : StepData),
      nextStep s = Some c -> heap s !! c = Some nd -> pointSet nd <> [] ->
      exists furthest s',
        calculateFurthestPoint (segmentA nd) (segmentB nd) (pointSet nd)
        = Returns furthest /\
        match progress nd with
        | SDP_RecurseOne =>
            step s = Returns (true, s') /\
            hullPoints s' = hullPoints s ++ [furthest] /\
            heap s' =
              <[c := mkStepData (pointSet nd) (segmentA nd) (segmentB nd)
                       SDP_RecurseTwo (Some (S (length (heap s))))
                       (Some (length (heap s))) (prevStep nd)]> (heap s)
              ++ [newStep (Some c) (segmentA nd) furthest (pointSet nd);
                  newStep (Some c) furthest (segmentB nd) (pointSet nd)] /\
            nextStep s' = Some (S (length (heap s)))
        | SDP_FirstIteration =>
            step s = Returns (true, s') /\
            hullPoints s' = hullPoints s /\
            heap s' = <[c := setProgress SDP_RecurseTwo nd]> (heap s) /\
            nextStep s' = recursiveOne nd
        | SDP_RecurseTwo =>
            step s = Returns (true, s') /\
            hullPoints s' = hullPoints s /\
            heap s' = <[c := setProgress SDP_Done nd]> (heap s) /\
            nextStep s' = recursiveTwo nd
        | SDP_Done => True
        end) /\
  (forall (s : QuickHull) (more : bool) (s' : QuickHull),
      step s = Returns (more, s') ->
      exists h1 h2 cur,
        markEmptyDone (heap s) (nextStep s) = Returns h1 /\
        unwindDone (length h1) h1 (nextStep s) = Returns (h2, cur, more) /\
        if more then
          exists c nd furthest,
            cur = Some c /\ h2 !! c = Some nd /\
            calculateFurthestPoint (segmentA nd) (segmentB nd) (pointSet nd)
            = Returns furthest /\
            hullPoints s' = if isRecurseOne (progress nd)
                            then hullPoints s ++ [furthest]
                            else hullPoints s
        else hullPoints s' = hullPoints s) /\
  (forall (pts : list Point) (qh s0 : QuickHull),
      setupInput pts qh = Returns s0 ->
      hullPoints s0 = [minPoint s0; maxPoint s0] /\
      heap s0 =
        [mkStepData (basePointList s0) (minPoint s0) (maxPoint s0)
                    SDP_FirstIteration (Some 2) (Some 1) None;
         newStep (Some 0) (minPoint s0) (maxPoint s0) (basePointList s0);
         newStep (Some 0) (maxPoint s0) (minPoint s0) (basePointList s0)] /\
      nextStep s0 = Some 0 /\
      exists s1,
        step s0 = Returns (true, s1) /\
        hullPoints s1 = [minPoint s0; maxPoint s0] /\
        heap s1 =
          [mkStepData (basePointList s0) (minPoint s0) (maxPoint s0)
                      SDP_RecurseTwo (Some 2) (Some 1) None;
           newStep (Some 0) (minPoint s0) (maxPoint s0) (basePointList s0);
           newStep (Some 0) (maxPoint s0) (minPoint s0) (basePointList s0)] /\
        nextStep s1 = Some 2).
Proof.
  split; [| split].
  - intros s c nd Hcur Hc Hne.
    destruct (visit_Returns (heap s) c nd s Hc Hne)
      as (furthest & minP & maxP & Hfur & _ & _ & _ & Hvisit).
    exists furthest, (visited (heap s) c nd furthest minP maxP s).
    split; [exact Hfur |].
    destruct (progress nd) eqn:Hprog; [| | exact I |].
    all: rewrite (step_visits_cursor s c nd Hcur Hc Hne) by congruence.
    all: rewrite Hvisit; cbn [bind]; unfold visited; rewrite Hprog.
    all: repeat apply conj; reflexivity.
  - exact step_hullPoints.
  - intros pts qh s0 Hsetup.
    destruct (setupInput_Returns pts qh s0 Hsetup)
      as (minP & maxP & Hmin & _ & ->).
    cbn [hullPoints heap nextStep minPoint maxPoint basePointList].
    split; [reflexivity |]. split; [reflexivity |]. split; [reflexivity |].
    set (root := mkStepData (sortPoints pts) minP maxP SDP_FirstIteration
                   (Some 2) (Some 1) None).
    set (s0 := mkQuickHull _ _ _ _ _ _ _ _).
    assert (pointSet root <> []) as Hne.
    { cbn [root pointSet]. intros Hnil. rewrite Hnil in Hmin.
      discriminate Hmin. }
    destruct (visit_Returns (heap s0) 0 root s0 eq_refl Hne)
      as (furthest & minP' & maxP' & _ & _ & _ & _ & Hvisit).
    exists (visited (heap s0) 0 root furthest minP' maxP' s0).
    rewrite (step_visits_cursor s0 0 root eq_refl eq_refl Hne)
      by discriminate.
    rewrite Hvisit. cbn [bind].
    split; [reflexivity |]. repeat apply conj; reflexivity.
Qed.

Lemma step_appends_furthest_witness :
  exists furthest s',
    calculateFurthestPoint (mkPoint 10 10) (mkPoint 0 0) [mkPoint 0 10]
    = Returns furthest /\
    step (squareState 1) = Returns (true, s') /\
    hullPoints s' = hullPoints (squareState 1) ++ [furthest] /\
    length (heap s') = 5 /\
    nextStep s' = Some 4.
Proof.
  destruct (proj1 step_appends_furthest (squareState 1) 2
              (mkStepData [mkPoint 0 10] (mkPoint 10 10) (mkPoint 0 0)
                          SDP_RecurseOne None None (Some 0)))
    as (furthest & s' & Hfur & Hstep & Hhull & Hheap & Hnext).
  - vm_compute. reflexivity.
  - vm_compute. reflexivity.
  - discriminate.
  - exists furthest, s'.
    split; [exact Hfur |]. split; [exact Hstep |]. split; [exact Hhull |].
    split; [rewrite Hheap; vm_compute; reflexivity |].
    rewrite Hnext. vm_compute. reflexivity.
Defined.

(** The first call of a run: the root is in state [SDP_FirstIteration] and
    has points, yet the call appends no furthest point and builds no node. *)
Lemma step_first_iteration_counterexample :
  exists nd furthest s',
    nextStep (squareState 0) = Some 0 /\
    heap (squareState 0) !! 0 = Some nd /\
    pointSet nd <> [] /\
    progress nd = SDP_FirstIteration /\
    calculateFurthestPoint (segmentA nd) (segmentB nd) (pointSet nd)
    = Returns furthest /\
    step (squareState 0) = Returns (true, s') /\
    hullPoints s' = hullPoints (squareState 0) /\
    ~ In furthest (hullPoints s') /\
    length (heap s') = length (heap (squareState 0)).
Proof.
  eexists _, _, _.
  split; [vm_compute; reflexivity |].
  split; [vm_compute; reflexivity |].
  split; [discriminate |].
  split; [reflexivity |].
  split; [vm_compute; reflexivity |].
  split; [vm_compute; reflexivity |].
  split; [vm_compute; reflexivity |].
  split; [| vm_compute; reflexivity].
  vm_compute. intros [H | [H | []]]; discriminate H.
Qed.
(** ** The order of descent *)

Lemma step_after_unwind (s : QuickHull) (h1 h2 : list StepData)
    (cur : option nat) (more : bool) :
  markEmptyDone (heap s) (nextStep s) = Returns h1 ->
  unwindDone (length h1) h1 (nextStep s) = Returns (h2, cur, more) ->
  step s =
    if more then (let* s' := visit h2 cur s in Returns (true, s'))
    else Returns (false,
                  mkQuickHull h2 (basePointList s) (hullPoints s) cur
                    (center s) (minPoint s) (maxPoint s) (furthestStore s)).
Proof.
  intros Hmark Hunwind. unfold step. rewrite Hmark. cbn [bind].
  rewrite Hunwind. reflexivity.
Qed.

(** The first visit of node 2 of the run on the square, whose segment is
    (10,10)-(0,0) and whose furthest point is (0,10): the cursor goes to the
    child for (furthest, segmentB), not to the one for (segmentA, furthest). *)
Lemma step_descent_order_counterexample :
  exists nd s' child,
    nextStep (squareState 1) = Some 2 /\
    heap (squareState 1) !! 2 = Some nd /\
    pointSet nd <> [] /\
    progress nd = SDP_RecurseOne /\
    calculateFurthestPoint (segmentA nd) (segmentB nd) (pointSet nd)
    = Returns (mkPoint 0 10) /\
    step (squareState 1) = Returns (true, s') /\
    load (heap s') (nextStep s') = Returns child /\
    (segmentA child, segmentB child) = (mkPoint 0 10, segmentB nd) /\
    (segmentA child, segmentB child) <> (segmentA nd, mkPoint 0 10).
Proof.
  eexists _, _, _.
  split; [vm_compute; reflexivity |].
  split; [vm_compute; reflexivity |].
  split; [discriminate |].
  split; [reflexivity |].
  split; [vm_compute; reflexivity |].
  split; [vm_compute; reflexivity |].
  split; [vm_compute; reflexivity |].
  split; [vm_compute; reflexivity |].
  vm_compute. discriminate.
Qed.

(** ** What one call is made of *)

(** When the loop falls through, the cursor is on a node that is not done. *)
Lemma unwindDone_true (fuel : nat) :
  forall (h : list StepData) (cur : option nat)
         (h' : list StepData) (cur' : option nat),
    unwindDone fuel h cur = Returns (h', cur', true) ->
    exists c nd, cur' = Some c /\ h' !! c = Some nd /\
                 progress nd <> SDP_Done.
Proof.
  induction fuel as [| fuel IH]; intros h cur h' cur' Hrun; [discriminate |].
  cbn [unwindDone] in Hrun.
  destruct (load h cur) as [nd | | |] eqn:Hload; try discriminate.
  apply load_Returns in Hload. destruct Hload as (c & -> & Hc).
  cbn [bind] in Hrun.
  destruct (isDone (progress nd)) eqn:Hdone.
  - destruct (prevStep nd); [| discriminate]. apply (IH _ _ _ _ Hrun).
  - injection Hrun as <- <-. exists c, nd.
    split; [reflexivity |]. split; [exact Hc |].
    apply isDone_false. exact Hdone.
Qed.

(** The loop of lines 276-287 is the climb [pops] describes. *)
Lemma unwindDone_pops (fuel : nat) :
  forall (h : list StepData) (cur : option nat) (h' : list StepData)
         (cur' : option nat) (more : bool),
    unwindDone fuel h cur = Returns (h', cur', more) ->
    exists c c', cur = Some c /\ cur' = Some c' /\ pops h c h' c' more.
Proof.
  induction fuel as [| fuel IH]; intros h cur h' cur' more Hrun;
    [discriminate |].
  cbn [unwindDone] in Hrun.
  destruct (load h cur) as [nd | | |] eqn:Hload; try discriminate.
  apply load_Returns in Hload. destruct Hload as (c & -> & Hc).
  cbn [bind] in Hrun.
  destruct (isDone (progress nd)) eqn:Hdone.
  - apply isDone_true in Hdone.
    destruct (prevStep nd) as [p |] eqn:Hprev.
    + destruct (IH _ _ _ _ _ Hrun) as (p' & c' & [= <-] & -> & Hpops).
      exists c, c'. split; [reflexivity |]. split; [reflexivity |].
      apply (pops_up h c nd p h' c' more Hc Hdone Hprev Hpops).
    + injection Hrun as <- <- <-. exists c, c.
      split; [reflexivity |]. split; [reflexivity |].
      apply (pops_end h c nd Hc Hdone Hprev).
  - apply isDone_false in Hdone. injection Hrun as <- <- <-.
    exists c, c. split; [reflexivity |]. split; [reflexivity |].
    apply (pops_stop h c nd Hc Hdone).
Qed.

(** The node a climb ends on. *)
Lemma pops_lookup (h : list StepData) (c : nat) (h' : list StepData)
    (c' : nat) (more : bool) :
  pops h c h' c' more ->
  exists nd',
    h' !! c' = Some nd' /\
    if more then progress nd' <> SDP_Done
    else progress nd' = SDP_Done /\ prevStep nd' = None /\
         recursiveOne nd' = None /\ recursiveTwo nd' = None.
Proof.
  induction 1 as [h c nd Hc Hprog | h c nd Hc Hprog Hprev
                  | h c nd p h' c' more Hc Hprog Hprev _ IH].
  - exists nd. split; assumption.
  - exists (setRecursive None None nd). split.
    + apply list_lookup_insert_eq, (lookup_lt_Some _ _ _ Hc).
    + repeat apply conj; try reflexivity; assumption.
  - exact IH.
Qed.

(** C3 (as the code has it).  A call does its three parts one after the
    other.  It marks the node under the cursor [SDP_Done] if the node has
    no point.  It then goes up from the cursor as long as the node it is
    on is [SDP_Done], resetting the child links of each such node.  If it
    stops on a node that is not done, it visits that node, which has
    points: the furthest, the first and the last point of the node are
    computed; in state [SDP_RecurseOne] the two children are built, the
    furthest point is appended to [hullPoints] and the cursor goes to
    [recursiveOne]; in state [SDP_FirstIteration] the cursor goes to
    [recursiveOne], in state [SDP_RecurseTwo] to [recursiveTwo], the
    node's state advancing each time; the call returns [true].  If the
    climb reaches a done node without parent, the call makes no visit and
    returns [false]; the store and the cursor apart, the object is as
    before. *)
Theorem step_parts (s : QuickHull) (more : bool) (s' : QuickHull) :
  step s = Returns (more, s') ->
  exists c nd h2 c2 nd2,
    nextStep s = Some c /\ heap s !! c = Some nd /\
    pops (marked (heap s) c nd) c h2 c2 more /\
    h2 !! c2 = Some nd2 /\
    if more then
      progress nd2 <> SDP_Done /\ pointSet nd2 <> [] /\
      exists furthest minP maxP,
        calculateFurthestPoint (segmentA nd2) (segmentB nd2) (pointSet nd2)
        = Returns furthest /\
        index (pointSet nd2) 0 = Returns minP /\
        index (pointSet nd2) (length (pointSet nd2) - 1) = Returns maxP /\
        match progress nd2 with
        | SDP_RecurseOne =>
            s' = mkQuickHull
                   (<[c2 := mkStepData (pointSet nd2) (segmentA nd2)
                               (segmentB nd2) SDP_RecurseTwo
                               (Some (S (length h2))) (Some (length h2))
                               (prevStep nd2)]> h2
                    ++ [newStep (Some c2) (segmentA nd2) furthest
                          (pointSet nd2);
                        newStep (Some c2) furthest (segmentB nd2)
                          (pointSet nd2)])
                   (basePointList s) (hullPoints s ++ [furthest])
                   (Some (S (length h2))) (center s) minP maxP furthest
        | SDP_FirstIteration =>
            s' = mkQuickHull (<[c2 := setProgress SDP_RecurseTwo nd2]> h2)
                   (basePointList s) (hullPoints s) (recursiveOne nd2)
                   (center s) minP maxP (furthestStore s)
        | SDP_RecurseTwo =>
            s' = mkQuickHull (<[c2 := setProgress SDP_Done nd2]> h2)
                   (basePointList s) (hullPoints s) (recursiveTwo nd2)
                   (center s) minP maxP (furthestStore s)
        | SDP_Done => False
        end
    else
      progress nd2 = SDP_Done /\ prevStep nd2 = None /\
      recursiveOne nd2 = None /\ recursiveTwo nd2 = None /\
      s' = mkQuickHull h2 (basePointList s) (hullPoints s) (Some c2)
             (center s) (minPoint s) (maxPoint s) (furthestStore s).
Proof.
  intros Hstep. unfold step in Hstep.
  destruct (markEmptyDone (heap s) (nextStep s)) as [h1 | | |] eqn:Hmark;
    try discriminate.
  cbn [bind] in Hstep.
  destruct (unwindDone (length h1) h1 (nextStep s))
    as [[[h2 cur] b] | | |] eqn:Hunwind; try discriminate.
  cbn [bind] in Hstep.
  destruct (unwindDone_pops _ _ _ _ _ _ Hunwind)
    as (c & c2 & Hcur & -> & Hpops).
  assert (exists nd, heap s !! c = Some nd /\ h1 = marked (heap s) c nd)
    as (nd & Hc & Hh1).
  { unfold markEmptyDone in Hmark. rewrite Hcur in Hmark.
    destruct (load (heap s) (Some c)) as [nd | | |] eqn:Hload;
      try discriminate.
    apply load_Returns in Hload. destruct Hload as (c0 & [= <-] & Hc).
    cbn [bind] in Hmark. exists nd. split; [exact Hc |].
    unfold marked. destruct (pointSet nd); congruence. }
  rewrite Hh1 in Hpops.
  destruct (pops_lookup _ _ _ _ _ Hpops) as (nd2 & Hc2 & Hend).
  exists c, nd, h2, c2, nd2.
  split; [exact Hcur |]. split; [exact Hc |]. split.
  { destruct b.
    - destruct (visit h2 (Some c2) s); try discriminate.
      injection Hstep as <- _. exact Hpops.
    - injection Hstep as <- _. exact Hpops. }
  split; [exact Hc2 |].
  destruct b.
  - destruct (visit h2 (Some c2) s) as [s1 | | |] eqn:Hvisit;
      try discriminate.
    injection Hstep as <- <-.
    destruct (visit_inv _ _ _ _ Hvisit)
      as (c0 & nd0 & _ & _ & _ & [= <-] & Hc0 & Hne & _).
    rewrite Hc2 in Hc0. injection Hc0 as <-.
    destruct (visit_Returns h2 c2 nd2 s Hc2 Hne)
      as (furthest & minP & maxP & Hfur & _ & Hmin & Hmax & Hret).
    rewrite Hret in Hvisit. injection Hvisit as <-.
    split; [exact Hend |]. split; [exact Hne |].
    exists furthest, minP, maxP.
    split; [exact Hfur |]. split; [exact Hmin |]. split; [exact Hmax |].
    unfold visited. destruct (progress nd2);
      [reflexivity | reflexivity | apply Hend; reflexivity | reflexivity].
  - injection Hstep as <- <-.
    destruct Hend as (Hd & Hp & H1 & H2).
    repeat apply conj; try assumption. reflexivity.
Qed.

Lemma step_parts_witness :
  exists nd h2 c2 nd2,
    heap (squareState 2) !! 4 = Some nd /\
    pointSet nd = [] /\
    pops (marked (heap (squareState 2)) 4 nd) 4 h2 c2 true /\
    h2 !! c2 = Some nd2 /\
    progress nd2 <> SDP_Done /\ pointSet nd2 <> [].
Proof.
  destruct (step_parts (squareState 2) true (squareState 3)
              ltac:(vm_compute; reflexivity))
    as (c & nd & h2 & c2 & nd2 & Hcur & Hc & Hpops & Hc2 & Hprog & Hne & _).
  vm_compute in Hcur. injection Hcur as <-.
  exists nd, h2, c2, nd2.
  split; [exact Hc |]. split.
  { vm_compute in Hc. injection Hc as <-. reflexivity. }
  split; [exact Hpops |]. split; [exact Hc2 |].
  split; [exact Hprog | exact Hne].
Defined.

(** The third call of the run on the square does all three: it marks
    node 4, whose point set is empty, [SDP_Done]; it moves the cursor back
    to node 2; and it visits node 2, which becomes [SDP_Done], leaving the
    cursor on node 3. *)
Lemma step_parts_counterexample :
  exists h1 h2 s',
    nextStep (squareState 2) = Some 4 /\
    markEmptyDone (heap (squareState 2)) (Some 4) = Returns h1 /\
    progress <$> heap (squareState 2) !! 4 = Some SDP_RecurseOne /\
    progress <$> h1 !! 4 = Some SDP_Done /\
    unwindDone (length h1) h1 (Some 4) = Returns (h2, Some 2, true) /\
    progress <$> h2 !! 2 = Some SDP_RecurseTwo /\
    visit h2 (Some 2) (squareState 2) = Returns s' /\
    progress <$> heap s' !! 2 = Some SDP_Done /\
    nextStep s' = Some 3 /\
    step (squareState 2) = Returns (true, s').
Proof.
  eexists _, _, _.
  split; [vm_compute; reflexivity |].
  split; [vm_compute; reflexivity |].
  split; [vm_compute; reflexivity |].
  split; [vm_compute; reflexivity |].
  split; [vm_compute; reflexivity |].
  split; [vm_compute; reflexivity |].
  split; [vm_compute; reflexivity |].
  split; [vm_compute; reflexivity |].
  split; [vm_compute; reflexivity |].
  vm_compute. reflexivity.
Qed.
(** ** Sorting *)

Lemma insertPoint_Permutation (p : Point) (l : list Point) :
  Permutation (insertPoint p l) (p :: l).
Proof.
  induction l as [| q l IH]; cbn [insertPoint]; [reflexivity |].
  destruct (pointLess p q); [reflexivity |].
  rewrite IH. apply perm_swap.
Qed.

Lemma sortPoints_Permutation (l : list Point) : Permutation (sortPoints l) l.
Proof.
  induction l as [| p l IH]; [reflexivity |].
  unfold sortPoints. cbn [foldr]. fold (sortPoints l).
  rewrite insertPoint_Permutation. apply perm_skip, IH.
Qed.

Lemma sortPoints_length (l : list Point) : length (sortPoints l) = length l.
Proof. apply Permutation_length, sortPoints_Permutation. Qed.

Lemma sortPoints_In (p : Point) (l : list Point) :
  In p (sortPoints l) <-> In p l.
Proof.
  split; apply Permutation_in;
    [| symmetry]; apply sortPoints_Permutation.
Qed.

Lemma sortPoints_nil (l : list Point) : sortPoints l = [] <-> l = [].
Proof.
  split.
  - intros H. apply length_zero_iff_nil.
    rewrite <- sortPoints_length, H. reflexivity.
  - intros ->. reflexivity.
Qed.

Lemma pointLess_spec (a b : Point) :
  pointLess a b = true <->
  (x a < x b)%Z \/ (x a = x b /\ (y a < y b)%Z).
Proof.
  unfold pointLess.
  rewrite orb_true_iff, andb_true_iff, !Z.ltb_lt, Z.eqb_eq. reflexivity.
Qed.

Lemma pointLe_spec (a b : Point) :
  pointLe a b <-> (x a < x b)%Z \/ (x a = x b /\ (y a <= y b)%Z).
Proof.
  unfold pointLe. rewrite <- not_true_iff_false, pointLess_spec. lia.
Qed.

#[export] Instance pointLe_trans : Transitive pointLe.
Proof. intros a b c. rewrite !pointLe_spec. lia. Qed.

#[export] Instance pointLe_antisym : AntiSymm (=) pointLe.
Proof.
  intros [ax ay] [bx by_]. rewrite !pointLe_spec. cbn [x y].
  intros H1 H2. f_equal; lia.
Qed.

Lemma insertPoint_Sorted (p : Point) (l : list Point) :
  Sorted pointLe l -> Sorted pointLe (insertPoint p l).
Proof.
  induction l as [| q l IH]; intros Hs; cbn [insertPoint].
  - repeat constructor.
  - destruct (pointLess p q) eqn:Hpq.
    + constructor; [exact Hs |]. constructor.
      apply pointLe_spec. apply pointLess_spec in Hpq. lia.
    + apply Sorted_inv in Hs. destruct Hs as [Hs Hhd].
      constructor; [apply IH, Hs |].
      destruct l as [| r l]; cbn [insertPoint].
      * constructor. exact Hpq.
      * destruct (pointLess p r); constructor; [exact Hpq |].
        apply HdRel_inv in Hhd. exact Hhd.
Qed.

Lemma sortPoints_Sorted (l : list Point) : Sorted pointLe (sortPoints l).
Proof.
  induction l as [| p l IH]; [constructor |].
  unfold sortPoints. cbn [foldr]. apply insertPoint_Sorted, IH.
Qed.

(** Whatever algorithm [std::sort] runs, the vector it leaves is the one
    [sortPoints] gives: a sorted rearrangement of the points is unique. *)
Lemma sortPoints_unique (l sorted : list Point) :
  Permutation sorted l -> Sorted pointLe sorted -> sorted = sortPoints l.
Proof.
  intros Hperm Hsorted.
  apply (Sorted_unique pointLe); [exact Hsorted | apply sortPoints_Sorted |].
  rewrite Hperm. symmetry. apply sortPoints_Permutation.
Qed.

(** ** Starting a computation *)

Lemma setupInput_nonempty (pts : list Point) (qh : QuickHull) :
  pts <> [] -> exists s0, setupInput pts qh = Returns s0.
Proof.
  intros Hne.
  assert (0 < length (sortPoints pts)) as Hlen.
  { rewrite sortPoints_length. apply nonempty_length, Hne. }
  destruct (index_nonempty (sortPoints pts) 0 Hlen) as (minP & Hmin & _).
  destruct (index_nonempty (sortPoints pts) (length (sortPoints pts) - 1)
              ltac:(lia)) as (maxP & Hmax & _).
  unfold setupInput. rewrite Hmin, Hmax. cbn [bind].
  unfold prepareNextRecursion.
  cbn [load lookup list_lookup bind]. eexists. reflexivity.
Qed.

Lemma setupInput_empty (qh : QuickHull) :
  setupInput [] qh = Undefined IndexOutOfRange.
Proof. reflexivity. Qed.

(** C8 (as the code has it).  [randomizeInput] checks nothing: with no
    point it reads [basePointList[0]] of the empty vector (line 158), which
    is undefined behaviour, not an error raised; and no input makes it
    raise an error. *)
Theorem randomizeInput_no_check :
  (forall qh, randomizeInput [] qh = Undefined IndexOutOfRange) /\
  (forall rands qh, ~ explicitError (randomizeInput rands qh)).
Proof.
  split.
  - intros qh. apply setupInput_empty.
  - intros rands qh. unfold randomizeInput.
    destruct rands as [| r rands].
    + rewrite setupInput_empty. exact (fun H => H).
    + destruct (setupInput_nonempty (generatePoints (r :: rands)) qh
                  ltac:(discriminate)) as [s0 ->].
      exact (fun H => H).
Qed.

(** With no point the call does not end in an explicit error. *)
Lemma randomizeInput_empty_counterexample :
  ~ explicitError (randomizeInput [] newQuickHull) /\
  randomizeInput [] newQuickHull = Undefined IndexOutOfRange.
Proof. split; [exact (fun H => H) | reflexivity]. Qed.
(** ** The invariant of the store *)

Lemma validPtr_mono (h h' : list StepData) (o : option nat) :
  length h <= length h' -> validPtr h o -> validPtr h' o.
Proof. intros Hle (k & -> & Hk). exists k. split; [reflexivity | lia]. Qed.

(** A node stays well placed in a store that has grown and whose nodes
    kept their points. *)
Lemma nodeOk_mono (h h' : list StepData) (i : nat) (nd : StepData) :
  nodeOk h i nd ->
  length h <= length h' ->
  (forall p pn, h !! p = Some pn ->
     exists pn', h' !! p = Some pn' /\ pointSet pn' = pointSet pn) ->
  nodeOk h' i nd.
Proof.
  intros [Hpar Hroot Hexc Hends Hfirst Hsecond] Hlen Hkeep.
  constructor; try assumption.
  - intros p Hp. destruct (Hpar p Hp) as (Hlt & pn & Hpn & Hne & Hshrink).
    split; [exact Hlt |].
    destruct (Hkeep p pn Hpn) as (pn' & Hpn' & Hsame).
    exists pn'. rewrite Hsame. repeat apply conj; assumption.
  - intros H. destruct (Hfirst H) as [H1 H2].
    split; eapply validPtr_mono; eassumption.
  - intros H. eapply validPtr_mono; [eassumption | apply (Hsecond H)].
Qed.

Lemma heapOk_insert (h : list StepData) (c : nat) (nd nd' : StepData) :
  heapOk h -> h !! c = Some nd -> sameCore nd nd' ->
  (progress nd' = SDP_FirstIteration ->
     validPtr h (recursiveOne nd') /\ validPtr h (recursiveTwo nd')) ->
  (progress nd' = SDP_RecurseTwo -> validPtr h (recursiveTwo nd')) ->
  heapOk (<[c := nd']> h).
Proof.
  intros Hok Hc (Hpts & HsegA & HsegB & Hprev) Hfirst Hsecond.
  pose proof (lookup_lt_Some _ _ _ Hc) as Hlt.
  assert (forall p pn, h !! p = Some pn ->
            exists pn', <[c := nd']> h !! p = Some pn' /\
                        pointSet pn' = pointSet pn) as Hkeep.
  { intros p pn Hpn. destruct (decide (p = c)) as [-> | Hne].
    - exists nd'. rewrite list_lookup_insert_eq by exact Hlt.
      split; [reflexivity |]. congruence.
    - exists pn. rewrite list_lookup_insert_ne by congruence.
      split; [exact Hpn | reflexivity]. }
  intros i ndi Hi. destruct (decide (i = c)) as [-> | Hne].
  - rewrite list_lookup_insert_eq in Hi by exact Hlt.
    injection Hi as <-.
    apply (nodeOk_mono h); [| rewrite length_insert; lia | exact Hkeep].
    destruct (Hok c nd Hc) as [Hpar Hroot Hexc Hends _ _].
    constructor; rewrite ?Hpts, ?HsegA, ?HsegB, ?Hprev; assumption.
  - rewrite list_lookup_insert_ne in Hi by congruence.
    apply (nodeOk_mono h); [apply Hok, Hi | rewrite length_insert; lia
                           | exact Hkeep].
Qed.

Lemma heapOk_app (h news : list StepData) :
  heapOk h ->
  (forall j nd, news !! j = Some nd -> nodeOk (h ++ news) (length h + j) nd) ->
  heapOk (h ++ news).
Proof.
  intros Hok Hnews i nd Hi.
  destruct (decide (i < length h)) as [Hlt | Hge].
  - rewrite lookup_app_l in Hi by exact Hlt.
    apply (nodeOk_mono h); [apply Hok, Hi | rewrite length_app; lia |].
    intros p pn Hpn. exists pn.
    rewrite lookup_app_l by apply (lookup_lt_Some _ _ _ Hpn).
    split; [exact Hpn | reflexivity].
  - rewrite lookup_app_r in Hi by lia.
    replace i with (length h + (i - length h)) by lia.
    apply Hnews, Hi.
Qed.

(** ** The work left *)

Lemma callsFor_split (a b n : nat) :
  a < n -> b < n -> callsFor a + callsFor b + 1 < callsFor n.
Proof.
  intros Ha Hb. unfold callsFor.
  pose proof (Nat.pow_le_mono_r 2 (a + 2) (n + 1) ltac:(lia) ltac:(lia)) as HA.
  pose proof (Nat.pow_le_mono_r 2 (b + 2) (n + 1) ltac:(lia) ltac:(lia)) as HB.
  pose proof (Nat.pow_le_mono_r 2 2 (a + 2) ltac:(lia) ltac:(lia)) as Ha4.
  pose proof (Nat.pow_le_mono_r 2 2 (b + 2) ltac:(lia) ltac:(lia)) as Hb4.
  replace (n + 2) with (S (n + 1)) by lia. rewrite Nat.pow_succ_r'.
  change (2 ^ 2) with 4 in Ha4, Hb4.
  generalize dependent (2 ^ (a + 2)). intros A HA HA4.
  generalize dependent (2 ^ (b + 2)). intros B HB HB4.
  generalize dependent (2 ^ (n + 1)). intros N HB HA. lia.
Qed.

Lemma pending_insert (h : list StepData) (c : nat) (nd nd' : StepData) :
  h !! c = Some nd ->
  pending (<[c := nd']> h) + work nd = pending h + work nd'.
Proof.
  unfold pending. revert c.
  induction h as [| n0 h IH]; intros c Hc; [discriminate |].
  destruct c as [| c].
  - injection Hc as ->. simpl. lia.
  - simpl. specialize (IH c Hc). lia.
Qed.

Lemma pending_app (h news : list StepData) :
  pending (h ++ news) = pending h + pending news.
Proof. unfold pending. apply sum_list_with_app. Qed.
(** ** The invariant along a call *)

Lemma work_setRecursive (one two : option nat) (nd : StepData) :
  work (setRecursive one two nd) = work nd.
Proof. reflexivity. Qed.

Lemma sameCore_setRecursive (one two : option nat) (nd : StepData) :
  sameCore nd (setRecursive one two nd).
Proof. repeat apply conj; reflexivity. Qed.

Lemma sameCore_setProgress (pr : StepDataProgress) (nd : StepData) :
  sameCore nd (setProgress pr nd).
Proof. repeat apply conj; reflexivity. Qed.

(** The loop on a well-formed store: it ends within [fuel] turns, keeps the
    store well formed and the work left unchanged, and when it falls
    through the node under the cursor has points. *)
Lemma unwindDone_ok (fuel : nat) :
  forall (h : list StepData) (c : nat) (nd : StepData),
    heapOk h -> c < fuel -> h !! c = Some nd ->
    progress nd = SDP_Done \/ pointSet nd <> [] ->
    exists h' c' more nd',
      unwindDone fuel h (Some c) = Returns (h', Some c', more) /\
      heapOk h' /\ length h' = length h /\ pending h' = pending h /\
      h' !! c' = Some nd' /\
      (more = true -> progress nd' <> SDP_Done /\ pointSet nd' <> []).
Proof.
  induction fuel as [| fuel IH]; intros h c nd Hok Hfuel Hc Hstate; [lia |].
  rewrite (unwindDone_S _ _ _ _ Hc).
  pose proof (lookup_lt_Some _ _ _ Hc) as Hlt.
  destruct (isDone (progress nd)) eqn:Hdone.
  - apply isDone_true in Hdone.
    set (h1 := <[c := setRecursive None None nd]> h).
    assert (heapOk h1) as Hok1.
    { apply (heapOk_insert h c nd); try assumption.
      - apply sameCore_setRecursive.
      - cbn [setRecursive progress]. congruence.
      - cbn [setRecursive progress]. congruence. }
    assert (pending h1 = pending h) as Hpend.
    { pose proof (pending_insert h c nd (setRecursive None None nd) Hc) as H.
      rewrite work_setRecursive in H. fold h1 in H. lia. }
    assert (length h1 = length h) as Hlen by apply length_insert.
    destruct (prevStep nd) as [p |] eqn:Hprev.
    + destruct (ok_parent _ _ _ (Hok c nd Hc) p Hprev)
        as (Hpc & pn & Hpn & Hne & _).
      assert (h1 !! p = Some pn) as Hpn1.
      { unfold h1. rewrite list_lookup_insert_ne by lia. exact Hpn. }
      destruct (IH h1 p pn Hok1 ltac:(lia) Hpn1 (or_intror Hne))
        as (h' & c' & more & nd' & Hrun & Hok' & Hlen' & Hpend' & Hc' & Hmore).
      exists h', c', more, nd'.
      repeat apply conj; try assumption; congruence.
    + exists h1, c, false, (setRecursive None None nd).
      repeat apply conj; try assumption; try reflexivity; try discriminate.
      unfold h1. apply list_lookup_insert_eq. exact Hlt.
  - apply isDone_false in Hdone.
    exists h, c, true, nd.
    repeat apply conj; try assumption; try reflexivity.
    intros _. split; [exact Hdone |].
    destruct Hstate as [Hd | Hne]; [congruence | exact Hne].
Qed.

Lemma newStep_ok (h : list StepData) (c i : nat) (nd : StepData)
    (segA segB : Point) :
  h !! c = Some nd -> c < i ->
  In segA (pointSet nd) \/ In segB (pointSet nd) ->
  nodeOk h i (newStep (Some c) segA segB (pointSet nd)).
Proof.
  intros Hc Hlt Hin.
  constructor; cbn [newStep prevStep pointSet segmentA segmentB progress
                    recursiveOne recursiveTwo].
  - intros p [= <-]. split; [exact Hlt |]. exists nd.
    split; [exact Hc |]. split.
    + destruct Hin as [Hin | Hin]; intros Hnil; rewrite Hnil in Hin;
        destruct Hin.
    + rewrite sortPoints_length.
      apply calcPointsOnRightSide_shrinks. exact Hin.
  - split; [discriminate | lia].
  - intros _ q Hq. apply sortPoints_In, calcPointsOnRightSide_In in Hq.
    tauto.
  - discriminate.
  - discriminate.
  - discriminate.
Qed.

(** A visit on a well-formed store: it returns, the store stays well
    formed, the cursor points to a node and less work is left. *)
Lemma visit_ok (h : list StepData) (c : nat) (nd : StepData) (s : QuickHull) :
  heapOk h -> h !! c = Some nd ->
  progress nd <> SDP_Done -> pointSet nd <> [] ->
  exists s',
    visit h (Some c) s = Returns s' /\
    wellFormed s' /\ pending (heap s') < pending h /\
    basePointList s' = basePointList s.
Proof.
  intros Hok Hc Hprog Hne.
  pose proof (lookup_lt_Some _ _ _ Hc) as Hlt.
  destruct (visit_Returns h c nd s Hc Hne)
    as (furthest & minP & maxP & Hfur & Hin & _ & _ & Hvisit).
  exists (visited h c nd furthest minP maxP s).
  split; [exact Hvisit |].
  pose proof (Hok c nd Hc) as Hnd.
  unfold visited, wellFormed.
  destruct (progress nd) eqn:Hpr; [| | congruence |];
    cbn [heap nextStep basePointList].
  - (* first visit: the two children are built *)
    set (left := newStep (Some c) (segmentA nd) furthest (pointSet nd)).
    set (right := newStep (Some c) furthest (segmentB nd) (pointSet nd)).
    set (nd2 := setProgress SDP_RecurseTwo
                  (setRecursive (Some (S (length h))) (Some (length h)) nd)).
    rewrite <- insert_app_l by exact Hlt.
    assert ((h ++ [left; right]) !! c = Some nd) as Hc2.
    { rewrite lookup_app_l by exact Hlt. exact Hc. }
    assert (heapOk (h ++ [left; right])) as Hok2.
    { apply heapOk_app; [exact Hok |].
      intros j ndj Hj.
      destruct j as [| [| j]]; [| | discriminate]; injection Hj as <-.
      - apply newStep_ok; [exact Hc2 | lia | right; exact Hin].
      - apply newStep_ok; [exact Hc2 | lia | left; exact Hin]. }
    assert (length (h ++ [left; right]) = S (S (length h))) as Hlen2.
    { rewrite length_app. cbn [length]. lia. }
    split; [split |]; [| | split; [| reflexivity]].
    + exists (S (length h)). split; [reflexivity |].
      rewrite length_insert, Hlen2. lia.
    + apply (heapOk_insert _ c nd); try assumption.
      * repeat apply conj; reflexivity.
      * discriminate.
      * intros _. exists (length h). split; [reflexivity |].
        rewrite Hlen2. lia.
    + pose proof (pending_insert _ c nd nd2 Hc2) as Hins.
      rewrite pending_app in Hins.
      assert (work nd = callsFor (length (pointSet nd))) as Hwork.
      { unfold work. rewrite Hpr. reflexivity. }
      assert (work nd2 = 1) as Hwork2 by reflexivity.
      assert (pending [left; right]
              = callsFor (length (pointSet left))
                + callsFor (length (pointSet right))) as Hnew.
      { unfold pending. cbn [sum_list_with]. unfold work.
        cbn [left right newStep progress pointSet]. lia. }
      assert (length (pointSet left) < length (pointSet nd)) as Hl.
      { cbn [left newStep pointSet]. rewrite sortPoints_length.
        apply calcPointsOnRightSide_shrinks. right. exact Hin. }
      assert (length (pointSet right) < length (pointSet nd)) as Hr.
      { cbn [right newStep pointSet]. rewrite sortPoints_length.
        apply calcPointsOnRightSide_shrinks. left. exact Hin. }
      pose proof (callsFor_split _ _ _ Hl Hr) as Hsplit.
      fold nd2. lia.
  - (* second visit *)
    destruct (ok_second _ _ _ Hnd Hpr) as (k & Hk & Hklt).
    split; [split |]; [| | split; [| reflexivity]].
    + exists k. rewrite length_insert. split; assumption.
    + apply (heapOk_insert _ c nd); try assumption.
      * apply sameCore_setProgress.
      * discriminate.
      * discriminate.
    + pose proof (pending_insert h c nd (setProgress SDP_Done nd) Hc) as Hins.
      assert (work nd = 1) as Hwork by (unfold work; rewrite Hpr; reflexivity).
      assert (work (setProgress SDP_Done nd) = 0) as Hwork2 by reflexivity.
      lia.
  - (* the root, first call *)
    destruct (ok_first _ _ _ Hnd Hpr) as [(k & Hk & Hklt) Htwo].
    split; [split |]; [| | split; [| reflexivity]].
    + exists k. rewrite length_insert. split; assumption.
    + apply (heapOk_insert _ c nd); try assumption.
      * apply sameCore_setProgress.
      * discriminate.
      * intros _. exact Htwo.
    + pose proof (pending_insert h c nd (setProgress SDP_RecurseTwo nd) Hc)
        as Hins.
      assert (work nd = 2) as Hwork by (unfold work; rewrite Hpr; reflexivity).
      assert (work (setProgress SDP_RecurseTwo nd) = 1) as Hwork2
        by reflexivity.
      lia.
Qed.

Lemma markEmptyDone_ok (h : list StepData) (c : nat) (nd : StepData) :
  heapOk h -> h !! c = Some nd ->
  exists h1 nd1,
    markEmptyDone h (Some c) = Returns h1 /\
    heapOk h1 /\ length h1 = length h /\ pending h1 <= pending h /\
    h1 !! c = Some nd1 /\
    (progress nd1 = SDP_Done \/ pointSet nd1 <> []).
Proof.
  intros Hok Hc. pose proof (lookup_lt_Some _ _ _ Hc) as Hlt.
  unfold markEmptyDone. rewrite (load_lookup _ _ _ Hc). cbn [bind].
  destruct (pointSet nd) as [| p0 pts'] eqn:Hpts.
  - exists (<[c := setProgress SDP_Done nd]> h), (setProgress SDP_Done nd).
    split; [reflexivity |]. split.
    { apply (heapOk_insert h c nd); try assumption.
      - apply sameCore_setProgress.
      - discriminate.
      - discriminate. }
    split; [apply length_insert |]. split.
    { pose proof (pending_insert h c nd (setProgress SDP_Done nd) Hc) as H.
      assert (work (setProgress SDP_Done nd) = 0) as H0 by reflexivity.
      lia. }
    split; [apply list_lookup_insert_eq; exact Hlt |].
    left. reflexivity.
  - exists h, nd. repeat apply conj; try assumption; try reflexivity.
    right. rewrite Hpts. discriminate.
Qed.

(** Every call on a well-formed state returns, in a well-formed state; a
    call that returns [true] has left less work. *)
Lemma step_ok (s : QuickHull) :
  wellFormed s ->
  exists more s',
    step s = Returns (more, s') /\ wellFormed s' /\
    (more = true -> pending (heap s') < pending (heap s)) /\
    basePointList s' = basePointList s.
Proof.
  intros [(c & Hcur & Hclt) Hok].
  destruct (lookup_lt_is_Some_2 _ _ Hclt) as [nd Hc].
  destruct (markEmptyDone_ok _ c nd Hok Hc)
    as (h1 & nd1 & Hmark & Hok1 & Hlen1 & Hpend1 & Hc1 & Hstate).
  destruct (unwindDone_ok (length h1) h1 c nd1 Hok1 ltac:(lia) Hc1 Hstate)
    as (h2 & c2 & more & nd2 & Hrun & Hok2 & Hlen2 & Hpend2 & Hc2 & Hmore).
  rewrite <- Hcur in Hmark, Hrun.
  rewrite (step_after_unwind s h1 h2 _ _ Hmark Hrun).
  destruct more.
  - destruct (Hmore eq_refl) as [Hprog Hne].
    destruct (visit_ok h2 c2 nd2 s Hok2 Hc2 Hprog Hne)
      as (s' & Hvisit & Hwf & Hless & Hbase).
    exists true, s'. rewrite Hvisit. cbn [bind].
    split; [reflexivity |]. split; [exact Hwf |].
    split; [intros _; lia | exact Hbase].
  - eexists false, _. split; [reflexivity |].
    split; [| split; [discriminate | reflexivity]].
    split; cbn [heap nextStep]; [| exact Hok2].
    exists c2. split; [reflexivity |]. apply (lookup_lt_Some _ _ _ Hc2).
Qed.

Lemma stepN_ok (n : nat) :
  forall s, wellFormed s ->
    exists s', stepN n s = Returns s' /\ wellFormed s' /\
               basePointList s' = basePointList s.
Proof.
  induction n as [| n IH]; intros s Hwf.
  - exists s. split; [reflexivity |]. split; [exact Hwf | reflexivity].
  - destruct (step_ok s Hwf) as (more & s1 & Hstep & Hwf1 & _ & Hbase1).
    destruct (IH s1 Hwf1) as (s' & Hrun & Hwf' & Hbase').
    exists s'. cbn [stepN]. rewrite Hstep. cbn [bind].
    split; [exact Hrun |]. split; [exact Hwf' | congruence].
Qed.

(** The loop of [main] ends: within [fuel] calls when the work left is less
    than [fuel]. *)
Lemma runSteps_ok (fuel : nat) :
  forall s, wellFormed s -> pending (heap s) < fuel ->
    exists n sf,
      runSteps fuel s = Returns (n, sf) /\ 1 <= n <= fuel /\
      wellFormed sf /\ step sf = Returns (false, sf).
Proof.
  induction fuel as [| fuel IH]; intros s Hwf Hfuel; [lia |].
  destruct (step_ok s Hwf) as (more & s1 & Hstep & Hwf1 & Hless & _).
  cbn [runSteps]. rewrite Hstep. cbn [bind].
  destruct more.
  - specialize (Hless eq_refl).
    destruct (IH s1 Hwf1 ltac:(lia)) as (n & sf & Hrun & Hn & Hwff & Hfix).
    exists (S n), sf. rewrite Hrun. cbn [bind].
    split; [reflexivity |]. split; [lia |].
    split; [exact Hwff | exact Hfix].
  - exists 1, s1.
    split; [reflexivity |]. split; [lia |]. split; [exact Hwf1 |].
    apply (step_false_again s s1 Hstep).
Qed.

(** ** The state [randomizeInput] leaves *)

Lemma index_In (pts : list Point) (i : nat) (p : Point) :
  index pts i = Returns p -> In p pts.
Proof.
  unfold index. destruct (pts !! i) as [q |] eqn:Hq; [| discriminate].
  intros [= <-]. apply list_elem_of_In.
  apply (list_elem_of_lookup_2 _ _ _ Hq).
Qed.

Lemma setupInput_ok (pts : list Point) (qh s0 : QuickHull) :
  setupInput pts qh = Returns s0 ->
  wellFormed s0 /\ basePointList s0 = sortPoints pts /\ pts <> [].
Proof.
  intros Hsetup.
  assert (pts <> []) as Hne.
  { intros ->. rewrite setupInput_empty in Hsetup. discriminate. }
  destruct (setupInput_Returns pts qh s0 Hsetup)
    as (minP & maxP & Hmin & Hmax & ->).
  apply index_In in Hmin, Hmax.
  split; [| split; [reflexivity | exact Hne]].
  set (root := mkStepData (sortPoints pts) minP maxP SDP_FirstIteration
                          (Some 2) (Some 1) None).
  split; cbn [heap nextStep].
  - exists 0. split; [reflexivity | cbn [length]; lia].
  - intros i nd Hi.
    destruct i as [| [| [| i]]]; [| | | discriminate]; injection Hi as <-.
    + constructor; cbn [root prevStep pointSet segmentA segmentB progress
                        recursiveOne recursiveTwo].
      * discriminate.
      * tauto.
      * congruence.
      * intros _. split; assumption.
      * intros _. split; eexists; (split; [reflexivity | cbn [length]; lia]).
      * discriminate.
    + apply (newStep_ok _ 0 1 root); [reflexivity | lia | left; exact Hmin].
    + apply (newStep_ok _ 0 2 root); [reflexivity | lia | right; exact Hmin].
Qed.
(** ** Nodes are never rebuilt *)

Lemma sameCore_refl (nd : StepData) : sameCore nd nd.
Proof. repeat apply conj; reflexivity. Qed.

Lemma sameCore_trans (n1 n2 n3 : StepData) :
  sameCore n1 n2 -> sameCore n2 n3 -> sameCore n1 n3.
Proof.
  intros (H1 & H2 & H3 & H4) (K1 & K2 & K3 & K4).
  repeat apply conj; congruence.
Qed.

Lemma extends_refl (h : list StepData) : extends h h.
Proof. intros i nd Hi. exists nd. split; [exact Hi | apply sameCore_refl]. Qed.

Lemma extends_trans (h1 h2 h3 : list StepData) :
  extends h1 h2 -> extends h2 h3 -> extends h1 h3.
Proof.
  intros H12 H23 i nd Hi.
  destruct (H12 i nd Hi) as (nd2 & Hi2 & Hs2).
  destruct (H23 i nd2 Hi2) as (nd3 & Hi3 & Hs3).
  exists nd3. split; [exact Hi3 | apply (sameCore_trans _ _ _ Hs2 Hs3)].
Qed.

Lemma extends_insert (h : list StepData) (c : nat) (nd nd' : StepData) :
  h !! c = Some nd -> sameCore nd nd' -> extends h (<[c := nd']> h).
Proof.
  intros Hc Hsame i ndi Hi.
  pose proof (lookup_lt_Some _ _ _ Hc) as Hlt.
  destruct (decide (i = c)) as [-> | Hne].
  - exists nd'. rewrite list_lookup_insert_eq by exact Hlt.
    split; [reflexivity |]. congruence.
  - exists ndi. rewrite list_lookup_insert_ne by congruence.
    split; [exact Hi | apply sameCore_refl].
Qed.

Lemma extends_app (h news : list StepData) : extends h (h ++ news).
Proof.
  intros i nd Hi. exists nd.
  rewrite lookup_app_l by apply (lookup_lt_Some _ _ _ Hi).
  split; [exact Hi | apply sameCore_refl].
Qed.

Lemma markEmptyDone_extends (h h1 : list StepData) (cur : option nat) :
  markEmptyDone h cur = Returns h1 -> extends h h1.
Proof.
  unfold markEmptyDone.
  destruct (load h cur) as [nd | | |] eqn:Hload; try discriminate.
  apply load_Returns in Hload. destruct Hload as (c & -> & Hc).
  cbn [bind]. destruct (pointSet nd); intros [= <-].
  - apply (extends_insert h c nd _ Hc), sameCore_setProgress.
  - apply extends_refl.
Qed.

Lemma unwindDone_extends (fuel : nat) :
  forall (h : list StepData) (cur : option nat)
         (h' : list StepData) (cur' : option nat) (more : bool),
    unwindDone fuel h cur = Returns (h', cur', more) -> extends h h'.
Proof.
  induction fuel as [| fuel IH]; intros h cur h' cur' more Hrun;
    [discriminate |].
  cbn [unwindDone] in Hrun.
  destruct (load h cur) as [nd | | |] eqn:Hload; try discriminate.
  apply load_Returns in Hload. destruct Hload as (c & -> & Hc).
  cbn [bind] in Hrun.
  pose proof (extends_insert h c nd (setRecursive None None nd) Hc
                (sameCore_setRecursive None None nd)) as Hext.
  destruct (isDone (progress nd)).
  - destruct (prevStep nd) as [p |].
    + apply (extends_trans _ _ _ Hext). apply (IH _ _ _ _ _ Hrun).
    + injection Hrun as <- <- <-. exact Hext.
  - injection Hrun as <- <- <-. apply extends_refl.
Qed.

Lemma index_Returns_nonempty (pts : list Point) (i : nat) (p : Point) :
  index pts i = Returns p -> pts <> [].
Proof. intros H ->. discriminate H. Qed.

Lemma visit_extends (h : list StepData) (cur : option nat)
    (s s' : QuickHull) :
  visit h cur s = Returns s' ->
  extends h (heap s') /\ basePointList s' = basePointList s.
Proof.
  intros Hvisit.
  assert (exists c nd, cur = Some c /\ h !! c = Some nd /\ pointSet nd <> [])
    as (c & nd & -> & Hc & Hne).
  { unfold visit in Hvisit.
    destruct (load h cur) as [nd | | |] eqn:Hload; try discriminate.
    apply load_Returns in Hload. destruct Hload as (c & -> & Hc).
    cbn [bind] in Hvisit.
    destruct (index (pointSet nd) 0) as [minP | | |] eqn:Hmin;
      try discriminate.
    exists c, nd. split; [reflexivity |]. split; [exact Hc |].
    apply (index_Returns_nonempty _ _ _ Hmin). }
  pose proof (lookup_lt_Some _ _ _ Hc) as Hlt.
  destruct (visit_Returns h c nd s Hc Hne)
    as (furthest & minP & maxP & _ & _ & _ & _ & Hret).
  rewrite Hret in Hvisit. injection Hvisit as <-.
  unfold visited. destruct (progress nd); cbn [heap basePointList];
    (split; [| reflexivity]).
  - apply (extends_trans _ (<[c := setProgress SDP_RecurseTwo
        (setRecursive (Some (S (length h))) (Some (length h)) nd)]> h));
      [| apply extends_app].
    apply (extends_insert h c nd _ Hc). repeat apply conj; reflexivity.
  - apply (extends_insert h c nd _ Hc), sameCore_setProgress.
  - apply extends_refl.
  - apply (extends_insert h c nd _ Hc), sameCore_setProgress.
Qed.

(** A call keeps every node there is, its points and its segment; it only
    changes [progress] and the links to the children, and adds nodes. *)
Lemma step_extends (s s' : QuickHull) (more : bool) :
  step s = Returns (more, s') ->
  extends (heap s) (heap s') /\ basePointList s' = basePointList s.
Proof.
  intros Hstep. unfold step in Hstep.
  destruct (markEmptyDone (heap s) (nextStep s)) as [h1 | | |] eqn:Hmark;
    try discriminate.
  cbn [bind] in Hstep.
  destruct (unwindDone (length h1) h1 (nextStep s))
    as [[[h2 cur] b] | | |] eqn:Hunwind; try discriminate.
  cbn [bind] in Hstep.
  pose proof (extends_trans _ _ _ (markEmptyDone_extends _ _ _ Hmark)
                (unwindDone_extends _ _ _ _ _ _ Hunwind)) as Hext.
  destruct b.
  - destruct (visit h2 cur s) as [s1 | | |] eqn:Hvisit; try discriminate.
    injection Hstep as <- <-.
    destruct (visit_extends _ _ _ _ Hvisit) as [Hext' Hbase].
    split; [apply (extends_trans _ _ _ Hext Hext') | exact Hbase].
  - injection Hstep as <- <-. split; [exact Hext | reflexivity].
Qed.

Lemma stepN_extends (n : nat) :
  forall s s', stepN n s = Returns s' ->
    extends (heap s) (heap s') /\ basePointList s' = basePointList s.
Proof.
  induction n as [| n IH]; intros s s' Hrun.
  - injection Hrun as <-. split; [apply extends_refl | reflexivity].
  - cbn [stepN] in Hrun.
    destruct (step s) as [[more s1] | | |] eqn:Hstep; try discriminate.
    cbn [bind] in Hrun.
    destruct (step_extends _ _ _ Hstep) as [Hext1 Hbase1].
    destruct (IH _ _ Hrun) as [Hext2 Hbase2].
    split; [apply (extends_trans _ _ _ Hext1 Hext2) | congruence].
Qed.

(** ** The points of a node and the ends of its segment *)

(** C4 (as the code has it).  In every state of a computation, a node
    other than the root, that is a node [prepareNextRecursion] built,
    holds no point equal to an end of its segment.  The root, which
    [randomizeInput] fills with the whole sorted input, holds both ends of
    its segment. *)
Theorem children_hold_no_segment_end
    (pts : list Point) (qh s0 : QuickHull) (n : nat) (s : QuickHull) :
  setupInput pts qh = Returns s0 ->
  stepN n s0 = Returns s ->
  (forall i nd, heap s !! i = Some nd -> i <> 0 ->
     prevStep nd <> None /\
     forall q, In q (pointSet nd) ->
       comparePoints q (segmentA nd) = false /\
       comparePoints q (segmentB nd) = false) /\
  (exists root,
     heap s !! 0 = Some root /\ prevStep root = None /\
     pointSet root = sortPoints pts /\ pointSet root = basePointList s /\
     In (segmentA root) (pointSet root) /\
     In (segmentB root) (pointSet root)).
Proof.
  intros Hsetup Hrun.
  destruct (setupInput_ok pts qh s0 Hsetup) as (Hwf0 & Hbase0 & _).
  destruct (stepN_ok n s0 Hwf0) as (s1 & Hrun1 & [_ Hok] & _).
  rewrite Hrun in Hrun1. injection Hrun1 as <-.
  destruct (stepN_extends n s0 s Hrun) as [Hext Hbase].
  split.
  - intros i nd Hi Hne.
    destruct (Hok i nd Hi) as [_ Hroot Hexc _ _ _].
    assert (prevStep nd <> None) as Hprev by tauto.
    split; [exact Hprev |].
    intros q Hq. rewrite !comparePoints_neq. apply (Hexc Hprev q Hq).
  - destruct (setupInput_Returns pts qh s0 Hsetup)
      as (minP & maxP & _ & _ & Hs0).
    destruct (Hext 0 (mkStepData (sortPoints pts) minP maxP
                        SDP_FirstIteration (Some 2) (Some 1) None))
      as (root & Hroot & Hpts & _ & _ & Hprev).
    { rewrite Hs0. reflexivity. }
    cbn [pointSet prevStep] in Hpts, Hprev.
    destruct (Hok 0 root Hroot) as [_ _ _ Hends _ _].
    exists root. split; [exact Hroot |]. split; [exact Hprev |].
    split; [exact Hpts |]. split; [congruence |].
    apply (Hends Hprev).
Qed.

Lemma children_hold_no_segment_end_witness :
  exists nd,
    heap (squareState 3) !! 2 = Some nd /\
    prevStep nd <> None /\
    forall q, In q (pointSet nd) ->
      comparePoints q (segmentA nd) = false /\
      comparePoints q (segmentB nd) = false.
Proof.
  exists (mkStepData [mkPoint 0 10] (mkPoint 10 10) (mkPoint 0 0)
                     SDP_Done (Some 4) (Some 3) (Some 0)).
  split; [vm_compute; reflexivity |].
  apply (proj1 (children_hold_no_segment_end squareInput newQuickHull
                  (squareState 0) 3 (squareState 3)
                  ltac:(vm_compute; reflexivity)
                  ltac:(vm_compute; reflexivity)) 2).
  - vm_compute. reflexivity.
  - discriminate.
Defined.

(** The root [randomizeInput] builds for the square: its points include
    (0,0), the first end of its segment. *)
Lemma root_holds_segment_end_counterexample :
  exists s0 nd q,
    setupInput squareInput newQuickHull = Returns s0 /\
    heap s0 !! 0 = Some nd /\
    In q (pointSet nd) /\ comparePoints q (segmentA nd) = true.
Proof.
  eexists _, _, (mkPoint 0 0).
  split; [vm_compute; reflexivity |].
  split; [vm_compute; reflexivity |].
  split; [left; reflexivity | vm_compute; reflexivity].
Qed.

(** ** Termination *)

(** What the result of the loop of [main] says: the call that returned
    [false] was call number [n], and every call before it returned [true]. *)
Lemma runSteps_calls (fuel : nat) :
  forall (s : QuickHull) (n : nat) (sf : QuickHull),
    runSteps fuel s = Returns (n, sf) ->
    1 <= n /\
    (exists sl, stepN (n - 1) s = Returns sl /\
                step sl = Returns (false, sf)) /\
    (forall k, k < n - 1 ->
       exists sk sk', stepN k s = Returns sk /\
                      step sk = Returns (true, sk')).
Proof.
  induction fuel as [| fuel IH]; intros s n sf Hrun; [discriminate |].
  cbn [runSteps] in Hrun.
  destruct (step s) as [[more s1] | | |] eqn:Hstep; try discriminate.
  cbn [bind] in Hrun. destruct more.
  - destruct (runSteps fuel s1) as [[n' sf'] | | |] eqn:Hrest;
      try discriminate.
    cbn [bind] in Hrun. injection Hrun as <- <-.
    destruct (IH s1 n' sf' Hrest) as (Hn' & (sl & Hsl & Hlast) & Hbefore).
    split; [lia |]. split.
    + exists sl. split; [| exact Hlast].
      replace (S n' - 1) with (S (n' - 1)) by lia.
      cbn [stepN]. rewrite Hstep. cbn [bind]. exact Hsl.
    + intros k Hk. destruct k as [| k].
      * exists s, s1. split; [reflexivity | exact Hstep].
      * destruct (Hbefore k ltac:(lia)) as (sk & sk' & Hsk & Hcall).
        exists sk, sk'. split; [| exact Hcall].
        cbn [stepN]. rewrite Hstep. cbn [bind]. exact Hsk.
  - injection Hrun as <- <-. split; [lia |]. split.
    + exists s. split; [reflexivity | exact Hstep].
    + intros k Hk. cbn in Hk. lia.
Qed.

(** C7.  From the state [randomizeInput] leaves for an input with two
    distinct points or more, the calls of [step] end: call number [n], [n]
    at most one more than the bound [pending] gives, returns [false], every
    call before it having returned [true]; this is where the loop of
    [main] stops.  Along the way every node has fewer points than the node
    it comes from. *)
Theorem step_terminates (pts : list Point) (qh : QuickHull) :
  (exists p q, In p pts /\ In q pts /\ p <> q) ->
  exists s0 n sf,
    setupInput pts qh = Returns s0 /\
    runSteps (S (pending (heap s0))) s0 = Returns (n, sf) /\
    1 <= n <= S (pending (heap s0)) /\
    (exists sl, stepN (n - 1) s0 = Returns sl /\
                step sl = Returns (false, sf)) /\
    (forall k, k < n - 1 ->
       exists sk sk', stepN k s0 = Returns sk /\
                      step sk = Returns (true, sk')) /\
    step sf = Returns (false, sf) /\
    forall k s, stepN k s0 = Returns s ->
      forall i nd p pn,
        heap s !! i = Some nd -> prevStep nd = Some p ->
        heap s !! p = Some pn ->
        length (pointSet nd) < length (pointSet pn).
Proof.
  intros (p & q & Hp & _).
  assert (pts <> []) as Hne by (intros ->; destruct Hp).
  destruct (setupInput_nonempty pts qh Hne) as [s0 Hsetup].
  destruct (setupInput_ok pts qh s0 Hsetup) as (Hwf0 & _ & _).
  destruct (runSteps_ok (S (pending (heap s0))) s0 Hwf0 ltac:(lia))
    as (n & sf & Hrun & Hn & _ & Hfix).
  destruct (runSteps_calls _ _ _ _ Hrun) as (_ & Hlast & Hbefore).
  exists s0, n, sf.
  split; [exact Hsetup |]. split; [exact Hrun |]. split; [exact Hn |].
  split; [exact Hlast |]. split; [exact Hbefore |].
  split; [exact Hfix |].
  intros k s Hk i nd p' pn Hi Hprev Hpn.
  destruct (stepN_ok k s0 Hwf0) as (s1 & Hk1 & [_ Hok] & _).
  rewrite Hk in Hk1. injection Hk1 as <-.
  destruct (ok_parent _ _ _ (Hok i nd Hi) p' Hprev)
    as (_ & pn' & Hpn' & _ & Hshrink).
  rewrite Hpn in Hpn'. injection Hpn' as <-. exact Hshrink.
Qed.

Lemma step_terminates_witness :
  exists s0 n sf,
    setupInput squareInput newQuickHull = Returns s0 /\
    runSteps (S (pending (heap s0))) s0 = Returns (n, sf) /\
    1 <= n <= S (pending (heap s0)) /\
    (exists sl, stepN (n - 1) s0 = Returns sl /\
                step sl = Returns (false, sf)) /\
    step sf = Returns (false, sf).
Proof.
  destruct (step_terminates squareInput newQuickHull)
    as (s0 & n & sf & Hsetup & Hrun & Hn & Hlast & _ & Hfix & _).
  - exists (mkPoint 0 0), (mkPoint 10 0).
    split; [left; reflexivity |].
    split; [right; left; reflexivity | discriminate].
  - exists s0, n, sf.
    exact (conj Hsetup (conj Hrun (conj Hn (conj Hlast Hfix)))).
Defined.

Example runSteps_square :
  runSteps 7 (squareState 0) = Returns (7, squareState 7) /\
  hullPoints (squareState 7)
  = [mkPoint 0 0; mkPoint 10 10; mkPoint 0 10; mkPoint 10 0].
Proof. split; vm_compute; reflexivity. Qed.

(** ** The three moves of a call *)

Lemma atCursor_same (s : QuickHull) : atCursor (heap s) (nextStep s) s = s.
Proof. destruct s; reflexivity. Qed.

Lemma wellFormed_mark (s : QuickHull) (c : nat) (nd : StepData) :
  wellFormed s -> heap s !! c = Some nd ->
  wellFormed (atCursor (<[c := setProgress SDP_Done nd]> (heap s)) (Some c) s).
Proof.
  intros [_ Hok] Hc. split; cbn [atCursor heap nextStep].
  - exists c. split; [reflexivity |]. rewrite length_insert.
    apply (lookup_lt_Some _ _ _ Hc).
  - apply (heapOk_insert _ c nd); try assumption.
    + apply sameCore_setProgress.
    + discriminate.
    + discriminate.
Qed.

Lemma wellFormed_pop (s : QuickHull) (c : nat) (nd : StepData) :
  wellFormed s -> heap s !! c = Some nd -> progress nd = SDP_Done ->
  wellFormed (atCursor (<[c := setRecursive None None nd]> (heap s))
                (match prevStep nd with Some p => Some p | None => Some c end)
                s).
Proof.
  intros [_ Hok] Hc Hdone.
  pose proof (lookup_lt_Some _ _ _ Hc) as Hlt.
  split; cbn [atCursor heap nextStep].
  - destruct (prevStep nd) as [p |] eqn:Hprev.
    + destruct (ok_parent _ _ _ (Hok c nd Hc) p Hprev) as (Hpc & _).
      exists p. split; [reflexivity | rewrite length_insert; lia].
    + exists c. split; [reflexivity | rewrite length_insert; exact Hlt].
  - apply (heapOk_insert _ c nd); try assumption.
    + apply sameCore_setRecursive.
    + cbn [setRecursive progress]. congruence.
    + cbn [setRecursive progress]. congruence.
Qed.

Lemma kept_conj (A I : QuickHull -> Prop) :
  kept A -> keptByMoves A I -> kept (fun s => A s /\ I s).
Proof.
  intros (Am & Ap & Av) (Im & Ip & Iv). split; [| split].
  - intros s c nd Hwf _ [HA HI] Hcur Hc Hempty. split.
    + apply (Am s c nd Hwf Logic.I HA Hcur Hc Hempty).
    + apply (Im s c nd Hwf HA HI Hcur Hc Hempty).
  - intros s c nd Hwf _ [HA HI] Hcur Hc Hdone. split.
    + apply (Ap s c nd Hwf Logic.I HA Hcur Hc Hdone).
    + apply (Ip s c nd Hwf HA HI Hcur Hc Hdone).
  - intros s c nd furthest minP maxP Hwf _ [HA HI] Hcur Hc Hne Hprog
           Hfur Hmin Hmax. split.
    + apply (Av s c nd furthest minP maxP Hwf Logic.I HA Hcur Hc Hne Hprog
               Hfur Hmin Hmax).
    + apply (Iv s c nd furthest minP maxP Hwf HA HI Hcur Hc Hne Hprog
               Hfur Hmin Hmax).
Qed.

(** The loop, move by move. *)
Lemma unwindDone_ind (I : QuickHull -> Prop) (fuel : nat) :
  kept I ->
  forall (s : QuickHull) (h2 : list StepData) (cur2 : option nat)
         (more : bool),
    wellFormed s -> I s ->
    (forall c nd, nextStep s = Some c -> heap s !! c = Some nd ->
       progress nd = SDP_Done \/ pointSet nd <> []) ->
    unwindDone fuel (heap s) (nextStep s) = Returns (h2, cur2, more) ->
    wellFormed (atCursor h2 cur2 s) /\ I (atCursor h2 cur2 s) /\
    (more = true ->
     exists c nd, cur2 = Some c /\ h2 !! c = Some nd /\
                  progress nd <> SDP_Done /\ pointSet nd <> []).
Proof.
  intros (_ & I_pop & _).
  induction fuel as [| fuel IH]; intros s h2 cur2 more Hwf HI Hstate Hrun;
    [discriminate |].
  destruct Hwf as [(c & Hcur & Hclt) Hok].
  destruct (lookup_lt_is_Some_2 _ _ Hclt) as [nd Hc].
  rewrite Hcur, (unwindDone_S _ _ _ _ Hc) in Hrun.
  assert (wellFormed s) as Hwf.
  { split; [exists c; split; assumption | exact Hok]. }
  destruct (isDone (progress nd)) eqn:Hdone.
  - apply isDone_true in Hdone.
    pose proof (wellFormed_pop s c nd Hwf Hc Hdone) as Hwf1.
    pose proof (I_pop s c nd Hwf Logic.I HI Hcur Hc Hdone) as HI1.
    destruct (prevStep nd) as [p |] eqn:Hprev.
    + set (s1 := atCursor (<[c := setRecursive None None nd]> (heap s))
                   (Some p) s) in *.
      apply (IH s1 h2 cur2 more Hwf1 HI1); [| exact Hrun].
      intros c1 nd1 Hcur1 Hc1. cbn [s1 atCursor nextStep heap] in Hcur1, Hc1.
      injection Hcur1 as <-.
      destruct (ok_parent _ _ _ (Hok c nd Hc) p Hprev)
        as (Hpc & pn & Hpn & Hne & _).
      rewrite list_lookup_insert_ne in Hc1 by lia.
      rewrite Hpn in Hc1. injection Hc1 as <-. right. exact Hne.
    + injection Hrun as <- <- <-.
      split; [exact Hwf1 |]. split; [exact HI1 | discriminate].
  - injection Hrun as <- <- <-. rewrite <- Hcur, atCursor_same.
    split; [exact Hwf |]. split; [exact HI |].
    intros _. exists c, nd. apply isDone_false in Hdone.
    split; [exact Hcur |]. split; [exact Hc |]. split; [exact Hdone |].
    destruct (Hstate c nd Hcur Hc) as [Hd | Hne]; [congruence | exact Hne].
Qed.

(** What holds before a call and is kept by each of its moves holds
    after the call. *)
Lemma step_ind (I : QuickHull -> Prop) :
  kept I ->
  forall (s : QuickHull) (more : bool) (s' : QuickHull),
    wellFormed s -> I s -> step s = Returns (more, s') -> I s'.
Proof.
  intros Hkept s more s' Hwf HI Hstep.
  pose proof Hkept as (I_mark & _ & I_visit).
  destruct Hwf as [(c & Hcur & Hclt) Hok].
  destruct (lookup_lt_is_Some_2 _ _ Hclt) as [nd Hc].
  assert (wellFormed s) as Hwf.
  { split; [exists c; split; assumption | exact Hok]. }
  (* the marking *)
  assert (exists s1,
            markEmptyDone (heap s) (nextStep s) = Returns (heap s1) /\
            s1 = atCursor (heap s1) (nextStep s) s /\
            wellFormed s1 /\ I s1 /\
            (forall c1 nd1, nextStep s1 = Some c1 ->
               heap s1 !! c1 = Some nd1 ->
               progress nd1 = SDP_Done \/ pointSet nd1 <> []))
    as (s1 & Hmark & Hs1 & Hwf1 & HI1 & Hstate).
  { unfold markEmptyDone. rewrite Hcur, (load_lookup _ _ _ Hc).
    cbn [bind]. destruct (pointSet nd) as [| p0 pts'] eqn:Hpts.
    - exists (atCursor (<[c := setProgress SDP_Done nd]> (heap s))
                (Some c) s).
      split; [reflexivity |]. split; [reflexivity |].
      split; [apply (wellFormed_mark s c nd Hwf Hc) |].
      split; [apply (I_mark s c nd Hwf Logic.I HI Hcur Hc Hpts) |].
      intros c1 nd1 [= <-] Hc1. cbn [atCursor heap] in Hc1.
      rewrite list_lookup_insert_eq in Hc1 by exact Hclt.
      injection Hc1 as <-. left. reflexivity.
    - exists s. rewrite <- Hcur, atCursor_same.
      split; [reflexivity |]. split; [reflexivity |].
      split; [exact Hwf |]. split; [exact HI |].
      intros c1 nd1 Hcur1 Hc1. rewrite Hcur in Hcur1.
      injection Hcur1 as <-. rewrite Hc in Hc1. injection Hc1 as <-.
      right. rewrite Hpts. discriminate. }
  unfold step in Hstep. rewrite Hmark in Hstep. cbn [bind] in Hstep.
  destruct (unwindDone (length (heap s1)) (heap s1) (nextStep s))
    as [[[h2 cur2] b] | | |] eqn:Hunwind; try discriminate.
  cbn [bind] in Hstep.
  assert (nextStep s1 = nextStep s) as Hcur1 by (rewrite Hs1; reflexivity).
  rewrite <- Hcur1 in Hunwind.
  destruct (unwindDone_ind I _ Hkept s1 h2 cur2 b Hwf1 HI1 Hstate Hunwind)
    as (Hwf2 & HI2 & Hmore).
  assert (atCursor h2 cur2 s1 = atCursor h2 cur2 s) as Heq.
  { rewrite Hs1. reflexivity. }
  rewrite Heq in Hwf2, HI2.
  destruct b.
  - destruct (visit h2 cur2 s) as [sv | | |] eqn:Hvisit; try discriminate.
    injection Hstep as <- <-.
    destruct (Hmore eq_refl) as (c2 & nd2 & -> & Hc2 & Hprog2 & Hne2).
    destruct (visit_Returns h2 c2 nd2 s Hc2 Hne2)
      as (furthest & minP & maxP & Hfur & _ & Hmin & Hmax & Hret).
    rewrite Hret in Hvisit. injection Hvisit as <-.
    apply (I_visit (atCursor h2 (Some c2) s) c2 nd2 furthest minP maxP
             Hwf2 Logic.I HI2 eq_refl Hc2 Hne2 Hprog2 Hfur Hmin Hmax).
  - injection Hstep as <- <-. exact HI2.
Qed.

(** What every call keeps holds along a run. *)
Lemma stepN_preserves (I : QuickHull -> Prop) :
  kept I ->
  forall n s s', wellFormed s -> I s -> stepN n s = Returns s' -> I s'.
Proof.
  intros Hkept. pose proof (step_ind I Hkept) as Hkeep. induction n as [| n IH]; intros s s' Hwf HI Hrun.
  - injection Hrun as <-. exact HI.
  - cbn [stepN] in Hrun.
    destruct (step s) as [[more s1] | | |] eqn:Hstep; try discriminate.
    cbn [bind] in Hrun.
    destruct (step_ok s Hwf) as (more' & s1' & Hstep' & Hwf1 & _).
    rewrite Hstep in Hstep'. injection Hstep' as <- <-.
    apply (IH s1 s' Hwf1 (Hkeep s more s1 Hwf HI Hstep) Hrun).
Qed.

Lemma runSteps_preserves (I : QuickHull -> Prop) :
  kept I ->
  forall fuel s n sf, wellFormed s -> I s ->
    runSteps fuel s = Returns (n, sf) -> I sf.
Proof.
  intros Hkept. pose proof (step_ind I Hkept) as Hkeep.
  induction fuel as [| fuel IH]; intros s n sf Hwf HI Hrun; [discriminate |].
  cbn [runSteps] in Hrun.
  destruct (step s) as [[more s1] | | |] eqn:Hstep; try discriminate.
  cbn [bind] in Hrun.
  destruct (step_ok s Hwf) as (more' & s1' & Hstep' & Hwf1 & _).
  rewrite Hstep in Hstep'. injection Hstep' as <- <-.
  pose proof (Hkeep s more s1 Hwf HI Hstep) as HI1.
  destruct more.
  - destruct (runSteps fuel s1) as [[n' sf'] | | |] eqn:Hrest;
      try discriminate.
    cbn [bind] in Hrun. injection Hrun as <- <-.
    apply (IH s1 n' sf' Hwf1 HI1 Hrest).
  - injection Hrun as <- <-. exact HI1.
Qed.

(** ** The comparator of the sorts *)

(** X1.  The comparator given to [std::sort] (lines 153-155, 244-249) is a
    strict total order on points: no point is less than itself, the order
    is transitive, and of two different points exactly one is less than
    the other.  This is what [std::sort] asks of its comparator, and two
    points it does not order are equal. *)
Theorem pointLess_strict_total_order :
  (forall a, pointLess a a = false) /\
  (forall a b c, pointLess a b = true -> pointLess b c = true ->
                 pointLess a c = true) /\
  (forall a b, pointLess a b = true -> pointLess b a = false) /\
  (forall a b, pointLess a b = false -> pointLess b a = false -> a = b) /\
  (forall a b, comparePoints a b = false ->
               pointLess a b = true \/ pointLess b a = true).
Proof.
  split; [| split; [| split; [| split]]].
  - intros a. apply not_true_iff_false. rewrite pointLess_spec. lia.
  - intros a b c. rewrite !pointLess_spec. lia.
  - intros a b. rewrite <- not_true_iff_false, !pointLess_spec. lia.
  - intros a b Hab Hba. apply (anti_symm pointLe); assumption.
  - intros [ax ay] [bx by_]. rewrite comparePoints_neq, !pointLess_spec.
    cbn [x y]. intros Hne.
    destruct (Z.eq_dec ax bx) as [-> | Hx];
      [destruct (Z.eq_dec ay by_) as [-> | Hy]; [congruence | lia] | lia].
Qed.

(** ** Sorted vectors *)

Lemma Sorted_pointLe_strongly (l : list Point) :
  Sorted pointLe l <-> StronglySorted pointLe l.
Proof.
  split; [apply Sorted_StronglySorted; apply _ | apply StronglySorted_Sorted].
Qed.

Lemma StronglySorted_filter {A} (R : A -> A -> Prop) (f : A -> bool)
    (l : list A) :
  StronglySorted R l -> StronglySorted R (List.filter f l).
Proof.
  induction 1 as [| a l Hl IH Hall]; cbn [List.filter]; [constructor |].
  destruct (f a); [| exact IH].
  constructor; [exact IH |].
  apply List.Forall_forall. intros b Hb. apply filter_In in Hb.
  rewrite List.Forall_forall in Hall. apply Hall, Hb.
Qed.

Lemma calcPointsOnRightSide_Sorted (A B : Point) (pts : list Point) :
  Sorted pointLe pts -> Sorted pointLe (calcPointsOnRightSide A B pts).
Proof.
  rewrite !Sorted_pointLe_strongly, calcPointsOnRightSide_filter.
  apply StronglySorted_filter.
Qed.

Lemma sortPoints_sorted_id (l : list Point) :
  Sorted pointLe l -> sortPoints l = l.
Proof.
  intros Hs. symmetry. apply sortPoints_unique; [reflexivity | exact Hs].
Qed.

(** The first of a sorted vector is its least point, the last its
    greatest. *)
Lemma Sorted_first_last (l : list Point) (first last : Point) :
  Sorted pointLe l ->
  index l 0 = Returns first -> index l (length l - 1) = Returns last ->
  forall q, In q l -> pointLe first q /\ pointLe q last.
Proof.
  rewrite Sorted_pointLe_strongly. unfold index.
  intros Hs Hfirst Hlast q Hq.
  destruct (l !! 0) as [f |] eqn:Hf; [| discriminate].
  destruct (l !! (length l - 1)) as [g |] eqn:Hg; [| discriminate].
  injection Hfirst as ->. injection Hlast as ->.
  apply list_elem_of_In, list_elem_of_lookup in Hq. destruct Hq as [i Hi].
  pose proof (lookup_lt_Some _ _ _ Hi) as Hlt.
  assert (forall i j a b, i <= j -> l !! i = Some a -> l !! j = Some b ->
            pointLe a b) as Hmono.
  { clear -Hs. induction Hs as [| a l Hl IH Hall]; intros i j p q Hij Hp Hq;
      [discriminate |].
    destruct i as [| i], j as [| j]; try lia.
    - injection Hp as <-. injection Hq as <-.
      apply pointLe_spec. lia.
    - injection Hp as <-. cbn in Hq.
      rewrite List.Forall_forall in Hall. apply Hall.
      apply list_elem_of_In. apply (list_elem_of_lookup_2 _ _ _ Hq).
    - apply (IH i j); [lia | exact Hp | exact Hq]. }
  split.
  - apply (Hmono 0 i); [lia | exact Hf | exact Hi].
  - apply (Hmono i (length l - 1)); [lia | exact Hi | exact Hg].
Qed.

(** ** What [randomizeInput] sets up *)

(** X2.  When [randomizeInput] returns, [basePointList] is the generated
    points rearranged in the order of the comparator, [minPoint] and
    [maxPoint] are points of the input, the least and the greatest in that
    order, and they are the two ends of the root's segment. *)
Theorem setupInput_extremes (pts : list Point) (qh s0 : QuickHull) :
  setupInput pts qh = Returns s0 ->
  Permutation (basePointList s0) pts /\
  Sorted pointLe (basePointList s0) /\
  In (minPoint s0) pts /\ In (maxPoint s0) pts /\
  (forall q, In q pts -> pointLe (minPoint s0) q /\ pointLe q (maxPoint s0)) /\
  (exists root, heap s0 !! 0 = Some root /\
                segmentA root = minPoint s0 /\ segmentB root = maxPoint s0).
Proof.
  intros Hsetup.
  destruct (setupInput_Returns pts qh s0 Hsetup)
    as (minP & maxP & Hmin & Hmax & ->).
  cbn [basePointList minPoint maxPoint heap].
  split; [apply sortPoints_Permutation |].
  split; [apply sortPoints_Sorted |].
  split; [apply sortPoints_In, (index_In _ _ _ Hmin) |].
  split; [apply sortPoints_In, (index_In _ _ _ Hmax) |].
  split.
  - intros q Hq. apply sortPoints_In in Hq.
    apply (Sorted_first_last (sortPoints pts) minP maxP
             (sortPoints_Sorted pts) Hmin Hmax q Hq).
  - eexists. split; [reflexivity |]. split; reflexivity.
Qed.

Lemma setupInput_extremes_witness :
  In (minPoint (squareState 0)) squareInput /\
  In (maxPoint (squareState 0)) squareInput /\
  minPoint (squareState 0) = mkPoint 0 0 /\
  maxPoint (squareState 0) = mkPoint 10 10.
Proof.
  destruct (setupInput_extremes squareInput newQuickHull (squareState 0))
    as (_ & _ & Hmin & Hmax & _).
  - vm_compute. reflexivity.
  - split; [exact Hmin |]. split; [exact Hmax |].
    split; vm_compute; reflexivity.
Defined.

(** X3.  Every point [randomizeInput] generates lies within the margins of
    the window, whatever [rand()] returns (a value between 0 and
    [RAND_MAX], an [int]); the vector has one point per pair drawn. *)
Theorem generatePoints_inWindow (rands : list (Z * Z)) :
  (forall r, In r rands ->
     (0 <= fst r <= Int.max_int)%Z /\ (0 <= snd r <= Int.max_int)%Z) ->
  length (generatePoints rands) = length rands /\
  forall p, In p (generatePoints rands) ->
    (10 <= x p < 1270)%Z /\ (10 <= y p < 710)%Z.
Proof.
  intros Hrange. unfold generatePoints.
  split; [apply length_map |].
  intros p Hp. apply in_map_iff in Hp. destruct Hp as (r & <- & Hr).
  destruct (Hrange r Hr) as [H1 H2].
  pose proof (generatePoint_inWindow r H1 H2) as Hw.
  unfold inWindow in Hw.
  rewrite pointXmax_value, pointYmax_value in Hw. unfold windowMargin in Hw.
  lia.
Qed.

Lemma generatePoints_inWindow_witness :
  length (generatePoints [(41, 18467); (6334, 26500)]%Z) = 2 /\
  forall p, In p (generatePoints [(41, 18467); (6334, 26500)]%Z) ->
    (10 <= x p < 1270)%Z /\ (10 <= y p < 710)%Z.
Proof.
  apply (generatePoints_inWindow [(41, 18467); (6334, 26500)]%Z).
  intros r [<- | [<- | []]]; vm_compute; intuition discriminate.
Defined.

(** ** What every node holds *)

Lemma nodeContents_newStep (base : list Point) (c : nat) (nd : StepData)
    (segA segB : Point) :
  nodeContents base nd -> In segA base -> In segB base ->
  nodeContents base (newStep (Some c) segA segB (pointSet nd)).
Proof.
  intros (_ & Hin & _) HA HB.
  unfold nodeContents, newStep; cbn [pointSet segmentA segmentB prevStep].
  split; [apply sortPoints_Sorted |].
  split.
  { intros q Hq. apply sortPoints_In, calcPointsOnRightSide_In in Hq.
    apply Hin. tauto. }
  split; [exact HA |]. split; [exact HB |].
  intros _ q Hq. apply sortPoints_In, calcPointsOnRightSide_In in Hq. tauto.
Qed.

Lemma contentsOk_setup (pts : list Point) (qh s0 : QuickHull) :
  setupInput pts qh = Returns s0 -> contentsOk s0.
Proof.
  intros Hsetup.
  destruct (setupInput_Returns pts qh s0 Hsetup)
    as (minP & maxP & Hmin & Hmax & ->).
  apply index_In in Hmin, Hmax.
  assert (nodeContents (sortPoints pts)
            (mkStepData (sortPoints pts) minP maxP SDP_FirstIteration
                        (Some 2) (Some 1) None)) as Hroot.
  { unfold nodeContents; cbn [pointSet segmentA segmentB prevStep].
    split; [apply sortPoints_Sorted |]. split; [tauto |].
    split; [exact Hmin |]. split; [exact Hmax | congruence]. }
  split; [| split]; cbn [heap basePointList hullPoints].
  - constructor; [exact Hroot |].
    constructor;
      [apply (nodeContents_newStep _ 0 _ minP maxP Hroot Hmin Hmax) |].
    constructor;
      [apply (nodeContents_newStep _ 0 _ maxP minP Hroot Hmax Hmin) |].
    constructor.
  - intros p [<- | [<- | []]]; assumption.
  - reflexivity.
Qed.

Lemma contentsOk_kept : kept contentsOk.
Proof.
  split; [| split].
  - (* the marking *)
    intros s1 c nd _ _ (Hall & Hhull & Hcount) _ Hc _.
    split; [| split]; cbn [atCursor heap basePointList hullPoints].
    + apply Forall_insert; [exact Hall |].
      apply (Forall_lookup_1 _ _ _ _ Hall Hc).
    + exact Hhull.
    + rewrite length_insert. exact Hcount.
  - (* one turn of the loop *)
    intros s1 c nd _ _ (Hall & Hhull & Hcount) _ Hc _.
    split; [| split]; cbn [atCursor heap basePointList hullPoints].
    + apply Forall_insert; [exact Hall |].
      apply (Forall_lookup_1 _ _ _ _ Hall Hc).
    + exact Hhull.
    + rewrite length_insert. exact Hcount.
  - (* the visit *)
    intros s1 c nd furthest minP maxP _ _ (Hall & Hhull & Hcount) _ Hc _ _
           Hfur _ _.
    pose proof (Forall_lookup_1 _ _ _ _ Hall Hc) as Hnd.
    pose proof (calculateFurthestPoint_In _ _ _ _ Hfur) as Hin.
    assert (In furthest (basePointList s1)) as Hbase.
    { destruct Hnd as (_ & Hsub & _). apply Hsub, Hin. }
    unfold visited. destruct (progress nd);
      (split; [| split]); cbn [heap basePointList hullPoints].
    + apply Forall_app_2; [apply Forall_insert; assumption |].
      pose proof Hnd as (_ & _ & HA & HB & _).
      constructor; [apply nodeContents_newStep; assumption |].
      constructor; [apply nodeContents_newStep; assumption |].
      constructor.
    + intros p Hp. apply in_app_or in Hp.
      destruct Hp as [Hp | [<- | []]]; [apply Hhull, Hp | exact Hbase].
    + rewrite length_app, length_insert, length_app. cbn [length]. lia.
    + apply Forall_insert; assumption.
    + exact Hhull.
    + rewrite length_insert. exact Hcount.
    + exact Hall.
    + exact Hhull.
    + exact Hcount.
    + apply Forall_insert; assumption.
    + exact Hhull.
    + rewrite length_insert. exact Hcount.
Qed.

Lemma contentsOk_reachable (pts : list Point) (qh s0 : QuickHull) (n : nat)
    (s : QuickHull) :
  setupInput pts qh = Returns s0 -> stepN n s0 = Returns s ->
  wellFormed s /\ contentsOk s /\ basePointList s = sortPoints pts.
Proof.
  intros Hsetup Hrun.
  destruct (setupInput_ok pts qh s0 Hsetup) as (Hwf0 & Hbase0 & _).
  destruct (stepN_ok n s0 Hwf0) as (s1 & Hrun1 & Hwf & Hbase).
  rewrite Hrun in Hrun1. injection Hrun1 as <-.
  split; [exact Hwf |]. split; [| congruence].
  apply (stepN_preserves contentsOk contentsOk_kept n s0 s Hwf0);
    [| exact Hrun].
  apply (contentsOk_setup pts qh s0 Hsetup).
Qed.

Lemma reachable_root_index (s : QuickHull) (i : nat) (nd : StepData) :
  wellFormed s -> heap s !! i = Some nd -> (prevStep nd <> None <-> i <> 0).
Proof.
  intros [_ Hok] Hi. destruct (ok_root _ _ _ (Hok i nd Hi)) as [H1 H2].
  split; [tauto |]. intros Hne Hnone. tauto.
Qed.

(** X4.  In every state of a computation each node's points are in the
    order of the comparator and are points of the input, the ends of its
    segment are points of the input, and every point of a node other than
    the root has a negative determinant against the node's own segment: it
    lies strictly on the side [calcPointsOnRightSide] keeps. *)
Theorem nodes_hold_input_points
    (pts : list Point) (qh s0 : QuickHull) (n : nat) (s : QuickHull) :
  setupInput pts qh = Returns s0 -> stepN n s0 = Returns s ->
  forall i nd, heap s !! i = Some nd ->
    Sorted pointLe (pointSet nd) /\
    (forall q, In q (pointSet nd) -> In q pts) /\
    In (segmentA nd) pts /\ In (segmentB nd) pts /\
    (i <> 0 -> forall q, In q (pointSet nd) ->
       (determinant (segmentA nd) (segmentB nd) q < 0)%Z).
Proof.
  intros Hsetup Hrun i nd Hi.
  destruct (contentsOk_reachable pts qh s0 n s Hsetup Hrun)
    as (Hwf & (Hall & _) & Hbase).
  destruct (Forall_lookup_1 _ _ _ _ Hall Hi) as (Hs & Hsub & HA & HB & Hneg).
  rewrite Hbase in Hsub, HA, HB.
  split; [exact Hs |].
  split; [intros q Hq; apply sortPoints_In, Hsub, Hq |].
  split; [apply sortPoints_In, HA |]. split; [apply sortPoints_In, HB |].
  intros Hne. apply Hneg. apply (reachable_root_index s i nd Hwf Hi), Hne.
Qed.

Lemma nodes_hold_input_points_witness :
  exists nd,
    heap (squareState 3) !! 2 = Some nd /\
    Sorted pointLe (pointSet nd) /\
    (forall q, In q (pointSet nd) -> In q squareInput) /\
    In (segmentA nd) squareInput /\ In (segmentB nd) squareInput.
Proof.
  exists (mkStepData [mkPoint 0 10] (mkPoint 10 10) (mkPoint 0 0)
                     SDP_Done (Some 4) (Some 3) (Some 0)).
  split; [vm_compute; reflexivity |].
  destruct (nodes_hold_input_points squareInput newQuickHull (squareState 0)
              3 (squareState 3) ltac:(vm_compute; reflexivity)
              ltac:(vm_compute; reflexivity) 2
              (mkStepData [mkPoint 0 10] (mkPoint 10 10) (mkPoint 0 0)
                          SDP_Done (Some 4) (Some 3) (Some 0))
              ltac:(vm_compute; reflexivity))
    as (H1 & H2 & H3 & H4 & _).
  exact (conj H1 (conj H2 (conj H3 H4))).
Defined.

(** X5.  [calcPointsOnRightSide] keeps the order of the list it is given,
    so on a sorted list the [std::sort] calls of lines 244-249 change
    nothing; this is the case of every node of a computation, whose
    children hold the points [calcPointsOnRightSide] returned as they
    are. *)
Theorem resort_changes_nothing
    (pts : list Point) (qh s0 : QuickHull) (n : nat) (s : QuickHull) :
  setupInput pts qh = Returns s0 -> stepN n s0 = Returns s ->
  forall i nd, heap s !! i = Some nd ->
    forall (c : option nat) (A B : Point),
      Sorted pointLe (calcPointsOnRightSide A B (pointSet nd)) /\
      pointSet (newStep c A B (pointSet nd))
      = calcPointsOnRightSide A B (pointSet nd).
Proof.
  intros Hsetup Hrun i nd Hi c A B.
  destruct (contentsOk_reachable pts qh s0 n s Hsetup Hrun)
    as (_ & (Hall & _) & _).
  destruct (Forall_lookup_1 _ _ _ _ Hall Hi) as (Hs & _).
  pose proof (calcPointsOnRightSide_Sorted A B _ Hs) as Hs'.
  split; [exact Hs' |]. cbn [newStep pointSet].
  apply sortPoints_sorted_id, Hs'.
Qed.

Lemma resort_changes_nothing_witness :
  pointSet (newStep (Some 0) (mkPoint 0 0) (mkPoint 10 10)
              (basePointList (squareState 2)))
  = calcPointsOnRightSide (mkPoint 0 0) (mkPoint 10 10)
      (basePointList (squareState 2)).
Proof.
  apply (resort_changes_nothing squareInput newQuickHull (squareState 0) 2
           (squareState 2) ltac:(vm_compute; reflexivity)
           ltac:(vm_compute; reflexivity) 0
           (mkStepData (basePointList (squareState 2)) (mkPoint 0 0)
              (mkPoint 10 10) SDP_RecurseTwo (Some 2) (Some 1) None)).
  vm_compute. reflexivity.
Defined.

(** X6.  In every state of a computation the hull points found so far are
    points of the input, and the store holds one node less than twice
    their number: each furthest point comes with the two nodes built
    beside it. *)
Theorem hull_points_are_input_points
    (pts : list Point) (qh s0 : QuickHull) (n : nat) (s : QuickHull) :
  setupInput pts qh = Returns s0 -> stepN n s0 = Returns s ->
  (forall p, In p (hullPoints s) -> In p pts) /\
  length (heap s) = 2 * length (hullPoints s) - 1 /\
  2 <= length (hullPoints s).
Proof.
  intros Hsetup Hrun.
  destruct (contentsOk_reachable pts qh s0 n s Hsetup Hrun)
    as (_ & (_ & Hhull & Hcount) & Hbase).
  rewrite Hbase in Hhull.
  split; [intros p Hp; apply sortPoints_In, Hhull, Hp |].
  assert (3 <= length (heap s)) as Hthree.
  { destruct (stepN_extends n s0 s Hrun) as [Hext _].
    destruct (setupInput_Returns pts qh s0 Hsetup)
      as (minP & maxP & _ & _ & Hs0).
    destruct (Hext 2 (newStep (Some 0) maxP minP (sortPoints pts)))
      as (nd' & Hnd' & _); [rewrite Hs0; reflexivity |].
    apply lookup_lt_Some in Hnd'. lia. }
  lia.
Qed.

Lemma hull_points_are_input_points_witness :
  (forall p, In p (hullPoints (squareState 5)) -> In p squareInput) /\
  length (heap (squareState 5)) = 2 * length (hullPoints (squareState 5)) - 1.
Proof.
  destruct (hull_points_are_input_points squareInput newQuickHull
              (squareState 0) 5 (squareState 5)
              ltac:(vm_compute; reflexivity) ltac:(vm_compute; reflexivity))
    as (H1 & H2 & _).
  exact (conj H1 H2).
Defined.

(** ** What a call leaves alone *)

Lemma visited_frame (h : list StepData) (c : nat) (nd : StepData)
    (furthest minP maxP : Point) (s : QuickHull) :
  basePointList (visited h c nd furthest minP maxP s) = basePointList s /\
  center (visited h c nd furthest minP maxP s) = center s /\
  minPoint (visited h c nd furthest minP maxP s) = minP /\
  maxPoint (visited h c nd furthest minP maxP s) = maxP.
Proof. unfold visited. destruct (progress nd); repeat apply conj; reflexivity. Qed.

(** X7.  A call takes nothing back from what the object holds: it leaves
    [basePointList] and [center] as they are and only appends to
    [hullPoints], one point at most.  Of a node it writes [progress] and
    the links to the children only: a node that is there before and after
    the call has the same points, segment and parent. *)
Theorem step_takes_nothing_back (s : QuickHull) (more : bool)
    (s' : QuickHull) :
  step s = Returns (more, s') ->
  basePointList s' = basePointList s /\
  center s' = center s /\
  (exists added, hullPoints s' = hullPoints s ++ added /\
                 length added <= 1) /\
  forall i nd nd', heap s !! i = Some nd -> heap s' !! i = Some nd' ->
    pointSet nd' = pointSet nd /\ segmentA nd' = segmentA nd /\
    segmentB nd' = segmentB nd /\ prevStep nd' = prevStep nd.
Proof.
  intros Hstep.
  destruct (step_extends s s' more Hstep) as [Hext Hbase].
  split; [exact Hbase |].
  split.
  { unfold step in Hstep.
    destruct (markEmptyDone (heap s) (nextStep s)) as [h1 | | |];
      try discriminate.
    cbn [bind] in Hstep.
    destruct (unwindDone (length h1) h1 (nextStep s))
      as [[[h2 cur] b] | | |]; try discriminate.
    cbn [bind] in Hstep. destruct b.
    - destruct (visit h2 cur s) as [s1 | | |] eqn:Hvisit; try discriminate.
      injection Hstep as <- <-.
      destruct (visit_inv _ _ _ _ Hvisit)
        as (c & nd & furthest & minP & maxP & _ & _ & _ & _ & ->).
      apply visited_frame.
    - injection Hstep as <- <-. reflexivity. }
  split.
  { destruct (step_hullPoints s more s' Hstep)
      as (h1 & h2 & cur & _ & _ & Hhull).
    destruct more.
    - destruct Hhull as (c & nd & furthest & _ & _ & _ & ->).
      destruct (isRecurseOne (progress nd)).
      + exists [furthest]. split; [reflexivity | cbn [length]; lia].
      + exists []. split; [symmetry; apply app_nil_r | cbn [length]; lia].
    - exists []. rewrite Hhull.
      split; [symmetry; apply app_nil_r | cbn [length]; lia]. }
  intros i nd nd' Hi Hi'. destruct (Hext i nd Hi) as (nd0 & Hi0 & Hsame).
  rewrite Hi' in Hi0. injection Hi0 as <-. exact Hsame.
Qed.

Lemma step_takes_nothing_back_witness :
  basePointList (squareState 3) = basePointList (squareState 2) /\
  center (squareState 3) = center (squareState 2) /\
  (exists added, hullPoints (squareState 3)
                 = hullPoints (squareState 2) ++ added /\
                 length added <= 1).
Proof.
  destruct (step_takes_nothing_back (squareState 2) true (squareState 3)
              ltac:(vm_compute; reflexivity)) as (H1 & H2 & H3 & _).
  exact (conj H1 (conj H2 H3)).
Defined.

(** ** The shape of the tree *)

Lemma onPath_inv (h : list StepData) (c a : nat) :
  onPath h c a ->
  a = c \/ exists nd p, h !! c = Some nd /\ prevStep nd = Some p /\
                        onPath h p a.
Proof.
  intros [c' | c' nd p a' Hc Hp Hpath]; [left; reflexivity |].
  right. exists nd, p. repeat apply conj; assumption.
Qed.

Lemma onPath_extends (h h' : list StepData) (c a : nat) :
  extends h h' -> onPath h c a -> onPath h' c a.
Proof.
  intros Hext. induction 1 as [c | c nd p a Hc Hp _ IH]; [constructor |].
  destruct (Hext c nd Hc) as (nd' & Hc' & _ & _ & _ & Hprev).
  apply (onPath_up h' c nd' p a Hc'); [congruence | exact IH].
Qed.

Lemma lookup_insert_cases (h : list StepData) (c i : nat)
    (x ni : StepData) :
  c < length h -> <[c := x]> h !! i = Some ni ->
  (i = c /\ ni = x) \/ (i <> c /\ h !! i = Some ni).
Proof.
  intros Hlt Hi. destruct (decide (i = c)) as [-> | Hne].
  - rewrite list_lookup_insert_eq in Hi by exact Hlt. left.
    split; [reflexivity | congruence].
  - rewrite list_lookup_insert_ne in Hi by lia. right.
    split; assumption.
Qed.

Lemma lookup_built_cases (h : list StepData) (c i : nat)
    (x l r ni : StepData) :
  c < length h -> (<[c := x]> h ++ [l; r]) !! i = Some ni ->
  (i = c /\ ni = x) \/ (i <> c /\ i < length h /\ h !! i = Some ni) \/
  (i = length h /\ ni = l) \/ (i = S (length h) /\ ni = r).
Proof.
  intros Hlt Hi. destruct (decide (i < length h)) as [Hi' | Hi'].
  - rewrite lookup_app_l in Hi by (rewrite length_insert; exact Hi').
    destruct (lookup_insert_cases h c i x ni Hlt Hi) as [H | [H1 H2]];
      [left; exact H | right; left].
    repeat apply conj; assumption.
  - rewrite lookup_app_r in Hi by (rewrite length_insert; lia).
    rewrite length_insert in Hi.
    destruct (i - length h) as [| [| k]] eqn:Hk; [| | discriminate].
    + right; right; left. injection Hi as <-. split; [lia | reflexivity].
    + right; right; right. injection Hi as <-. split; [lia | reflexivity].
Qed.

Lemma treeOk_setup (pts : list Point) (qh s0 : QuickHull) :
  setupInput pts qh = Returns s0 -> shapeOk s0.
Proof.
  intros Hsetup.
  destruct (setupInput_ok pts qh s0 Hsetup) as (_ & _ & Hne).
  destruct (setupInput_Returns pts qh s0 Hsetup)
    as (minP & maxP & _ & _ & ->).
  exists 0. split; [reflexivity |]. cbn [heap].
  set (root := mkStepData (sortPoints pts) minP maxP SDP_FirstIteration
                          (Some 2) (Some 1) None).
  constructor.
  - intros i nd Hi _.
    destruct i as [| [| [| i]]]; [| | | discriminate].
    + left. constructor.
    + right. exists 0, root. split; [constructor |].
      split; [reflexivity |]. right. split; [reflexivity |].
      right. reflexivity.
    + right. exists 0, root. split; [constructor |].
      split; [reflexivity |]. right. split; [reflexivity |].
      left. reflexivity.
  - intros i nd Hi Hdone.
    destruct i as [| [| [| i]]]; [| | | discriminate];
      injection Hi as <-; discriminate Hdone.
  - intros a na k Ha Hpend.
    destruct a as [| [| [| a]]]; [| | | discriminate]; injection Ha as <-.
    + destruct Hpend as [[Hp _] | [_ [Hk | Hk]]]; [discriminate Hp | |];
        injection Hk as <-; eexists; split; reflexivity.
    + destruct Hpend as [[Hp _] | [Hp _]]; discriminate Hp.
    + destruct Hpend as [[Hp _] | [Hp _]]; discriminate Hp.
  - intros i nd Hi Hempty.
    destruct i as [| [| [| i]]]; [| | | discriminate]; injection Hi as <-.
    + unfold root in Hempty. cbn [pointSet] in Hempty.
      apply (proj1 (sortPoints_nil pts)) in Hempty. congruence.
    + left. reflexivity.
    + left. reflexivity.
Qed.

Lemma onPath_trans (h : list StepData) (a b c : nat) :
  onPath h a b -> onPath h b c -> onPath h a c.
Proof.
  induction 1 as [a | a nd p b Ha Hp _ IH]; intros Hbc; [exact Hbc |].
  apply (onPath_up h a nd p c Ha Hp). apply IH, Hbc.
Qed.

(** The live nodes stay live when the store grows and the cursor moves
    down to a node below the former cursor. *)
Lemma live_mono (h h' : list StepData) (c c' i : nat) :
  extends h h' -> onPath h' c' c ->
  (forall a na, h !! a = Some na -> pendingChild na i -> onPath h c a ->
     (exists na', h' !! a = Some na' /\ pendingChild na' i) \/
     onPath h' c' i) ->
  live h c i -> live h' c' i.
Proof.
  intros Hext Hdown Hpend [Hpath | (a & na & Hpath & Ha & Hp)].
  - left. apply (onPath_trans _ _ _ _ Hdown).
    apply (onPath_extends _ _ _ _ Hext Hpath).
  - destruct (Hpend a na Ha Hp Hpath) as [(na' & Ha' & Hp') | Hdirect];
      [| left; exact Hdirect].
    right. exists a, na'. split; [| split; assumption].
    apply (onPath_trans _ _ _ _ Hdown).
    apply (onPath_extends _ _ _ _ Hext Hpath).
Qed.

Lemma pendingChild_not_done (na : StepData) (i : nat) :
  pendingChild na i ->
  progress na = SDP_RecurseTwo \/ progress na = SDP_FirstIteration.
Proof. intros [[H _] | [H _]]; [left | right]; exact H. Qed.

Lemma tree_child_extends (h h' : list StepData) (a k : nat) :
  extends h h' ->
  (exists nk, h !! k = Some nk /\ prevStep nk = Some a) ->
  exists nk, h' !! k = Some nk /\ prevStep nk = Some a.
Proof.
  intros Hext (nk & Hk & Hprev).
  destruct (Hext k nk Hk) as (nk' & Hk' & _ & _ & _ & Hprev').
  exists nk'. split; [exact Hk' | congruence].
Qed.

(** The marking keeps the shape. *)
Lemma treeOk_mark (h : list StepData) (c : nat) (nd : StepData) :
  h !! c = Some nd -> pointSet nd = [] -> treeOk h c ->
  treeOk (<[c := setProgress SDP_Done nd]> h) c.
Proof.
  intros Hc Hempty [Hlive Hlinks Hchild Hemp].
  pose proof (lookup_lt_Some _ _ _ Hc) as Hlt.
  pose proof (extends_insert h c nd _ Hc (sameCore_setProgress SDP_Done nd))
    as Hext.
  assert (progress nd = SDP_RecurseOne \/ progress nd = SDP_Done) as Hfresh
    by apply (Hemp c nd Hc Hempty).
  constructor.
  - intros i ni Hi Hprog.
    destruct (lookup_insert_cases h c i _ ni Hlt Hi) as [[_ ->] | [Hne Hi']];
      [cbn [setProgress progress] in Hprog; congruence |].
    apply (live_mono h _ c c i Hext (onPath_here _ c));
      [| apply (Hlive i ni Hi' Hprog)].
    intros a na Ha Hp _. left.
    destruct (decide (a = c)) as [-> | Hac].
    + rewrite Hc in Ha. injection Ha as <-.
      destruct (pendingChild_not_done _ _ Hp), Hfresh; congruence.
    + exists na. rewrite list_lookup_insert_ne by lia. split; assumption.
  - intros i ni Hi Hprog Hhas.
    destruct (lookup_insert_cases h c i _ ni Hlt Hi) as [[-> _] | [Hne Hi']];
      [constructor |].
    apply (onPath_extends _ _ _ _ Hext). apply (Hlinks i ni Hi' Hprog Hhas).
  - intros a na k Ha Hp.
    destruct (lookup_insert_cases h c a _ na Hlt Ha) as [[_ ->] | [Hne Ha']].
    + destruct (pendingChild_not_done _ _ Hp) as [H | H];
        cbn [setProgress progress] in H; discriminate H.
    + apply (tree_child_extends _ _ _ _ Hext), (Hchild a na k Ha' Hp).
  - intros i ni Hi Hnil.
    destruct (lookup_insert_cases h c i _ ni Hlt Hi) as [[_ ->] | [Hne Hi']];
      [right; reflexivity | apply (Hemp i ni Hi' Hnil)].
Qed.

(** One turn of the loop keeps the shape: the node under the cursor loses
    its links and the cursor goes to its parent, when it has one. *)
Lemma treeOk_pop (h : list StepData) (c : nat) (nd : StepData) :
  h !! c = Some nd -> progress nd = SDP_Done -> treeOk h c ->
  treeOk (<[c := setRecursive None None nd]> h)
         (match prevStep nd with Some p => p | None => c end).
Proof.
  intros Hc Hdone [Hlive Hlinks Hchild Hemp].
  pose proof (lookup_lt_Some _ _ _ Hc) as Hlt.
  pose proof (extends_insert h c nd _ Hc (sameCore_setRecursive None None nd))
    as Hext.
  set (c' := match prevStep nd with Some p => p | None => c end).
  (* what was above the cursor, the cursor apart, is above the new one *)
  assert (forall a, onPath h c a -> a <> c ->
            onPath (<[c := setRecursive None None nd]> h) c' a) as Hup.
  { intros a Hpath Hne.
    destruct (onPath_inv _ _ _ Hpath) as [-> | (nd0 & p & Hc0 & Hp & Hrest)];
      [congruence |].
    rewrite Hc in Hc0. injection Hc0 as <-.
    unfold c'. rewrite Hp. apply (onPath_extends _ _ _ _ Hext Hrest). }
  constructor.
  - intros i ni Hi Hprog.
    destruct (lookup_insert_cases h c i _ ni Hlt Hi) as [[_ ->] | [Hne Hi']];
      [cbn [setRecursive progress] in Hprog; congruence |].
    destruct (Hlive i ni Hi' Hprog) as [Hpath | (a & na & Hpath & Ha & Hp)].
    + left. apply (Hup i Hpath Hne).
    + assert (a <> c) as Hac.
      { intros ->. rewrite Hc in Ha. injection Ha as <-.
        destruct (pendingChild_not_done _ _ Hp); congruence. }
      right. exists a, na. split; [apply (Hup a Hpath Hac) |].
      rewrite list_lookup_insert_ne by lia. split; assumption.
  - intros i ni Hi Hprog Hhas.
    destruct (lookup_insert_cases h c i _ ni Hlt Hi) as [[_ ->] | [Hne Hi']].
    + cbn [setRecursive recursiveOne recursiveTwo] in Hhas.
      destruct Hhas; congruence.
    + apply (Hup i (Hlinks i ni Hi' Hprog Hhas) Hne).
  - intros a na k Ha Hp.
    destruct (lookup_insert_cases h c a _ na Hlt Ha) as [[_ ->] | [Hne Ha']].
    + destruct (pendingChild_not_done _ _ Hp) as [H | H];
        cbn [setRecursive progress] in H; congruence.
    + apply (tree_child_extends _ _ _ _ Hext), (Hchild a na k Ha' Hp).
  - intros i ni Hi Hnil.
    destruct (lookup_insert_cases h c i _ ni Hlt Hi) as [[_ ->] | [Hne Hi']];
      [right; exact Hdone | apply (Hemp i ni Hi' Hnil)].
Qed.

(** A visit keeps the shape. *)
Lemma treeOk_visit (h : list StepData) (c : nat) (nd : StepData)
    (furthest minP maxP : Point) (s : QuickHull) :
  heapOk h -> h !! c = Some nd -> progress nd <> SDP_Done ->
  pointSet nd <> [] -> treeOk h c ->
  shapeOk (visited h c nd furthest minP maxP s).
Proof.
  intros Hok Hc Hprog Hne [Hlive Hlinks Hchild Hemp].
  pose proof (lookup_lt_Some _ _ _ Hc) as Hlt.
  pose proof (Hok c nd Hc) as Hnd.
  unfold shapeOk, visited.
  destruct (progress nd) eqn:Hpr; [| | congruence |]; cbn [nextStep heap].
  - (* first visit: the cursor goes to the new [recursiveOne] *)
    set (l := newStep (Some c) (segmentA nd) furthest (pointSet nd)).
    set (r := newStep (Some c) furthest (segmentB nd) (pointSet nd)).
    set (nd2 := setProgress SDP_RecurseTwo
                  (setRecursive (Some (S (length h))) (Some (length h)) nd)).
    set (h' := <[c := nd2]> h ++ [l; r]).
    assert (extends h h') as Hext.
    { apply (extends_trans _ (<[c := nd2]> h)); [| apply extends_app].
      apply (extends_insert h c nd _ Hc). repeat apply conj; reflexivity. }
    assert (h' !! c = Some nd2) as Hc'.
    { unfold h'. rewrite lookup_app_l by (rewrite length_insert; exact Hlt).
      apply list_lookup_insert_eq, Hlt. }
    assert (h' !! length h = Some l) as Hl.
    { unfold h'. rewrite lookup_app_r by (rewrite length_insert; lia).
      rewrite length_insert, Nat.sub_diag. reflexivity. }
    assert (h' !! S (length h) = Some r) as Hr.
    { unfold h'. rewrite lookup_app_r by (rewrite length_insert; lia).
      rewrite length_insert.
      replace (S (length h) - length h) with 1 by lia. reflexivity. }
    assert (onPath h' (S (length h)) c) as Hdown.
    { apply (onPath_up h' _ r c c Hr eq_refl). constructor. }
    exists (S (length h)). split; [reflexivity |].
    constructor.
    + intros i ni Hi Hnd'.
      destruct (lookup_built_cases h c i nd2 l r ni Hlt Hi)
        as [[-> _] | [(Hic & Hilt & Hi') | [[-> _] | [-> _]]]].
      * left. exact Hdown.
      * apply (live_mono h h' c _ i Hext Hdown);
          [| apply (Hlive i ni Hi' Hnd')].
        intros a na Ha Hp _. left.
        assert (a <> c) as Hac.
        { intros ->. rewrite Hc in Ha. injection Ha as <-.
          destruct (pendingChild_not_done _ _ Hp); congruence. }
        exists na. split; [| exact Hp].
        unfold h'. rewrite lookup_app_l
          by (rewrite length_insert; apply (lookup_lt_Some _ _ _ Ha)).
        rewrite list_lookup_insert_ne by lia. exact Ha.
      * right. exists c, nd2. split; [exact Hdown |].
        split; [exact Hc' |]. left. split; reflexivity.
      * left. constructor.
    + intros i ni Hi Hdone' Hhas.
      destruct (lookup_built_cases h c i nd2 l r ni Hlt Hi)
        as [[_ ->] | [(Hic & Hilt & Hi') | [[_ ->] | [_ ->]]]];
        try discriminate Hdone'.
      apply (onPath_trans _ _ _ _ Hdown).
      apply (onPath_extends _ _ _ _ Hext).
      apply (Hlinks i ni Hi' Hdone' Hhas).
    + intros a na k Ha Hp.
      destruct (lookup_built_cases h c a nd2 l r na Hlt Ha)
        as [[-> ->] | [(Hac & Halt & Ha') | [[_ ->] | [_ ->]]]].
      * destruct Hp as [[_ Hk] | [Hp _]]; [| discriminate Hp].
        injection Hk as <-. exists l. split; [exact Hl | reflexivity].
      * apply (tree_child_extends _ _ _ _ Hext), (Hchild a na k Ha' Hp).
      * destruct (pendingChild_not_done _ _ Hp) as [H | H]; discriminate H.
      * destruct (pendingChild_not_done _ _ Hp) as [H | H]; discriminate H.
    + intros i ni Hi Hnil.
      destruct (lookup_built_cases h c i nd2 l r ni Hlt Hi)
        as [[_ ->] | [(Hic & Hilt & Hi') | [[_ ->] | [_ ->]]]].
      * cbn [nd2 setProgress setRecursive pointSet] in Hnil. congruence.
      * apply (Hemp i ni Hi' Hnil).
      * left. reflexivity.
      * left. reflexivity.
  - (* second visit: the cursor goes to [recursiveTwo] *)
    destruct (ok_second _ _ _ Hnd Hpr) as (t & Ht & Htlt).
    destruct (Hchild c nd t Hc (or_introl (conj Hpr Ht)))
      as (nt & Hnt & Hprevt).
    destruct (ok_parent _ _ _ (Hok t nt Hnt) c Hprevt) as (Hct & _).
    set (h' := <[c := setProgress SDP_Done nd]> h).
    pose proof (extends_insert h c nd _ Hc (sameCore_setProgress SDP_Done nd))
      as Hext. fold h' in Hext.
    assert (h' !! t = Some nt) as Hnt'.
    { unfold h'. rewrite list_lookup_insert_ne by lia. exact Hnt. }
    assert (onPath h' t c) as Hdown.
    { apply (onPath_up h' t nt c c Hnt' Hprevt). constructor. }
    exists t. split; [exact Ht |].
    constructor.
    + intros i ni Hi Hnd'.
      destruct (lookup_insert_cases h c i _ ni Hlt Hi) as [[_ ->] | [Hic Hi']];
        [cbn [setProgress progress] in Hnd'; congruence |].
      apply (live_mono h h' c t i Hext Hdown);
        [| apply (Hlive i ni Hi' Hnd')].
      intros a na Ha Hp _.
      destruct (decide (a = c)) as [-> | Hac].
      * right. rewrite Hc in Ha. injection Ha as <-.
        destruct Hp as [[_ Hk] | [Hp _]]; [| congruence].
        rewrite Ht in Hk. injection Hk as <-. constructor.
      * left. exists na. split; [| exact Hp].
        unfold h'. rewrite list_lookup_insert_ne by lia. exact Ha.
    + intros i ni Hi Hdone' Hhas.
      destruct (lookup_insert_cases h c i _ ni Hlt Hi) as [[-> _] | [Hic Hi']];
        [exact Hdown |].
      apply (onPath_trans _ _ _ _ Hdown).
      apply (onPath_extends _ _ _ _ Hext).
      apply (Hlinks i ni Hi' Hdone' Hhas).
    + intros a na k Ha Hp.
      destruct (lookup_insert_cases h c a _ na Hlt Ha) as [[_ ->] | [Hac Ha']].
      * destruct (pendingChild_not_done _ _ Hp) as [H | H];
          cbn [setProgress progress] in H; discriminate H.
      * apply (tree_child_extends _ _ _ _ Hext), (Hchild a na k Ha' Hp).
    + intros i ni Hi Hnil.
      destruct (lookup_insert_cases h c i _ ni Hlt Hi) as [[_ ->] | [Hic Hi']];
        [right; reflexivity | apply (Hemp i ni Hi' Hnil)].
  - (* the root, first call: the cursor goes to [recursiveOne] *)
    destruct (ok_first _ _ _ Hnd Hpr) as [(o & Ho & Holt) (t & Ht & Htlt)].
    destruct (Hchild c nd o Hc (or_intror (conj Hpr (or_introl Ho))))
      as (no & Hno & Hprevo).
    destruct (ok_parent _ _ _ (Hok o no Hno) c Hprevo) as (Hco & _).
    set (h' := <[c := setProgress SDP_RecurseTwo nd]> h).
    pose proof (extends_insert h c nd _ Hc
                  (sameCore_setProgress SDP_RecurseTwo nd)) as Hext.
    fold h' in Hext.
    assert (h' !! c = Some (setProgress SDP_RecurseTwo nd)) as Hc'.
    { unfold h'. apply list_lookup_insert_eq, Hlt. }
    assert (h' !! o = Some no) as Hno'.
    { unfold h'. rewrite list_lookup_insert_ne by lia. exact Hno. }
    assert (onPath h' o c) as Hdown.
    { apply (onPath_up h' o no c c Hno' Hprevo). constructor. }
    exists o. split; [exact Ho |].
    constructor.
    + intros i ni Hi Hnd'.
      destruct (lookup_insert_cases h c i _ ni Hlt Hi) as [[-> _] | [Hic Hi']];
        [left; exact Hdown |].
      apply (live_mono h h' c o i Hext Hdown);
        [| apply (Hlive i ni Hi' Hnd')].
      intros a na Ha Hp _.
      destruct (decide (a = c)) as [-> | Hac].
      * rewrite Hc in Ha. injection Ha as <-.
        destruct Hp as [[Hp _] | [_ [Hk | Hk]]]; [congruence | |].
        -- right. rewrite Ho in Hk. injection Hk as <-. constructor.
        -- left. exists (setProgress SDP_RecurseTwo nd).
           split; [exact Hc' |]. left. split; [reflexivity | exact Hk].
      * left. exists na. split; [| exact Hp].
        unfold h'. rewrite list_lookup_insert_ne by lia. exact Ha.
    + intros i ni Hi Hdone' Hhas.
      destruct (lookup_insert_cases h c i _ ni Hlt Hi) as [[_ ->] | [Hic Hi']];
        [discriminate Hdone' |].
      apply (onPath_trans _ _ _ _ Hdown).
      apply (onPath_extends _ _ _ _ Hext).
      apply (Hlinks i ni Hi' Hdone' Hhas).
    + intros a na k Ha Hp.
      destruct (lookup_insert_cases h c a _ na Hlt Ha) as [[-> ->] | [Hac Ha']].
      * apply (tree_child_extends _ _ _ _ Hext), (Hchild c nd k Hc).
        destruct Hp as [[_ Hk] | [Hp _]]; [| discriminate Hp].
        right. split; [exact Hpr |]. right. exact Hk.
      * apply (tree_child_extends _ _ _ _ Hext), (Hchild a na k Ha' Hp).
    + intros i ni Hi Hnil.
      destruct (lookup_insert_cases h c i _ ni Hlt Hi) as [[_ ->] | [Hic Hi']];
        [cbn [setProgress pointSet] in Hnil; congruence
        | apply (Hemp i ni Hi' Hnil)].
Qed.

Lemma shapeOk_kept : kept shapeOk.
Proof.
  split; [| split].
  - intros s1 c nd _ _ (c0 & Hcur0 & Htree) Hcur Hc Hempty.
    rewrite Hcur in Hcur0. injection Hcur0 as <-.
    exists c. split; [reflexivity |]. cbn [atCursor heap].
    apply (treeOk_mark _ c nd Hc Hempty Htree).
  - intros s1 c nd _ _ (c0 & Hcur0 & Htree) Hcur Hc Hdone.
    rewrite Hcur in Hcur0. injection Hcur0 as <-.
    exists (match prevStep nd with Some p => p | None => c end).
    split; [cbn [atCursor nextStep]; destruct (prevStep nd); reflexivity |].
    cbn [atCursor heap]. apply (treeOk_pop _ c nd Hc Hdone Htree).
  - intros s1 c nd furthest minP maxP [_ Hok] _ (c0 & Hcur0 & Htree) Hcur Hc
           Hne Hprog _ _ _.
    rewrite Hcur in Hcur0. injection Hcur0 as <-.
    apply (treeOk_visit _ c nd _ _ _ _ Hok Hc Hprog Hne Htree).
Qed.

(** On a done node without parent and without links, every node of the
    store is done and without links. *)
Lemma treeOk_finished (h : list StepData) (c : nat) (nd : StepData) :
  treeOk h c -> h !! c = Some nd -> progress nd = SDP_Done ->
  prevStep nd = None -> recursiveOne nd = None -> recursiveTwo nd = None ->
  forall i ni, h !! i = Some ni ->
    progress ni = SDP_Done /\ recursiveOne ni = None /\
    recursiveTwo ni = None.
Proof.
  intros [Hlive Hlinks _ _] Hc Hdone Hprev Hone Htwo i ni Hi.
  assert (forall a, onPath h c a -> a = c) as Htop.
  { intros a Hpath.
    destruct (onPath_inv _ _ _ Hpath) as [-> | (nd0 & p & Hc0 & Hp & _)];
      [reflexivity |].
    rewrite Hc in Hc0. injection Hc0 as <-. congruence. }
  assert (progress ni = SDP_Done) as Hdi.
  { destruct (isDone (progress ni)) eqn:Hd; [apply isDone_true, Hd |].
    apply isDone_false in Hd. rename Hd into Hnot. exfalso.
    destruct (Hlive i ni Hi Hnot) as [Hpath | (a & na & Hpath & Ha & Hp)].
    - apply Htop in Hpath. subst i. rewrite Hc in Hi. injection Hi as <-.
      congruence.
    - apply Htop in Hpath. subst a. rewrite Hc in Ha. injection Ha as <-.
      destruct (pendingChild_not_done _ _ Hp); congruence. }
  split; [exact Hdi |].
  destruct (recursiveOne ni) as [k1 |] eqn:H1.
  - assert (i = c) as -> by (apply Htop, (Hlinks i ni Hi Hdi);
                             left; congruence).
    rewrite Hc in Hi. injection Hi as <-. congruence.
  - split; [reflexivity |].
    destruct (recursiveTwo ni) as [k2 |] eqn:H2; [| reflexivity].
    assert (i = c) as -> by (apply Htop, (Hlinks i ni Hi Hdi);
                             right; congruence).
    rewrite Hc in Hi. injection Hi as <-. congruence.
Qed.

(** ** The state a run ends in *)

Lemma step_false_cursor (s s' : QuickHull) :
  step s = Returns (false, s') ->
  exists c nd,
    nextStep s' = Some c /\ heap s' !! c = Some nd /\
    progress nd = SDP_Done /\ recursiveOne nd = None /\
    recursiveTwo nd = None /\ prevStep nd = None.
Proof.
  intros Hstep.
  destruct (step_hullPoints s false s' Hstep) as (h1 & h2 & cur & Hm & Hu & _).
  rewrite (step_after_unwind s h1 h2 cur false Hm Hu) in Hstep.
  injection Hstep as <-.
  destruct (unwindDone_false _ _ _ _ _ Hu) as (_ & c & nd & -> & H).
  exists c, nd. split; [reflexivity | exact H].
Qed.

(** The state the loop of [main] ends in, with what is kept along the
    way. *)
Lemma runSteps_final (I : QuickHull -> Prop) (fuel : nat) (s : QuickHull)
    (n : nat) (sf : QuickHull) :
  kept I -> wellFormed s -> I s -> runSteps fuel s = Returns (n, sf) ->
  wellFormed sf /\ I sf /\
  exists c nd,
    nextStep sf = Some c /\ heap sf !! c = Some nd /\
    progress nd = SDP_Done /\ recursiveOne nd = None /\
    recursiveTwo nd = None /\ prevStep nd = None.
Proof.
  intros Hkept Hwf HI Hrun.
  destruct (runSteps_calls fuel s n sf Hrun) as (_ & (sl & Hsl & Hlast) & _).
  destruct (stepN_ok (n - 1) s Hwf) as (sl' & Hsl' & Hwfl & _).
  rewrite Hsl in Hsl'. injection Hsl' as <-.
  destruct (step_ok sl Hwfl) as (more & s' & Hstep & Hwff & _).
  rewrite Hlast in Hstep. injection Hstep as <- <-.
  split; [exact Hwff |].
  split; [apply (runSteps_preserves I Hkept fuel s n sf Hwf HI Hrun) |].
  apply (step_false_cursor sl sf Hlast).
Qed.

(** X8.  When the loop of [main] stops, the cursor is back on the root,
    every node of the store is marked [SDP_Done] and every link from a
    node to a child has been reset by the loop of lines 276-287. *)
Theorem run_ends_all_done
    (pts : list Point) (qh s0 : QuickHull) (fuel n : nat) (sf : QuickHull) :
  setupInput pts qh = Returns s0 -> runSteps fuel s0 = Returns (n, sf) ->
  nextStep sf = Some 0 /\
  forall i nd, heap sf !! i = Some nd ->
    progress nd = SDP_Done /\ recursiveOne nd = None /\
    recursiveTwo nd = None.
Proof.
  intros Hsetup Hrun.
  destruct (setupInput_ok pts qh s0 Hsetup) as (Hwf0 & _).
  destruct (runSteps_final shapeOk fuel s0 n sf shapeOk_kept Hwf0
              (treeOk_setup pts qh s0 Hsetup) Hrun)
    as ([_ Hok] & (c' & Hcur' & Htree) &
        c & nd & Hcur & Hc & Hdone & Hone & Htwo & Hprev).
  rewrite Hcur in Hcur'. injection Hcur' as <-.
  split.
  - rewrite Hcur. f_equal. apply (ok_root _ _ _ (Hok c nd Hc)), Hprev.
  - apply (treeOk_finished (heap sf) c nd Htree Hc Hdone Hprev Hone Htwo).
Qed.

Lemma run_ends_all_done_witness :
  nextStep (squareState 7) = Some 0 /\
  forall i nd, heap (squareState 7) !! i = Some nd ->
    progress nd = SDP_Done /\ recursiveOne nd = None /\
    recursiveTwo nd = None.
Proof.
  apply (run_ends_all_done squareInput newQuickHull (squareState 0) 7 7).
  - vm_compute. reflexivity.
  - vm_compute. reflexivity.
Defined.

(** ** Counting the calls *)

Lemma sum_list_with_insert {A} (f : A -> nat) (l : list A) (i : nat)
    (a b : A) :
  l !! i = Some a ->
  sum_list_with f (<[i := b]> l) + f a = sum_list_with f l + f b.
Proof.
  revert i. induction l as [| a0 l IH]; intros i Hi; [discriminate |].
  destruct i as [| i].
  - injection Hi as ->. simpl. lia.
  - simpl. specialize (IH i Hi). lia.
Qed.

Lemma newStep_fresh (cur : option nat) (A B : Point) (pts : list Point) :
  foundOf (newStep cur A B pts) = 0 /\ visitsOf (newStep cur A B pts) = 0.
Proof.
  unfold foundOf, visitsOf, newStep; cbn [prevStep pointSet progress].
  destruct cur; destruct (sortPoints _); split; reflexivity.
Qed.

Lemma kindsOk_setup (pts : list Point) (qh s0 : QuickHull) :
  setupInput pts qh = Returns s0 -> kindsOk s0.
Proof.
  intros Hsetup.
  destruct (setupInput_Returns pts qh s0 Hsetup) as (minP & maxP & _ & _ & ->).
  unfold kindsOk, kindOk, newStep; cbn [heap].
  constructor; [cbn; split; congruence |].
  constructor; [cbn; split; congruence |].
  constructor; [cbn; split; congruence | constructor].
Qed.

Lemma kindsOk_kept : kept kindsOk.
Proof.
  split; [| split].
  - intros s c nd _ _ Hall _ Hc _. unfold kindsOk; cbn [atCursor heap].
    apply Forall_insert; [exact Hall |].
    unfold kindOk; cbn. split; discriminate.
  - intros s c nd _ _ Hall _ Hc _. unfold kindsOk; cbn [atCursor heap].
    apply Forall_insert; [exact Hall |].
    apply (Forall_lookup_1 _ _ _ _ Hall Hc).
  - intros s c nd furthest minP maxP _ _ Hall _ Hc _ _ _ _ _.
    unfold kindsOk, visited. destruct (progress nd); cbn [heap].
    + apply Forall_app_2.
      * apply Forall_insert; [exact Hall |].
        unfold kindOk; cbn. split; discriminate.
      * unfold kindOk, newStep.
        constructor; [cbn; split; congruence |].
        constructor; [cbn; split; congruence | constructor].
    + apply Forall_insert; [exact Hall |].
      unfold kindOk; cbn. split; discriminate.
    + exact Hall.
    + apply Forall_insert; [exact Hall |].
      unfold kindOk; cbn. split; discriminate.
Qed.

Lemma foundOk_setup (pts : list Point) (qh s0 : QuickHull) :
  setupInput pts qh = Returns s0 -> foundOk s0.
Proof.
  intros Hsetup.
  destruct (setupInput_Returns pts qh s0 Hsetup) as (minP & maxP & _ & _ & ->).
  unfold foundOk, found; cbn [heap hullPoints sum_list_with].
  rewrite !(proj1 (newStep_fresh _ _ _ _)). reflexivity.
Qed.

Lemma foundOk_kept : keptByMoves kindsOk foundOk.
Proof.
  split; [| split].
  - intros s c nd _ _ Hfound _ Hc Hempty.
    unfold foundOk in *; cbn [atCursor heap hullPoints].
    pose proof (sum_list_with_insert foundOf (heap s) c nd
                  (setProgress SDP_Done nd) Hc) as Hsum.
    unfold found. unfold found in Hfound.
    replace (foundOf (setProgress SDP_Done nd)) with 0 in Hsum
      by (unfold foundOf; cbn; rewrite Hempty; destruct (prevStep nd);
          reflexivity).
    replace (foundOf nd) with 0 in Hsum
      by (unfold foundOf; rewrite Hempty; destruct (prevStep nd);
          reflexivity).
    lia.
  - intros s c nd _ _ Hfound _ Hc _.
    unfold foundOk in *; cbn [atCursor heap hullPoints].
    pose proof (sum_list_with_insert foundOf (heap s) c nd
                  (setRecursive None None nd) Hc) as Hsum.
    unfold found. unfold found in Hfound.
    change (foundOf (setRecursive None None nd)) with (foundOf nd) in Hsum.
    lia.
  - intros s c nd furthest minP maxP _ Hkinds Hfound _ Hc Hne Hprog _ _ _.
    destruct (Forall_lookup_1 _ _ _ _ Hkinds Hc) as [Hone Hfirst].
    unfold foundOk in *. unfold found in *.
    destruct (pointSet nd) as [| p0 rest] eqn:Hpts; [congruence |].
    unfold visited. destruct (progress nd) eqn:Hpr;
      cbn [heap hullPoints].
    + destruct (prevStep nd) as [p |] eqn:Hprev;
        [| exfalso; apply Hone; reflexivity].
      pose proof (sum_list_with_insert foundOf (heap s) c nd
                    (setProgress SDP_RecurseTwo
                       (setRecursive (Some (S (length (heap s))))
                          (Some (length (heap s))) nd)) Hc) as Hsum.
      replace (foundOf nd) with 0 in Hsum
        by (unfold foundOf; rewrite Hprev, Hpts, Hpr; reflexivity).
      replace (foundOf (setProgress SDP_RecurseTwo
                       (setRecursive (Some (S (length (heap s))))
                          (Some (length (heap s))) nd))) with 1 in Hsum
        by (unfold foundOf; cbn; rewrite Hprev, Hpts; reflexivity).
      rewrite sum_list_with_app, length_app. cbn [length sum_list_with].
      rewrite !(proj1 (newStep_fresh _ _ _ _)). lia.
    + pose proof (sum_list_with_insert foundOf (heap s) c nd
                    (setProgress SDP_Done nd) Hc) as Hsum.
      replace (foundOf (setProgress SDP_Done nd)) with (foundOf nd) in Hsum
        by (unfold foundOf; cbn; rewrite Hpts, Hpr; reflexivity).
      lia.
    + exact Hfound.
    + pose proof (sum_list_with_insert foundOf (heap s) c nd
                    (setProgress SDP_RecurseTwo nd) Hc) as Hsum.
      replace (foundOf nd) with 0 in Hsum
        by (unfold foundOf; rewrite Hpts, Hpr; destruct (prevStep nd);
            reflexivity).
      replace (foundOf (setProgress SDP_RecurseTwo nd)) with 0 in Hsum
        by (unfold foundOf; cbn; rewrite (Hfirst eq_refl); reflexivity).
      lia.
Qed.

(** The loop and the marking visit no node. *)
Lemma markEmptyDone_visits (h : list StepData) (cur : option nat)
    (h1 : list StepData) :
  markEmptyDone h cur = Returns h1 -> visits h1 = visits h.
Proof.
  unfold markEmptyDone. intros Hmark.
  destruct (load h cur) as [nd | | |] eqn:Hload; try discriminate.
  apply load_Returns in Hload. destruct Hload as (c & -> & Hc).
  cbn [bind] in Hmark.
  destruct (pointSet nd) as [| p0 rest] eqn:Hpts;
    injection Hmark as <-; [| reflexivity].
  pose proof (sum_list_with_insert visitsOf h c nd
                (setProgress SDP_Done nd) Hc) as Hsum.
  unfold visits.
  replace (visitsOf (setProgress SDP_Done nd)) with 0 in Hsum
    by (unfold visitsOf; cbn; rewrite Hpts; reflexivity).
  replace (visitsOf nd) with 0 in Hsum
    by (unfold visitsOf; rewrite Hpts; reflexivity).
  lia.
Qed.

Lemma unwindDone_visits (fuel : nat) :
  forall (h : list StepData) (cur : option nat) (h' : list StepData)
         (cur' : option nat) (more : bool),
    unwindDone fuel h cur = Returns (h', cur', more) ->
    visits h' = visits h.
Proof.
  induction fuel as [| fuel IH]; intros h cur h' cur' more Hrun;
    [discriminate |].
  cbn [unwindDone] in Hrun.
  destruct (load h cur) as [nd | | |] eqn:Hload; try discriminate.
  apply load_Returns in Hload. destruct Hload as (c & -> & Hc).
  cbn [bind] in Hrun.
  assert (visits (<[c := setRecursive None None nd]> h) = visits h) as Hsame.
  { pose proof (sum_list_with_insert visitsOf h c nd
                  (setRecursive None None nd) Hc) as Hsum.
    change (visitsOf (setRecursive None None nd)) with (visitsOf nd) in Hsum.
    unfold visits. lia. }
  destruct (isDone (progress nd)).
  - destruct (prevStep nd) as [p |].
    + rewrite (IH _ _ _ _ _ Hrun). exact Hsame.
    + injection Hrun as <- <- <-. exact Hsame.
  - injection Hrun as <- <- <-. reflexivity.
Qed.

Lemma visited_visits (h : list StepData) (c : nat) (nd : StepData)
    (furthest minP maxP : Point) (s : QuickHull) :
  h !! c = Some nd -> pointSet nd <> [] -> progress nd <> SDP_Done ->
  visits (heap (visited h c nd furthest minP maxP s)) = S (visits h).
Proof.
  intros Hc Hne Hprog.
  destruct (pointSet nd) as [| p0 rest] eqn:Hpts; [congruence |].
  unfold visits, visited.
  destruct (progress nd) eqn:Hpr; cbn [heap]; [| | congruence |].
  - pose proof (sum_list_with_insert visitsOf h c nd
                  (setProgress SDP_RecurseTwo
                     (setRecursive (Some (S (length h))) (Some (length h))
                        nd)) Hc) as Hsum.
    replace (visitsOf nd) with 0 in Hsum
      by (unfold visitsOf; rewrite Hpts, Hpr; reflexivity).
    replace (visitsOf (setProgress SDP_RecurseTwo
                     (setRecursive (Some (S (length h))) (Some (length h))
                        nd))) with 1 in Hsum
      by (unfold visitsOf; cbn; rewrite Hpts; reflexivity).
    rewrite sum_list_with_app. cbn [sum_list_with].
    rewrite !(proj2 (newStep_fresh _ _ _ _)). lia.
  - pose proof (sum_list_with_insert visitsOf h c nd
                  (setProgress SDP_Done nd) Hc) as Hsum.
    replace (visitsOf nd) with 1 in Hsum
      by (unfold visitsOf; rewrite Hpts, Hpr; reflexivity).
    replace (visitsOf (setProgress SDP_Done nd)) with 2 in Hsum
      by (unfold visitsOf; cbn; rewrite Hpts; reflexivity).
    lia.
  - pose proof (sum_list_with_insert visitsOf h c nd
                  (setProgress SDP_RecurseTwo nd) Hc) as Hsum.
    replace (visitsOf nd) with 0 in Hsum
      by (unfold visitsOf; rewrite Hpts, Hpr; reflexivity).
    replace (visitsOf (setProgress SDP_RecurseTwo nd)) with 1 in Hsum
      by (unfold visitsOf; cbn; rewrite Hpts; reflexivity).
    lia.
Qed.

(** A call that returns [true] is one visit; the call that returns [false]
    is none. *)
Lemma step_visits (s : QuickHull) (more : bool) (s' : QuickHull) :
  step s = Returns (more, s') ->
  visits (heap s') = (if more then 1 else 0) + visits (heap s).
Proof.
  intros Hstep.
  destruct (step_hullPoints s more s' Hstep) as (h1 & h2 & cur & Hm & Hu & _).
  rewrite (step_after_unwind s h1 h2 cur more Hm Hu) in Hstep.
  pose proof (markEmptyDone_visits _ _ _ Hm) as V1.
  pose proof (unwindDone_visits _ _ _ _ _ _ Hu) as V2.
  destruct more.
  - destruct (visit h2 cur s) as [sv | | |] eqn:Hvisit; try discriminate.
    injection Hstep as <-.
    destruct (unwindDone_true _ _ _ _ _ Hu) as (c & nd & -> & Hc & Hprog).
    destruct (visit_inv _ _ _ _ Hvisit)
      as (c' & nd' & furthest & minP & maxP & [= <-] & Hc' & Hne & _ & ->).
    rewrite Hc in Hc'. injection Hc' as <-.
    rewrite (visited_visits h2 c nd furthest minP maxP s Hc Hne Hprog). lia.
  - injection Hstep as <-. cbn [heap]. lia.
Qed.

Lemma runSteps_visits (fuel : nat) :
  forall (s : QuickHull) (n : nat) (sf : QuickHull),
    runSteps fuel s = Returns (n, sf) ->
    visits (heap sf) + 1 = visits (heap s) + n.
Proof.
  induction fuel as [| fuel IH]; intros s n sf Hrun; [discriminate |].
  cbn [runSteps] in Hrun.
  destruct (step s) as [[more s1] | | |] eqn:Hstep; try discriminate.
  cbn [bind] in Hrun. pose proof (step_visits s more s1 Hstep) as Hv.
  destruct more.
  - destruct (runSteps fuel s1) as [[n' sf'] | | |] eqn:Hrest;
      try discriminate.
    cbn [bind] in Hrun. injection Hrun as <- <-.
    specialize (IH s1 n' sf' Hrest). lia.
  - injection Hrun as <- <-. lia.
Qed.

(** On a store of done nodes that all have a parent, each node that gave
    a hull point was visited twice, and no other node was visited. *)
Lemma visits_found_done (l : list StepData) :
  Forall (fun nd => progress nd = SDP_Done /\ prevStep nd <> None) l ->
  visits l = 2 * found l.
Proof.
  unfold visits, found. induction 1 as [| nd l [Hdone Hprev] _ IH];
    [reflexivity |].
  cbn [sum_list_with]. rewrite IH. unfold visitsOf, foundOf.
  rewrite Hdone. destruct (prevStep nd); [| congruence].
  destruct (pointSet nd); lia.
Qed.

Lemma setupInput_visits (pts : list Point) (qh s0 : QuickHull) :
  setupInput pts qh = Returns s0 -> visits (heap s0) = 0.
Proof.
  intros Hsetup.
  destruct (setupInput_Returns pts qh s0 Hsetup) as (minP & maxP & _ & _ & ->).
  unfold visits; cbn [heap sum_list_with].
  rewrite !(proj2 (newStep_fresh _ _ _ _)).
  unfold visitsOf; cbn [pointSet progress].
  destruct (sortPoints pts); reflexivity.
Qed.

(** The state the loop of [main] ends in after [randomizeInput]. *)
Lemma run_final (pts : list Point) (qh s0 : QuickHull) (fuel n : nat)
    (sf : QuickHull) :
  setupInput pts qh = Returns s0 -> runSteps fuel s0 = Returns (n, sf) ->
  wellFormed sf /\ contentsOk sf /\ kindsOk sf /\ foundOk sf /\
  nextStep sf = Some 0 /\
  forall i nd, heap sf !! i = Some nd ->
    progress nd = SDP_Done /\ recursiveOne nd = None /\
    recursiveTwo nd = None.
Proof.
  intros Hsetup Hrun.
  destruct (setupInput_ok pts qh s0 Hsetup) as (Hwf0 & _).
  destruct (runSteps_final shapeOk fuel s0 n sf shapeOk_kept Hwf0
              (treeOk_setup pts qh s0 Hsetup) Hrun)
    as (Hwf & (c' & Hcur' & Htree) &
        c & nd & Hcur & Hc & Hdone & Hone & Htwo & Hprev).
  rewrite Hcur in Hcur'. injection Hcur' as <-.
  destruct (runSteps_final contentsOk fuel s0 n sf contentsOk_kept Hwf0
              (contentsOk_setup pts qh s0 Hsetup) Hrun) as (_ & Hcont & _).
  destruct (runSteps_final _ fuel s0 n sf
              (kept_conj _ _ kindsOk_kept foundOk_kept) Hwf0
              (conj (kindsOk_setup pts qh s0 Hsetup)
                    (foundOk_setup pts qh s0 Hsetup)) Hrun)
    as (_ & [Hkinds Hfound] & _).
  split; [exact Hwf |]. split; [exact Hcont |]. split; [exact Hkinds |].
  split; [exact Hfound |]. split.
  - rewrite Hcur. f_equal. destruct Hwf as [_ Hok].
    apply (ok_root _ _ _ (Hok c nd Hc)), Hprev.
  - apply (treeOk_finished (heap sf) c nd Htree Hc Hdone Hprev Hone Htwo).
Qed.

Lemma runSteps_count
    (pts : list Point) (qh s0 : QuickHull) (fuel n : nat) (sf : QuickHull) :
  setupInput pts qh = Returns s0 -> runSteps fuel s0 = Returns (n, sf) ->
  n = length (heap sf) /\ n = 2 * length (hullPoints sf) - 1.
Proof.
  intros Hsetup Hrun.
  destruct (run_final pts qh s0 fuel n sf Hsetup Hrun)
    as ([_ Hok] & (_ & _ & Hcount) & _ & Hfound & _ & Hdone).
  pose proof (runSteps_visits fuel s0 n sf Hrun) as Hvisits.
  rewrite (setupInput_visits pts qh s0 Hsetup) in Hvisits.
  unfold foundOk in Hfound.
  destruct (heap sf) as [| root rest] eqn:Hheap; [cbn in Hcount; lia |].
  assert (visits rest = 2 * found rest) as Hrest.
  { apply visits_found_done. apply Forall_lookup_2. intros i nd Hi.
    split; [apply (Hdone (S i) nd Hi) |].
    intros Hnone. apply (ok_root _ _ _ (Hok (S i) nd Hi)) in Hnone.
    discriminate. }
  assert (visitsOf root = 2 /\ foundOf root = 0) as [Hvr Hfr].
  { destruct (Hdone 0 root eq_refl) as (Hd & _).
    pose proof (Hok 0 root eq_refl) as Hroot.
    assert (prevStep root = None) as Hnone
      by (apply (ok_root _ _ _ Hroot); reflexivity).
    destruct (ok_root_ends _ _ _ Hroot Hnone) as [HA _].
    unfold visitsOf, foundOf. rewrite Hd, Hnone.
    destruct (pointSet root); [destruct HA | split; reflexivity]. }
  unfold visits, found in *. cbn [sum_list_with length] in *. lia.
Qed.

(** X9.  The loop of [main] calls [step] once for every node the
    computation allocates, the root and the two children of the root
    included: one call less than twice the number of hull points it
    finds. *)
Theorem run_calls_once_per_node
    (pts : list Point) (qh s0 : QuickHull) (fuel n : nat) (sf : QuickHull) :
  setupInput pts qh = Returns s0 -> runSteps fuel s0 = Returns (n, sf) ->
  n = length (heap sf) /\ n = 2 * length (hullPoints sf) - 1.
Proof. apply runSteps_count. Qed.

Lemma run_calls_once_per_node_witness :
  7 = length (heap (squareState 7)) /\
  7 = 2 * length (hullPoints (squareState 7)) - 1.
Proof.
  apply (run_calls_once_per_node squareInput newQuickHull (squareState 0) 7).
  - vm_compute. reflexivity.
  - vm_compute. reflexivity.
Defined.

(** ** No hull point twice *)

Lemma window_exact (A B q : Point) :
  inWindow A -> inWindow B -> inWindow q ->
  determinant A B q = exactDeterminant A B q /\
  absDeterminant A B q = Z.abs (exactDeterminant A B q).
Proof.
  intros HA HB Hq. apply noOverflow_exact, inWindow_noOverflow; assumption.
Qed.

Lemma exactDeterminant_split (A B F q : Point) :
  (exactDeterminant A F q + exactDeterminant F B q
   = exactDeterminant A B q - exactDeterminant A B F)%Z.
Proof. unfold exactDeterminant. ring. Qed.

Lemma exactDeterminant_swap (A B q : Point) :
  (exactDeterminant B A q = - exactDeterminant A B q)%Z.
Proof. unfold exactDeterminant. ring. Qed.

(** No point is on the right of both segments [prepareNextRecursion]
    builds from a furthest point. *)
Lemma split_sides (A B F q : Point) :
  inWindow A -> inWindow B -> inWindow F -> inWindow q ->
  (determinant A B q < 0)%Z -> (determinant A B F < 0)%Z ->
  (absDeterminant A B q <= absDeterminant A B F)%Z ->
  (determinant A F q < 0)%Z -> (determinant F B q < 0)%Z -> False.
Proof.
  intros HA HB HF Hq.
  destruct (window_exact A B q HA HB Hq) as [-> ->].
  destruct (window_exact A B F HA HB HF) as [-> ->].
  destruct (window_exact A F q HA HF Hq) as [-> _].
  destruct (window_exact F B q HF HB Hq) as [-> _].
  pose proof (exactDeterminant_split A B F q). lia.
Qed.

Lemma opposite_sides (A B q : Point) :
  inWindow A -> inWindow B -> inWindow q ->
  (determinant A B q < 0)%Z -> (determinant B A q < 0)%Z -> False.
Proof.
  intros HA HB Hq.
  destruct (window_exact A B q HA HB Hq) as [-> _].
  destruct (window_exact B A q HB HA Hq) as [-> _].
  rewrite exactDeterminant_swap. lia.
Qed.

Lemma calculateFurthestPoint_max (A B furthest : Point) (pts : list Point) :
  calculateFurthestPoint A B pts = Returns furthest ->
  forall q, In q pts ->
    (absDeterminant A B q <= absDeterminant A B furthest)%Z.
Proof.
  intros Hfur q Hq.
  assert (pts <> []) as Hne by (intros ->; destruct Hq).
  destruct (calculateFurthestPoint_first_max A B pts Hne)
    as (f & l1 & l2 & Hf & Hpts & Hlt & Hle).
  rewrite Hfur in Hf. injection Hf as <-.
  rewrite Hpts in Hq. apply in_app_or in Hq.
  destruct Hq as [Hq | [<- | Hq]];
    [specialize (Hlt q Hq); lia | lia | apply Hle, Hq].
Qed.

Lemma newStep_In (cur : option nat) (A B q : Point) (pts : list Point) :
  In q (pointSet (newStep cur A B pts)) ->
  In q pts /\ q <> A /\ q <> B /\ (determinant A B q < 0)%Z.
Proof.
  cbn [newStep pointSet]. intros Hq.
  apply sortPoints_In, calcPointsOnRightSide_In in Hq. exact Hq.
Qed.

Lemma exactOk_kept : kept exactOk.
Proof.
  apply kept_conj; [apply kept_conj; [apply contentsOk_kept|] |].
  - destruct kindsOk_kept as (Hm & Hp & Hv).
    split; [| split].
    + intros s c nd Hwf _. apply (Hm s c nd Hwf Logic.I).
    + intros s c nd Hwf _. apply (Hp s c nd Hwf Logic.I).
    + intros s c nd furthest minP maxP Hwf _.
      apply (Hv s c nd furthest minP maxP Hwf Logic.I).
  - split; [| split].
    + intros s c nd _ _ Hwin _ _ _. exact Hwin.
    + intros s c nd _ _ Hwin _ _ _. exact Hwin.
    + intros s c nd furthest minP maxP _ _ Hwin _ _ _ _ _ _ _.
      unfold windowOk, visited. destruct (progress nd); exact Hwin.
Qed.

Lemma distinctOk_kept : keptByMoves exactOk distinctOk.
Proof.
  split; [| split].
  - (* the marking *)
    intros s c nd _ _ (Hnodup & Hhull & Hpair) _ Hc _.
    pose proof (lookup_lt_Some _ _ _ Hc) as Hclt.
    split; [| split]; cbn [atCursor heap hullPoints].
    + exact Hnodup.
    + intros i ni Hi Hone.
      destruct (lookup_insert_cases _ _ _ _ _ Hclt Hi) as [[_ ->] | [_ Hi']];
        [discriminate | apply (Hhull i ni Hi' Hone)].
    + intros i j ni nj Hij Hi Hj Hone Hone'.
      destruct (lookup_insert_cases _ _ _ _ _ Hclt Hi) as [[_ ->] | [_ Hi']];
        [discriminate |].
      destruct (lookup_insert_cases _ _ _ _ _ Hclt Hj) as [[_ ->] | [_ Hj']];
        [discriminate |].
      apply (Hpair i j ni nj Hij Hi' Hj' Hone Hone').
  - (* one turn of the loop *)
    intros s c nd _ _ (Hnodup & Hhull & Hpair) _ Hc Hdone.
    pose proof (lookup_lt_Some _ _ _ Hc) as Hclt.
    split; [| split]; cbn [atCursor heap hullPoints].
    + exact Hnodup.
    + intros i ni Hi Hone.
      destruct (lookup_insert_cases _ _ _ _ _ Hclt Hi) as [[_ ->] | [_ Hi']];
        [cbn in Hone; congruence | apply (Hhull i ni Hi' Hone)].
    + intros i j ni nj Hij Hi Hj Hone Hone'.
      destruct (lookup_insert_cases _ _ _ _ _ Hclt Hi) as [[_ ->] | [_ Hi']];
        [cbn in Hone; congruence |].
      destruct (lookup_insert_cases _ _ _ _ _ Hclt Hj) as [[_ ->] | [_ Hj']];
        [cbn in Hone'; congruence |].
      apply (Hpair i j ni nj Hij Hi' Hj' Hone Hone').
  - (* the visit *)
    intros s c nd furthest minP maxP _ [[(Hall & _) Hkinds] Hwin]
           (Hnodup & Hhull & Hpair) _ Hc Hne Hprog Hfur _ _.
    pose proof (lookup_lt_Some _ _ _ Hc) as Hclt.
    assert (forall x,
              progress x <> SDP_RecurseOne ->
              distinctOk
                (mkQuickHull (<[c := x]> (heap s)) (basePointList s)
                   (hullPoints s) (nextStep s) (center s) (minPoint s)
                   (maxPoint s) (furthestStore s))) as Hother.
    { intros x Hx. split; [| split]; cbn [heap hullPoints].
      - exact Hnodup.
      - intros i ni Hi Hone.
        destruct (lookup_insert_cases _ _ _ _ _ Hclt Hi)
          as [[_ ->] | [_ Hi']];
          [congruence | apply (Hhull i ni Hi' Hone)].
      - intros i j ni nj Hij Hi Hj Hone Hone'.
        destruct (lookup_insert_cases _ _ _ _ _ Hclt Hi)
          as [[_ ->] | [_ Hi']]; [congruence |].
        destruct (lookup_insert_cases _ _ _ _ _ Hclt Hj)
          as [[_ ->] | [_ Hj']]; [congruence |].
        apply (Hpair i j ni nj Hij Hi' Hj' Hone Hone'). }
    unfold visited. destruct (progress nd) eqn:Hpr.
    + (* the first visit of a node with a parent *)
      destruct (Forall_lookup_1 _ _ _ _ Hall Hc)
        as (_ & Hsub & HA & HB & Hneg).
      destruct (Forall_lookup_1 _ _ _ _ Hkinds Hc) as [Hparent _].
      specialize (Hneg (Hparent Hpr)).
      pose proof (calculateFurthestPoint_In _ _ _ _ Hfur) as HinF.
      pose proof (calculateFurthestPoint_max _ _ _ _ Hfur) as Hmax.
      set (x := setProgress SDP_RecurseTwo
                  (setRecursive (Some (S (length (heap s))))
                     (Some (length (heap s))) nd)).
      set (l := newStep (Some c) (segmentA nd) furthest (pointSet nd)).
      set (r := newStep (Some c) furthest (segmentB nd) (pointSet nd)).
      assert (forall q, In q (pointSet l) -> In q (pointSet r) -> False)
        as Hgeo.
      { intros q Hl Hr. apply newStep_In in Hl, Hr.
        destruct Hl as (Hq & _ & _ & Hl), Hr as (_ & _ & _ & Hr).
        apply (split_sides (segmentA nd) (segmentB nd) furthest q);
          try assumption.
        - apply Hwin, HA.
        - apply Hwin, HB.
        - apply Hwin, Hsub, HinF.
        - apply Hwin, Hsub, Hq.
        - apply Hneg, Hq.
        - apply Hneg, HinF.
        - apply Hmax, Hq. }
      assert (forall i ni, (<[c := x]> (heap s) ++ [l; r]) !! i = Some ni ->
                progress ni = SDP_RecurseOne ->
                (i <> c /\ i < length (heap s) /\ heap s !! i = Some ni) \/
                (i = length (heap s) /\ ni = l) \/
                (i = S (length (heap s)) /\ ni = r)) as Hcases.
      { intros i ni Hi Hone.
        destruct (lookup_built_cases _ _ _ _ _ _ _ Hclt Hi)
          as [[_ ->] | Hrest]; [discriminate | exact Hrest]. }
      assert (forall i ni, i <> c -> heap s !! i = Some ni ->
                progress ni = SDP_RecurseOne ->
                forall q, In q (pointSet ni) -> ~ In q (pointSet nd))
        as Hold.
      { intros i ni Hic Hi Hone q Hq.
        apply (Hpair i c ni nd Hic Hi Hc Hone Hpr q Hq). }
      split; [| split]; cbn [heap hullPoints].
      * apply NoDup_app. split; [exact Hnodup |].
        split; [| apply NoDup_singleton].
        intros p Hp Hp'. apply list_elem_of_In in Hp, Hp'.
        destruct Hp' as [<- | []].
        apply (Hhull c nd Hc Hpr furthest HinF Hp).
      * intros i ni Hi Hone q Hq Hin. apply in_app_or in Hin.
        destruct (Hcases i ni Hi Hone)
          as [(Hic & _ & Hi') | [[_ ->] | [_ ->]]].
        -- destruct Hin as [Hin | [<- | []]].
           ++ apply (Hhull i ni Hi' Hone q Hq Hin).
           ++ apply (Hold i ni Hic Hi' Hone furthest Hq HinF).
        -- apply newStep_In in Hq. destruct Hq as (Hq & _ & HqF & _).
           destruct Hin as [Hin | [<- | []]];
             [apply (Hhull c nd Hc Hpr q Hq Hin) | congruence].
        -- apply newStep_In in Hq. destruct Hq as (Hq & HqF & _ & _).
           destruct Hin as [Hin | [<- | []]];
             [apply (Hhull c nd Hc Hpr q Hq Hin) | congruence].
      * intros i j ni nj Hij Hi Hj Hone Hone' q Hq Hq'.
        destruct (Hcases i ni Hi Hone)
          as [(Hic & _ & Hi') | [[Hil ->] | [Hir ->]]];
          destruct (Hcases j nj Hj Hone')
            as [(Hjc & _ & Hj') | [[Hjl ->] | [Hjr ->]]];
          try lia.
        -- apply (Hpair i j ni nj Hij Hi' Hj' Hone Hone' q Hq Hq').
        -- apply newStep_In in Hq'.
           apply (Hold i ni Hic Hi' Hone q Hq), Hq'.
        -- apply newStep_In in Hq'.
           apply (Hold i ni Hic Hi' Hone q Hq), Hq'.
        -- apply newStep_In in Hq.
           apply (Hold j nj Hjc Hj' Hone' q Hq'), Hq.
        -- apply (Hgeo q Hq Hq').
        -- apply newStep_In in Hq.
           apply (Hold j nj Hjc Hj' Hone' q Hq'), Hq.
        -- apply (Hgeo q Hq' Hq).
    + apply (Hother (setProgress SDP_Done nd)). discriminate.
    + congruence.
    + apply (Hother (setProgress SDP_RecurseTwo nd)). discriminate.
Qed.

Lemma setupInput_ends_differ (pts : list Point) (minP maxP : Point) :
  (exists p q, In p pts /\ In q pts /\ p <> q) ->
  index (sortPoints pts) 0 = Returns minP ->
  index (sortPoints pts) (length (sortPoints pts) - 1) = Returns maxP ->
  minP <> maxP.
Proof.
  intros (p & q & Hp & Hq & Hpq) Hmin Hmax Heq. subst maxP.
  pose proof (Sorted_first_last (sortPoints pts) minP minP
                (sortPoints_Sorted pts) Hmin Hmax) as Hbetween.
  assert (forall a, In a pts -> a = minP) as Hall.
  { intros a Ha. apply sortPoints_In in Ha.
    destruct (Hbetween a Ha) as [H1 H2].
    apply (anti_symm pointLe); assumption. }
  apply Hpq. rewrite (Hall p Hp), (Hall q Hq). reflexivity.
Qed.

Lemma distinctOk_setup (pts : list Point) (qh s0 : QuickHull) :
  Forall inWindow pts ->
  (exists p q, In p pts /\ In q pts /\ p <> q) ->
  setupInput pts qh = Returns s0 -> distinctOk s0.
Proof.
  intros Hwin Htwo Hsetup.
  destruct (setupInput_Returns pts qh s0 Hsetup)
    as (minP & maxP & Hmin & Hmax & ->).
  pose proof (setupInput_ends_differ pts minP maxP Htwo Hmin Hmax) as Hdiff.
  rewrite List.Forall_forall in Hwin.
  assert (forall p, In p (sortPoints pts) -> inWindow p) as Hwin'
    by (intros p Hp; apply Hwin, sortPoints_In, Hp).
  apply index_In in Hmin, Hmax.
  set (root := mkStepData (sortPoints pts) minP maxP SDP_FirstIteration
                 (Some 2) (Some 1) None).
  set (l := newStep (Some 0) minP maxP (sortPoints pts)).
  set (r := newStep (Some 0) maxP minP (sortPoints pts)).
  assert (forall i ni, [root; l; r] !! i = Some ni ->
            progress ni = SDP_RecurseOne ->
            (i = 1 /\ ni = l) \/ (i = 2 /\ ni = r)) as Hcases.
  { intros i ni Hi Hone.
    destruct i as [| [| [| i]]]; cbn in Hi; try discriminate;
      injection Hi as <-; [discriminate | left | right];
      split; reflexivity. }
  assert (forall q, In q (pointSet l) -> In q (pointSet r) -> False) as Hgeo.
  { intros q Hl Hr. apply newStep_In in Hl, Hr.
    destruct Hl as (Hq & _ & _ & Hl), Hr as (_ & _ & _ & Hr).
    apply (opposite_sides minP maxP q); try assumption; apply Hwin';
      assumption. }
  split; [| split]; cbn [heap hullPoints].
  - apply NoDup_cons. split; [| apply NoDup_singleton].
    intros Hin. apply list_elem_of_In in Hin.
    destruct Hin as [<- | []]. congruence.
  - intros i ni Hi Hone q Hq Hin.
    destruct (Hcases i ni Hi Hone) as [[_ ->] | [_ ->]];
      apply newStep_In in Hq; destruct Hq as (_ & H1 & H2 & _);
      destruct Hin as [<- | [<- | []]]; congruence.
  - intros i j ni nj Hij Hi Hj Hone Hone' q Hq Hq'.
    destruct (Hcases i ni Hi Hone) as [[-> ->] | [-> ->]];
      destruct (Hcases j nj Hj Hone') as [[-> ->] | [-> ->]];
      try congruence.
    + apply (Hgeo q Hq Hq').
    + apply (Hgeo q Hq' Hq).
Qed.

Lemma exactOk_setup (pts : list Point) (qh s0 : QuickHull) :
  Forall inWindow pts -> setupInput pts qh = Returns s0 -> exactOk s0.
Proof.
  intros Hwin Hsetup.
  split; [split |].
  - apply (contentsOk_setup pts qh s0 Hsetup).
  - apply (kindsOk_setup pts qh s0 Hsetup).
  - destruct (setupInput_ok pts qh s0 Hsetup) as (_ & Hbase & _).
    unfold windowOk. rewrite Hbase. rewrite List.Forall_forall in Hwin.
    intros p Hp. apply Hwin, sortPoints_In, Hp.
Qed.

Lemma distinct_kept : kept (fun s => exactOk s /\ distinctOk s).
Proof. apply kept_conj; [apply exactOk_kept | apply distinctOk_kept]. Qed.

Lemma distinct_bound (pts : list Point) (s : QuickHull) :
  basePointList s = sortPoints pts -> contentsOk s -> distinctOk s ->
  length (hullPoints s) <= length pts.
Proof.
  intros Hbase (_ & Hhull & _) (Hnodup & _).
  apply NoDup_incl_length; [apply NoDup_ListNoDup, Hnodup |].
  intros p Hp. apply sortPoints_In. rewrite <- Hbase. apply Hhull, Hp.
Qed.

(** X10.  For an input within the margins of the window with two
    distinct points, no point is in [hullPoints] twice, in any state of
    the computation; so the hull has no more points than the input. *)
Theorem hull_points_distinct
    (pts : list Point) (qh s0 : QuickHull) (n : nat) (s : QuickHull) :
  Forall inWindow pts ->
  (exists p q, In p pts /\ In q pts /\ p <> q) ->
  setupInput pts qh = Returns s0 -> stepN n s0 = Returns s ->
  NoDup (hullPoints s) /\ length (hullPoints s) <= length pts.
Proof.
  intros Hwin Htwo Hsetup Hrun.
  destruct (setupInput_ok pts qh s0 Hsetup) as (Hwf0 & Hbase0 & _).
  destruct (stepN_extends n s0 s Hrun) as [_ Hbase].
  destruct (stepN_preserves _ distinct_kept n s0 s Hwf0
              (conj (exactOk_setup pts qh s0 Hwin Hsetup)
                    (distinctOk_setup pts qh s0 Hwin Htwo Hsetup)) Hrun)
    as [[[Hcont _] _] Hdist].
  split; [apply Hdist |].
  apply (distinct_bound pts s); [congruence | exact Hcont | exact Hdist].
Qed.

Lemma hull_points_distinct_witness :
  exists s0 s,
    setupInput [mkPoint 10 10; mkPoint 20 10; mkPoint 20 20; mkPoint 10 20;
                mkPoint 15 15] newQuickHull = Returns s0 /\
    stepN 4 s0 = Returns s /\
    NoDup (hullPoints s) /\ length (hullPoints s) <= 5.
Proof.
  pose (pts := [mkPoint 10 10; mkPoint 20 10; mkPoint 20 20; mkPoint 10 20;
                mkPoint 15 15]).
  pose (s0 := orElse newQuickHull (setupInput pts newQuickHull)).
  pose (s := orElse newQuickHull (stepN 4 s0)).
  exists s0, s.
  split; [vm_compute; reflexivity |]. split; [vm_compute; reflexivity |].
  apply (hull_points_distinct pts newQuickHull s0 4 s).
  - apply List.Forall_forall. intros p Hp. unfold inWindow.
    rewrite pointXmax_value, pointYmax_value. unfold windowMargin.
    repeat (destruct Hp as [<- | Hp]; [cbn [x y]; lia |]). destruct Hp.
  - exists (mkPoint 10 10), (mkPoint 20 10).
    split; [left; reflexivity |].
    split; [right; left; reflexivity | discriminate].
  - vm_compute. reflexivity.
  - vm_compute. reflexivity.
Defined.

(** More fuel than the calls made changes nothing. *)
Lemma runSteps_fuel (fuel : nat) :
  forall (s : QuickHull) (n : nat) (sf : QuickHull) (fuel' : nat),
    runSteps fuel s = Returns (n, sf) -> n <= fuel' ->
    runSteps fuel' s = Returns (n, sf).
Proof.
  induction fuel as [| fuel IH]; intros s n sf fuel' Hrun Hle;
    [discriminate |].
  cbn [runSteps] in Hrun.
  destruct (step s) as [[more s1] | | |] eqn:Hstep; try discriminate.
  cbn [bind] in Hrun. destruct more.
  - destruct (runSteps fuel s1) as [[n' sf'] | | |] eqn:Hrest;
      try discriminate.
    cbn [bind] in Hrun. injection Hrun as <- <-.
    destruct fuel' as [| fuel']; [lia |].
    cbn [runSteps]. rewrite Hstep. cbn [bind].
    rewrite (IH s1 n' sf' fuel' Hrest ltac:(lia)). reflexivity.
  - injection Hrun as <- <-.
    destruct fuel' as [| fuel']; [lia |].
    cbn [runSteps]. rewrite Hstep. reflexivity.
Qed.

Lemma runSteps_base (fuel : nat) :
  forall (s : QuickHull) (n : nat) (sf : QuickHull),
    runSteps fuel s = Returns (n, sf) -> basePointList sf = basePointList s.
Proof.
  intros s n sf Hrun.
  destruct (runSteps_calls fuel s n sf Hrun) as (_ & (sl & Hsl & Hlast) & _).
  destruct (stepN_extends _ _ _ Hsl) as [_ H1].
  destruct (step_extends _ _ _ Hlast) as [_ H2]. congruence.
Qed.

(** X11.  [main], for points drawn by [rand()] of which two differ: the
    loop of lines 482-484 stops after fewer calls of [step] than twice the
    number of points, and the hull it leaves lists no point twice. *)
Theorem main_loop_linear (rands : list (Z * Z)) (qh : QuickHull) :
  (forall r, In r rands ->
     (0 <= fst r <= Int.max_int)%Z /\ (0 <= snd r <= Int.max_int)%Z) ->
  (exists p q, In p (generatePoints rands) /\ In q (generatePoints rands) /\
               p <> q) ->
  exists s0 n sf,
    randomizeInput rands qh = Returns s0 /\
    runSteps (2 * length rands) s0 = Returns (n, sf) /\
    n < 2 * length rands /\
    NoDup (hullPoints sf) /\
    forall p, In p (hullPoints sf) -> In p (generatePoints rands).
Proof.
  intros Hrange Htwo. unfold randomizeInput.
  set (pts := generatePoints rands) in *.
  assert (Forall inWindow pts) as Hwin.
  { apply List.Forall_forall. intros p Hp. unfold pts, generatePoints in Hp.
    apply in_map_iff in Hp. destruct Hp as (r & <- & Hr).
    destruct (Hrange r Hr) as [H1 H2].
    apply (generatePoint_inWindow r H1 H2). }
  assert (pts <> []) as Hne.
  { destruct Htwo as (p & _ & Hp & _). intros Heq. rewrite Heq in Hp.
    destruct Hp. }
  destruct (setupInput_nonempty pts qh Hne) as [s0 Hsetup].
  destruct (setupInput_ok pts qh s0 Hsetup) as (Hwf0 & Hbase0 & _).
  destruct (runSteps_ok (S (pending (heap s0))) s0 Hwf0 ltac:(lia))
    as (n & sf & Hrun & _).
  destruct (runSteps_count pts qh s0 _ n sf Hsetup Hrun) as [_ Hn].
  destruct (runSteps_final _ _ s0 n sf distinct_kept Hwf0
              (conj (exactOk_setup pts qh s0 Hwin Hsetup)
                    (distinctOk_setup pts qh s0 Hwin Htwo Hsetup)) Hrun)
    as (_ & [[[Hcont _] _] Hdist] & _).
  pose proof (runSteps_base _ _ _ _ Hrun) as Hbase.
  pose proof (distinct_bound pts sf ltac:(congruence) Hcont Hdist) as Hle.
  assert (length pts = length rands) as Hlen by apply length_map.
  pose proof (nonempty_length pts Hne) as Hpos.
  exists s0, n, sf.
  split; [exact Hsetup |].
  split; [apply (runSteps_fuel _ _ _ _ _ Hrun); lia |].
  split; [lia |]. split; [apply Hdist |].
  intros p Hp. destruct Hcont as (_ & Hhull & _).
  apply sortPoints_In. rewrite <- Hbase0, <- Hbase. apply Hhull, Hp.
Qed.

Lemma main_loop_linear_witness :
  exists s0 n sf,
    randomizeInput [(41, 18467); (6334, 26500); (19169, 15724)]%Z
      newQuickHull = Returns s0 /\
    runSteps 6 s0 = Returns (n, sf) /\ n < 6 /\ NoDup (hullPoints sf).
Proof.
  destruct (main_loop_linear [(41, 18467); (6334, 26500); (19169, 15724)]%Z
              newQuickHull)
    as (s0 & n & sf & H1 & H2 & H3 & H4 & _).
  - intros r [<- | [<- | [<- | []]]]; vm_compute; intuition discriminate.
  - exists (generatePoint (41, 18467)%Z), (generatePoint (6334, 26500)%Z).
    split; [left; reflexivity |].
    split; [right; left; reflexivity |].
    vm_compute. discriminate.
  - exists s0, n, sf. exact (conj H1 (conj H2 (conj H3 H4))).
Defined.

(** ** An input with no point off the line of its extremes *)

Lemma newStep_empty (cur : option nat) (A B : Point) (pts : list Point) :
  (forall q, In q pts -> (0 <= determinant A B q)%Z) ->
  newStep cur A B pts = mkStepData [] A B SDP_RecurseOne None None cur.
Proof.
  intros Hall. unfold newStep. f_equal.
  apply (proj2 (sortPoints_nil _)).
  destruct (calcPointsOnRightSide A B pts) as [| q rest] eqn:Hright;
    [reflexivity |].
  assert (In q (calcPointsOnRightSide A B pts)) as Hq
    by (rewrite Hright; left; reflexivity).
  apply calcPointsOnRightSide_In in Hq. destruct Hq as (Hq & _ & _ & Hneg).
  specialize (Hall q Hq). lia.
Qed.

Lemma degenerate_first (base hull : list Point)
    (A B ctr mn mx st minP maxP : Point) (l r : StepData) :
  index base 0 = Returns minP ->
  index base (length base - 1) = Returns maxP ->
  step (mkQuickHull
          [mkStepData base A B SDP_FirstIteration (Some 2) (Some 1) None;
           l; r] base hull (Some 0) ctr mn mx st)
  = Returns
      (true,
       mkQuickHull
         [mkStepData base A B SDP_RecurseTwo (Some 2) (Some 1) None; l; r]
         base hull (Some 2) ctr minP maxP st).
Proof.
  intros Hmin Hmax.
  assert (base <> []) as Hne by (intros ->; discriminate).
  set (root := mkStepData base A B SDP_FirstIteration (Some 2) (Some 1) None).
  set (s0 := mkQuickHull [root; l; r] base hull (Some 0) ctr mn mx st).
  rewrite (step_visits_cursor s0 0 root eq_refl eq_refl Hne
             ltac:(discriminate)).
  destruct (visit_Returns [root; l; r] 0 root s0 eq_refl Hne)
    as (f1 & mn1 & mx1 & _ & _ & Hmn1 & Hmx1 & Hvisit).
  cbn [heap s0]. rewrite Hvisit.
  cbn [pointSet root] in Hmn1, Hmx1.
  rewrite Hmin in Hmn1. rewrite Hmax in Hmx1.
  injection Hmn1 as <-. injection Hmx1 as <-.
  reflexivity.
Qed.

Lemma degenerate_second (base hull : list Point)
    (A B ctr mn mx st minP maxP : Point) (l : StepData) :
  index base 0 = Returns minP ->
  index base (length base - 1) = Returns maxP ->
  step (mkQuickHull
          [mkStepData base A B SDP_RecurseTwo (Some 2) (Some 1) None; l;
           mkStepData [] B A SDP_RecurseOne None None (Some 0)]
          base hull (Some 2) ctr mn mx st)
  = Returns
      (true,
       mkQuickHull
         [mkStepData base A B SDP_Done (Some 2) (Some 1) None; l;
          mkStepData [] B A SDP_Done None None (Some 0)]
         base hull (Some 1) ctr minP maxP st).
Proof.
  intros Hmin Hmax.
  assert (base <> []) as Hne by (intros ->; discriminate).
  set (root := mkStepData base A B SDP_RecurseTwo (Some 2) (Some 1) None).
  set (r := mkStepData [] B A SDP_RecurseOne None None (Some 0)).
  set (s1 := mkQuickHull [root; l; r] base hull (Some 2) ctr mn mx st).
  set (r' := mkStepData [] B A SDP_Done None None (Some 0)).
  rewrite (step_after_unwind s1 [root; l; setProgress SDP_Done r]
             [root; l; r'] (Some 0) true eq_refl eq_refl).
  destruct (visit_Returns [root; l; r'] 0 root s1 eq_refl Hne)
    as (f1 & mn1 & mx1 & _ & _ & Hmn1 & Hmx1 & Hvisit).
  rewrite Hvisit.
  cbn [pointSet root] in Hmn1, Hmx1.
  rewrite Hmin in Hmn1. rewrite Hmax in Hmx1.
  injection Hmn1 as <-. injection Hmx1 as <-.
  reflexivity.
Qed.

Lemma degenerate_third (base hull : list Point)
    (A B ctr mn mx st : Point) (r : StepData) :
  step (mkQuickHull
          [mkStepData base A B SDP_Done (Some 2) (Some 1) None;
           mkStepData [] A B SDP_RecurseOne None None (Some 0); r]
          base hull (Some 1) ctr mn mx st)
  = Returns
      (false,
       mkQuickHull
         [mkStepData base A B SDP_Done None None None;
          mkStepData [] A B SDP_Done None None (Some 0); r]
         base hull (Some 0) ctr mn mx st).
Proof.
  set (root := mkStepData base A B SDP_Done (Some 2) (Some 1) None).
  set (l := mkStepData [] A B SDP_RecurseOne None None (Some 0)).
  set (s2 := mkQuickHull [root; l; r] base hull (Some 1) ctr mn mx st).
  rewrite (step_after_unwind s2 [root; setProgress SDP_Done l; r]
             [setRecursive None None root;
              setRecursive None None (setProgress SDP_Done l); r]
             (Some 0) false eq_refl eq_refl).
  reflexivity.
Qed.

Lemma degenerate_run (pts : list Point) (qh s0 : QuickHull) :
  setupInput pts qh = Returns s0 ->
  (forall q, In q pts ->
     (0 <= determinant (minPoint s0) (maxPoint s0) q)%Z /\
     (0 <= determinant (maxPoint s0) (minPoint s0) q)%Z) ->
  exists sf,
    runSteps 3 s0 = Returns (3, sf) /\
    hullPoints sf = [minPoint s0; maxPoint s0] /\ length (heap sf) = 3.
Proof.
  intros Hsetup Hline.
  destruct (setupInput_Returns pts qh s0 Hsetup)
    as (minP & maxP & Hmin & Hmax & ->).
  cbn [minPoint maxPoint] in Hline.
  rewrite (newStep_empty (Some 0) minP maxP (sortPoints pts))
    by (intros q Hq; apply Hline, sortPoints_In, Hq).
  rewrite (newStep_empty (Some 0) maxP minP (sortPoints pts))
    by (intros q Hq; apply Hline, sortPoints_In, Hq).
  eexists. split.
  - cbn [runSteps].
    rewrite (degenerate_first _ _ _ _ _ _ _ _ minP maxP _ _ Hmin Hmax).
    cbn [bind].
    rewrite (degenerate_second _ _ _ _ _ _ _ _ minP maxP _ Hmin Hmax).
    cbn [bind].
    rewrite degenerate_third. cbn [bind]. reflexivity.
  - split; reflexivity.
Qed.

(** X12.  An input within the margins of the window whose points all lie
    on the line through its two extremes (a single point, or one point
    many times, included): the two children of the root hold no point,
    the loop of [main] stops at the third call of [step], and the hull is
    the two extremes, which for a single point lists that point twice. *)
Theorem points_on_one_line
    (pts : list Point) (qh s0 : QuickHull) :
  Forall inWindow pts ->
  setupInput pts qh = Returns s0 ->
  (forall q, In q pts ->
     exactDeterminant (minPoint s0) (maxPoint s0) q = 0%Z) ->
  exists sf,
    runSteps 3 s0 = Returns (3, sf) /\
    hullPoints sf = [minPoint s0; maxPoint s0] /\ length (heap sf) = 3.
Proof.
  intros Hwin Hsetup Hline.
  apply (degenerate_run pts qh s0 Hsetup).
  rewrite List.Forall_forall in Hwin.
  destruct (setupInput_Returns pts qh s0 Hsetup)
    as (minP & maxP & Hmin & Hmax & Hs0).
  assert (inWindow (minPoint s0) /\ inWindow (maxPoint s0)) as [Hwmin Hwmax].
  { rewrite Hs0; cbn [minPoint maxPoint].
    split; apply Hwin, sortPoints_In; eapply index_In; eassumption. }
  intros q Hq. specialize (Hline q Hq).
  destruct (window_exact _ _ q Hwmin Hwmax (Hwin q Hq)) as [-> _].
  destruct (window_exact _ _ q Hwmax Hwmin (Hwin q Hq)) as [-> _].
  rewrite (exactDeterminant_swap (minPoint s0) (maxPoint s0) q). lia.
Qed.

Lemma points_on_one_line_witness :
  exists s0 sf,
    setupInput [mkPoint 30 30; mkPoint 10 10; mkPoint 20 20] newQuickHull
    = Returns s0 /\
    runSteps 3 s0 = Returns (3, sf) /\
    hullPoints sf = [mkPoint 10 10; mkPoint 30 30].
Proof.
  pose (pts := [mkPoint 30 30; mkPoint 10 10; mkPoint 20 20]).
  pose (s0 := orElse newQuickHull (setupInput pts newQuickHull)).
  destruct (points_on_one_line pts newQuickHull s0)
    as (sf & Hrun & Hhull & _).
  - apply List.Forall_forall. intros p Hp. unfold inWindow.
    rewrite pointXmax_value, pointYmax_value. unfold windowMargin.
    repeat (destruct Hp as [<- | Hp]; [cbn [x y]; lia |]). destruct Hp.
  - vm_compute. reflexivity.
  - intros q [<- | [<- | [<- | []]]]; vm_compute; reflexivity.
  - exists s0, sf. split; [vm_compute; reflexivity |].
    split; [exact Hrun | exact Hhull].
Defined.

(** ** The hull found encloses the input *)

Lemma kept_weaken (A I : QuickHull -> Prop) : kept I -> keptByMoves A I.
Proof.
  intros (Hm & Hp & Hv). split; [| split].
  - intros s c nd Hwf _. apply (Hm s c nd Hwf Logic.I).
  - intros s c nd Hwf _. apply (Hp s c nd Hwf Logic.I).
  - intros s c nd furthest minP maxP Hwf _.
    apply (Hv s c nd furthest minP maxP Hwf Logic.I).
Qed.

Lemma endsOk_kept : kept endsOk.
Proof.
  split; [| split].
  - intros s c nd _ _ Hends _ Hc _ i ni Hi. cbn [atCursor heap hullPoints] in *.
    destruct (lookup_insert_cases _ _ _ _ _ (lookup_lt_Some _ _ _ Hc) Hi)
      as [[_ ->] | [_ Hi']];
      [apply (Hends c nd Hc) | apply (Hends i ni Hi')].
  - intros s c nd _ _ Hends _ Hc _ i ni Hi. cbn [atCursor heap hullPoints] in *.
    destruct (lookup_insert_cases _ _ _ _ _ (lookup_lt_Some _ _ _ Hc) Hi)
      as [[_ ->] | [_ Hi']];
      [apply (Hends c nd Hc) | apply (Hends i ni Hi')].
  - intros s c nd furthest minP maxP _ _ Hends _ Hc _ _ _ _ _.
    pose proof (lookup_lt_Some _ _ _ Hc) as Hclt.
    destruct (Hends c nd Hc) as [HA HB].
    unfold endsOk, visited. destruct (progress nd); cbn [heap hullPoints].
    + intros i ni Hi.
      destruct (lookup_built_cases _ _ _ _ _ _ _ Hclt Hi)
        as [[_ ->] | [(_ & _ & Hi') | [[_ ->] | [_ ->]]]];
        cbn [segmentA segmentB setProgress setRecursive newStep];
        rewrite !in_app_iff.
      * split; left; assumption.
      * destruct (Hends i ni Hi'). split; left; assumption.
      * split; [left; assumption | right; left; reflexivity].
      * split; [right; left; reflexivity | left; assumption].
    + intros i ni Hi.
      destruct (lookup_insert_cases _ _ _ _ _ Hclt Hi) as [[_ ->] | [_ Hi']];
        [split; assumption | apply (Hends i ni Hi')].
    + exact Hends.
    + intros i ni Hi.
      destruct (lookup_insert_cases _ _ _ _ _ Hclt Hi) as [[_ ->] | [_ Hi']];
        [split; assumption | apply (Hends i ni Hi')].
Qed.

Lemma endsOk_setup (pts : list Point) (qh s0 : QuickHull) :
  setupInput pts qh = Returns s0 -> endsOk s0.
Proof.
  intros Hsetup.
  destruct (setupInput_Returns pts qh s0 Hsetup) as (minP & maxP & _ & _ & ->).
  intros i nd Hi. cbn [heap hullPoints] in *.
  destruct i as [| [| [| i]]]; cbn in Hi; try discriminate;
    injection Hi as <-; cbn [segmentA segmentB newStep];
    split; cbn; tauto.
Qed.

Lemma inTriangle_mono (hull hull' : list Point) (q : Point) :
  (forall p, In p hull -> In p hull') ->
  inTriangle hull q -> inTriangle hull' q.
Proof.
  intros Hsub (A & B & F & HA & HB & HF & Hrest).
  exists A, B, F. split; [apply Hsub, HA |]. split; [apply Hsub, HB |].
  split; [apply Hsub, HF | exact Hrest].
Qed.

(** A point stays where it is when node [c], which does not hold it any
    more as a node to be visited for the first time, is written. *)
Lemma coverOk_insert (mn mx : Point) (s : QuickHull) (c : nat)
    (nd x : StepData) (s' : QuickHull) :
  coverOk mn mx s -> heap s !! c = Some nd ->
  (progress nd = SDP_RecurseOne -> pointSet nd = []) ->
  heap s' = <[c := x]> (heap s) -> hullPoints s' = hullPoints s ->
  basePointList s' = basePointList s ->
  coverOk mn mx s'.
Proof.
  intros Hcover Hc Hnot Hheap Hhull Hbase q Hq.
  rewrite Hbase in Hq. rewrite Hhull, Hheap.
  destruct (Hcover q Hq) as [H | [H | [H | (i & ni & Hi & Hone & Hin)]]];
    [left; exact H | right; left; exact H | right; right; left; exact H |].
  right; right; right. exists i, ni.
  split; [| split; assumption].
  rewrite list_lookup_insert_ne; [exact Hi |].
  intros <-. rewrite Hc in Hi. injection Hi as <-.
  rewrite (Hnot Hone) in Hin. destruct Hin.
Qed.

Lemma coverOk_kept (mn mx : Point) :
  keptByMoves (fun s => exactOk s /\ endsOk s) (coverOk mn mx).
Proof.
  split; [| split].
  - intros s c nd _ _ Hcover _ Hc Hempty.
    apply (coverOk_insert mn mx s c nd (setProgress SDP_Done nd) _ Hcover Hc);
      [intros _; exact Hempty | reflexivity ..].
  - intros s c nd _ _ Hcover _ Hc Hdone.
    apply (coverOk_insert mn mx s c nd (setRecursive None None nd) _
             Hcover Hc); [congruence | reflexivity ..].
  - intros s c nd furthest minP maxP [_ Hok]
           [[[(Hall & _) Hkinds] Hwin] Hends] Hcover _ Hc Hne Hprog Hfur _ _.
    pose proof (lookup_lt_Some _ _ _ Hc) as Hclt.
    destruct (progress nd) eqn:Hpr.
    + (* the first visit of a node with a parent *)
      destruct (Forall_lookup_1 _ _ _ _ Hall Hc)
        as (_ & Hsub & HA & HB & Hneg).
      destruct (Forall_lookup_1 _ _ _ _ Hkinds Hc) as [Hparent _].
      specialize (Hparent Hpr). specialize (Hneg Hparent).
      pose proof (ok_exclude _ _ _ (Hok c nd Hc) Hparent) as Hexcl.
      pose proof (calculateFurthestPoint_In _ _ _ _ Hfur) as HinF.
      destruct (Hends c nd Hc) as [HhA HhB].
      unfold visited. rewrite Hpr.
      intros q Hq. cbn [basePointList hullPoints heap] in *.
      assert (forall p, In p (hullPoints s) ->
                In p (hullPoints s ++ [furthest])) as Hgrow
        by (intros p Hp; apply in_or_app; left; exact Hp).
      destruct (Hcover q Hq) as [H | [H | [H | (i & ni & Hi & Hone & Hin)]]].
      * left. apply Hgrow, H.
      * right; left. exact H.
      * right; right; left. apply (inTriangle_mono _ _ q Hgrow H).
      * destruct (decide (i = c)) as [-> | Hic].
        -- rewrite Hc in Hi. injection Hi as <-.
           destruct (comparePoints q furthest) eqn:HqF.
           { apply comparePoints_eq in HqF. subst q. left.
             apply in_or_app. right. left. reflexivity. }
           apply comparePoints_neq in HqF.
           destruct (Hexcl q Hin) as [HqA HqB].
           pose proof (Hwin _ HA) as WA. pose proof (Hwin _ HB) as WB.
           pose proof (Hwin _ (Hsub _ HinF)) as WF.
           pose proof (Hwin _ (Hsub _ Hin)) as Wq.
           destruct (Z.ltb_spec (determinant (segmentA nd) furthest q) 0)
             as [Hl | Hl].
           { right; right; right.
             exists (length (heap s)),
               (newStep (Some c) (segmentA nd) furthest (pointSet nd)).
             split.
             { rewrite lookup_app_r by (rewrite length_insert; lia).
               rewrite length_insert, Nat.sub_diag. reflexivity. }
             split; [reflexivity |]. cbn [newStep pointSet].
             apply sortPoints_In, calcPointsOnRightSide_In. tauto. }
           destruct (Z.ltb_spec (determinant furthest (segmentB nd) q) 0)
             as [Hr | Hr].
           { right; right; right.
             exists (S (length (heap s))),
               (newStep (Some c) furthest (segmentB nd) (pointSet nd)).
             split.
             { rewrite lookup_app_r by (rewrite length_insert; lia).
               rewrite length_insert.
               replace (S (length (heap s)) - length (heap s)) with 1 by lia.
               reflexivity. }
             split; [reflexivity |]. cbn [newStep pointSet].
             apply sortPoints_In, calcPointsOnRightSide_In. tauto. }
           right; right; left.
           exists (segmentA nd), (segmentB nd), furthest.
           split; [apply Hgrow, HhA |]. split; [apply Hgrow, HhB |].
           split; [apply in_or_app; right; left; reflexivity |].
           pose proof (Hneg _ HinF) as HnF. pose proof (Hneg _ Hin) as Hnq.
           rewrite (proj1 (window_exact _ _ _ WA WB WF)) in HnF.
           rewrite (proj1 (window_exact _ _ _ WA WB Wq)) in Hnq.
           rewrite (proj1 (window_exact _ _ _ WA WF Wq)) in Hl.
           rewrite (proj1 (window_exact _ _ _ WF WB Wq)) in Hr.
           exact (conj HnF (conj Hnq (conj Hl Hr))).
        -- right; right; right. exists i, ni.
           split; [| split; assumption].
           rewrite lookup_app_l
             by (rewrite length_insert; apply (lookup_lt_Some _ _ _ Hi)).
           rewrite list_lookup_insert_ne by congruence. exact Hi.
    + apply (coverOk_insert mn mx s c nd (setProgress SDP_Done nd) _
               Hcover Hc);
        [congruence | unfold visited; rewrite Hpr; reflexivity ..].
    + congruence.
    + apply (coverOk_insert mn mx s c nd (setProgress SDP_RecurseTwo nd) _
               Hcover Hc);
        [congruence | unfold visited; rewrite Hpr; reflexivity ..].
Qed.

Lemma coverOk_setup (pts : list Point) (qh s0 : QuickHull) :
  Forall inWindow pts -> setupInput pts qh = Returns s0 ->
  coverOk (minPoint s0) (maxPoint s0) s0.
Proof.
  intros Hwin Hsetup.
  destruct (setupInput_Returns pts qh s0 Hsetup)
    as (minP & maxP & Hmin & Hmax & ->).
  rewrite List.Forall_forall in Hwin.
  assert (forall p, In p (sortPoints pts) -> inWindow p) as Hwin'
    by (intros p Hp; apply Hwin, sortPoints_In, Hp).
  apply index_In in Hmin, Hmax.
  intros q Hq. cbn [basePointList hullPoints heap minPoint maxPoint] in *.
  destruct (comparePoints q minP) eqn:Hqmin;
    [apply comparePoints_eq in Hqmin; left; left; congruence |].
  destruct (comparePoints q maxP) eqn:Hqmax;
    [apply comparePoints_eq in Hqmax; left; right; left; congruence |].
  apply comparePoints_neq in Hqmin, Hqmax.
  destruct (Z.ltb_spec (determinant minP maxP q) 0) as [Hl | Hl].
  { right; right; right.
    exists 1, (newStep (Some 0) minP maxP (sortPoints pts)).
    split; [reflexivity |]. split; [reflexivity |]. cbn [newStep pointSet].
    apply sortPoints_In, calcPointsOnRightSide_In. tauto. }
  destruct (Z.ltb_spec (determinant maxP minP q) 0) as [Hr | Hr].
  { right; right; right.
    exists 2, (newStep (Some 0) maxP minP (sortPoints pts)).
    split; [reflexivity |]. split; [reflexivity |]. cbn [newStep pointSet].
    apply sortPoints_In, calcPointsOnRightSide_In. tauto. }
  right; left.
  rewrite (proj1 (window_exact _ _ _ (Hwin' _ Hmin) (Hwin' _ Hmax)
                    (Hwin' _ Hq))) in Hl.
  rewrite (proj1 (window_exact _ _ _ (Hwin' _ Hmax) (Hwin' _ Hmin)
                    (Hwin' _ Hq))) in Hr.
  rewrite exactDeterminant_swap in Hr. lia.
Qed.

(** X13.  For an input within the margins of the window, when the loop of
    [main] has stopped every point of the input is a hull point, or lies
    on the line through the two extremes the computation started from, or
    lies in a triangle of three hull points: the hull found leaves no
    point of the input outside. *)
Theorem hull_encloses_input
    (pts : list Point) (qh s0 : QuickHull) (fuel n : nat) (sf : QuickHull) :
  Forall inWindow pts ->
  setupInput pts qh = Returns s0 -> runSteps fuel s0 = Returns (n, sf) ->
  forall q, In q pts ->
    In q (hullPoints sf) \/
    exactDeterminant (minPoint s0) (maxPoint s0) q = 0%Z \/
    inTriangle (hullPoints sf) q.
Proof.
  intros Hwin Hsetup Hrun q Hq.
  destruct (setupInput_ok pts qh s0 Hsetup) as (Hwf0 & Hbase0 & _).
  destruct (run_final pts qh s0 fuel n sf Hsetup Hrun)
    as (_ & _ & _ & _ & _ & Hdone).
  pose proof (kept_conj _ _
                (kept_conj _ _ exactOk_kept (kept_weaken _ _ endsOk_kept))
                (coverOk_kept (minPoint s0) (maxPoint s0))) as Hkept.
  destruct (runSteps_final _ fuel s0 n sf Hkept Hwf0
              (conj (conj (exactOk_setup pts qh s0 Hwin Hsetup)
                          (endsOk_setup pts qh s0 Hsetup))
                    (coverOk_setup pts qh s0 Hwin Hsetup)) Hrun)
    as (_ & [_ Hcover] & _).
  pose proof (runSteps_base _ _ _ _ Hrun) as Hbase.
  destruct (Hcover q) as [H | [H | [H | (i & ni & Hi & Hone & _)]]].
  - rewrite Hbase, Hbase0. apply sortPoints_In, Hq.
  - left; exact H.
  - right; left; exact H.
  - right; right; exact H.
  - destruct (Hdone i ni Hi) as [Hd _]. congruence.
Qed.

Lemma hull_encloses_input_witness :
  exists s0 sf,
    setupInput [mkPoint 10 10; mkPoint 20 10; mkPoint 20 20; mkPoint 10 20;
                mkPoint 15 12] newQuickHull = Returns s0 /\
    runSteps 7 s0 = Returns (7, sf) /\
    ~ In (mkPoint 15 12) (hullPoints sf) /\
    inTriangle (hullPoints sf) (mkPoint 15 12).
Proof.
  pose (pts := [mkPoint 10 10; mkPoint 20 10; mkPoint 20 20; mkPoint 10 20;
                mkPoint 15 12]).
  pose (s0 := orElse newQuickHull (setupInput pts newQuickHull)).
  pose (sf := orElse newQuickHull (stepN 7 s0)).
  assert (hullPoints sf
          = [mkPoint 10 10; mkPoint 20 20; mkPoint 10 20; mkPoint 20 10])
    as Hhull by (vm_compute; reflexivity).
  assert (~ In (mkPoint 15 12) (hullPoints sf)) as Hnot.
  { rewrite Hhull. intros [H | [H | [H | [H | []]]]]; discriminate. }
  exists s0, sf.
  split; [vm_compute; reflexivity |]. split; [vm_compute; reflexivity |].
  split; [exact Hnot |].
  destruct (hull_encloses_input pts newQuickHull s0 7 7 sf) with
    (q := mkPoint 15 12) as [H | [H | H]].
  - apply List.Forall_forall. intros p Hp. unfold inWindow.
    rewrite pointXmax_value, pointYmax_value. unfold windowMargin.
    repeat (destruct Hp as [<- | Hp]; [cbn [x y]; lia |]). destruct Hp.
  - vm_compute. reflexivity.
  - vm_compute. reflexivity.
  - right; right; right; right; left. reflexivity.
  - destruct (Hnot H).
  - vm_compute in H. discriminate.
  - exact H.
Defined.

(** ** What [render] is given *)

Lemma drawOk_setup (pts : list Point) (qh s0 : QuickHull) :
  setupInput pts qh = Returns s0 -> drawOk (furthestStore qh) s0.
Proof.
  intros Hsetup.
  destruct (setupInput_Returns pts qh s0 Hsetup)
    as (minP & maxP & Hmin & Hmax & ->).
  pose proof (index_In _ _ _ Hmin) as Hinmin.
  pose proof (index_In _ _ _ Hmax) as Hinmax.
  unfold drawOk;
    cbn [center hullPoints furthestStore minPoint maxPoint basePointList].
  split; [reflexivity |].
  split; [left; split; reflexivity |].
  split; [exact Hinmin |]. split; [exact Hinmax |].
  apply (Sorted_first_last (sortPoints pts) minP maxP
           (sortPoints_Sorted pts) Hmin Hmax maxP Hinmax).
Qed.

Lemma drawOk_kept (old : Point) : keptByMoves contentsOk (drawOk old).
Proof.
  split; [| split].
  - intros s c nd _ _ Hdraw _ _ _. exact Hdraw.
  - intros s c nd _ _ Hdraw _ _ _. exact Hdraw.
  - intros s c nd furthest minP maxP _ (Hall & _)
           (Hcenter & Hstore & _) _ Hc _ _ _ Hmin Hmax.
    destruct (Forall_lookup_1 _ _ _ _ Hall Hc) as (Hsorted & Hsub & _).
    pose proof (index_In _ _ _ Hmin) as Hinmin.
    pose proof (index_In _ _ _ Hmax) as Hinmax.
    pose proof (proj1 (Sorted_first_last (pointSet nd) minP maxP Hsorted
                         Hmin Hmax maxP Hinmax)) as Hle.
    unfold drawOk, visited.
    destruct (progress nd);
      cbn [center hullPoints furthestStore minPoint maxPoint basePointList];
      (split; [exact Hcenter |]);
      (split; [| split; [apply Hsub, Hinmin |
                         split; [apply Hsub, Hinmax | exact Hle]]]);
      try exact Hstore.
    right. rewrite length_app, last_snoc. cbn [length].
    split; [| reflexivity]. destruct Hstore as [[H _] | [H _]]; lia.
Qed.

(** X14.  What [render] draws from, in every state of a computation:
    [center] is the middle of the window (not the average of the extremes
    its declaration speaks of); [minPoint] and [maxPoint] are points of
    the input, in the order of the comparator; [furthestStore] is the
    hull point found last and, as long as none was found beside the two
    extremes, what the object held before [randomizeInput], which does
    not reset it. *)
Theorem render_reads
    (pts : list Point) (qh s0 : QuickHull) (n : nat) (s : QuickHull) :
  setupInput pts qh = Returns s0 -> stepN n s0 = Returns s ->
  center s = mkPoint 640 360 /\
  (length (hullPoints s) = 2 /\ furthestStore s = furthestStore qh \/
   2 < length (hullPoints s) /\
   last (hullPoints s) = Some (furthestStore s)) /\
  In (minPoint s) pts /\ In (maxPoint s) pts /\
  pointLe (minPoint s) (maxPoint s).
Proof.
  intros Hsetup Hrun.
  destruct (setupInput_ok pts qh s0 Hsetup) as (Hwf0 & Hbase0 & _).
  destruct (stepN_extends n s0 s Hrun) as [_ Hbase].
  destruct (stepN_preserves _
              (kept_conj _ _ contentsOk_kept (drawOk_kept (furthestStore qh)))
              n s0 s Hwf0
              (conj (contentsOk_setup pts qh s0 Hsetup)
                    (drawOk_setup pts qh s0 Hsetup)) Hrun)
    as [_ (Hcenter & Hstore & Hmin & Hmax & Hle)].
  rewrite Hbase, Hbase0 in Hmin, Hmax.
  split; [exact Hcenter |]. split; [exact Hstore |].
  split; [apply sortPoints_In, Hmin |].
  split; [apply sortPoints_In, Hmax | exact Hle].
Qed.

Lemma render_reads_witness :
  furthestStore (squareState 1) = mkPoint 0 0 /\
  furthestStore (squareState 2) = mkPoint 0 10 /\
  last (hullPoints (squareState 2)) = Some (furthestStore (squareState 2)) /\
  center (squareState 2) = mkPoint 640 360.
Proof.
  destruct (render_reads squareInput newQuickHull (squareState 0) 2
              (squareState 2) ltac:(vm_compute; reflexivity)
              ltac:(vm_compute; reflexivity))
    as (Hcenter & [[Hlen _] | [_ Hlast]] & _).
  - vm_compute in Hlen. discriminate.
  - split; [vm_compute; reflexivity |]. split; [vm_compute; reflexivity |].
    split; [exact Hlast | exact Hcenter].
Defined.

(** ** Calls of [step] and undefined behaviour *)

(** X15.  After [randomizeInput] on an input that is not empty, [step] can
    be called any number of times, also after it has returned [false]:
    before every call the cursor is on a node of the store, and the call
    returns, without a null pointer followed or a vector read out of its
    range. *)
Theorem step_always_returns (pts : list Point) (qh : QuickHull) :
  pts <> [] ->
  exists s0,
    setupInput pts qh = Returns s0 /\
    forall n, exists s,
      stepN n s0 = Returns s /\
      (exists c nd, nextStep s = Some c /\ heap s !! c = Some nd) /\
      exists more s', step s = Returns (more, s').
Proof.
  intros Hne.
  destruct (setupInput_nonempty pts qh Hne) as [s0 Hsetup].
  destruct (setupInput_ok pts qh s0 Hsetup) as (Hwf0 & _).
  exists s0. split; [exact Hsetup |]. intros n.
  destruct (stepN_ok n s0 Hwf0) as (s & Hrun & Hwf & _).
  exists s. split; [exact Hrun |]. split.
  - destruct Hwf as [(c & Hcur & Hclt) _].
    destruct (lookup_lt_is_Some_2 _ _ Hclt) as [nd Hc].
    exists c, nd. split; assumption.
  - destruct (step_ok s Hwf) as (more & s' & Hstep & _).
    exists more, s'. exact Hstep.
Qed.

Lemma step_always_returns_witness :
  exists s0,
    setupInput squareInput newQuickHull = Returns s0 /\
    exists s, stepN 9 s0 = Returns s /\
              exists more s', step s = Returns (more, s').
Proof.
  destruct (step_always_returns squareInput newQuickHull ltac:(discriminate))
    as (s0 & Hsetup & Hall).
  destruct (Hall 9) as (s & Hrun & _ & Hstep).
  exists s0. split; [exact Hsetup |]. exists s. split; assumption.
Defined.

(** X16.  On an object whose cursor is null, as the constructor leaves it,
    [step] follows the null pointer at its first test (line 271): the
    call is undefined, and no check stands before it.  [main] calls
    [randomizeInput] before the first [step]. *)
Theorem step_before_randomizeInput (s : QuickHull) :
  nextStep s = None -> step s = Undefined NullDeref.
Proof. intros Hnull. unfold step, markEmptyDone. rewrite Hnull. reflexivity. Qed.

Lemma step_before_randomizeInput_witness :
  nextStep newQuickHull = None /\ step newQuickHull = Undefined NullDeref.
Proof.
  split; [reflexivity |].
  apply (step_before_randomizeInput newQuickHull). reflexivity.
Defined.

(** ** The order of descent, in a computation *)

(** What is kept by the moves holds when the loop has ended, before the
    visit if one is made; the node to visit is then not done and has
    points. *)
Lemma moves_before_visit (I : QuickHull -> Prop) :
  kept I ->
  forall (s : QuickHull) (h1 h2 : list StepData) (cur : option nat)
         (more : bool),
    wellFormed s -> I s ->
    markEmptyDone (heap s) (nextStep s) = Returns h1 ->
    unwindDone (length h1) h1 (nextStep s) = Returns (h2, cur, more) ->
    wellFormed (atCursor h2 cur s) /\ I (atCursor h2 cur s) /\
    (more = true ->
     exists c nd, cur = Some c /\ h2 !! c = Some nd /\
                  progress nd <> SDP_Done /\ pointSet nd <> []).
Proof.
  intros Hkept s h1 h2 cur more Hwf HI Hmark Hunwind.
  pose proof Hkept as (I_mark & _ & _).
  destruct Hwf as [(c & Hcur & Hclt) Hok].
  destruct (lookup_lt_is_Some_2 _ _ Hclt) as [nd Hc].
  assert (wellFormed s) as Hwf.
  { split; [exists c; split; assumption | exact Hok]. }
  set (s1 := atCursor h1 (nextStep s) s).
  assert (wellFormed s1 /\ I s1 /\
          (forall c1 nd1, nextStep s1 = Some c1 ->
             heap s1 !! c1 = Some nd1 ->
             progress nd1 = SDP_Done \/ pointSet nd1 <> []))
    as (Hwf1 & HI1 & Hstate).
  { unfold markEmptyDone in Hmark.
    rewrite Hcur, (load_lookup _ _ _ Hc) in Hmark. cbn [bind] in Hmark.
    destruct (pointSet nd) as [| p0 pts'] eqn:Hpts;
      injection Hmark as Hh1; subst h1; unfold s1; rewrite Hcur.
    - split; [apply (wellFormed_mark s c nd Hwf Hc) |].
      split; [apply (I_mark s c nd Hwf Logic.I HI Hcur Hc Hpts) |].
      intros c1 nd1 [= <-] Hc1. cbn [atCursor heap] in Hc1.
      rewrite list_lookup_insert_eq in Hc1 by exact Hclt.
      injection Hc1 as <-. left. reflexivity.
    - rewrite <- Hcur, atCursor_same.
      split; [exact Hwf |]. split; [exact HI |].
      intros c1 nd1 Hcur1 Hc1. rewrite Hcur in Hcur1.
      injection Hcur1 as <-. rewrite Hc in Hc1. injection Hc1 as <-.
      right. rewrite Hpts. discriminate. }
  apply (unwindDone_ind I (length h1) Hkept s1 h2 cur more Hwf1 HI1 Hstate).
  exact Hunwind.
Qed.

Lemma childFor_extends (h h' : list StepData) (i : nat) (nd : StepData)
    (k : nat) (A B : Point) :
  extends h h' -> childFor h i nd k A B -> childFor h' i nd k A B.
Proof.
  intros Hext (child & Hk & Hprev & HA & HB & Hpts).
  destruct (Hext k child Hk) as (child' & Hk' & Hp & Ha & Hb & Hpr).
  exists child'. split; [exact Hk' |].
  repeat apply conj; congruence.
Qed.

Lemma linkOk_extends (h h' : list StepData) (i : nat) (nd : StepData) :
  extends h h' -> linkOk h i nd -> linkOk h' i nd.
Proof.
  intros Hext [Hfirst Hsecond]. split.
  - intros Hprog. destruct (Hfirst Hprog) as (k1 & k2 & H1 & H2 & C1 & C2).
    exists k1, k2. split; [exact H1 |]. split; [exact H2 |].
    split; apply (childFor_extends h h' _ _ _ _ _ Hext); assumption.
  - intros Hprog. destruct (Hsecond Hprog) as (k & Hk & Hchild).
    exists k. split; [exact Hk |].
    destruct (prevStep nd).
    + destruct Hchild as (furthest & Hfur & Hchild).
      exists furthest. split; [exact Hfur |].
      apply (childFor_extends h h' _ _ _ _ _ Hext Hchild).
    + apply (childFor_extends h h' _ _ _ _ _ Hext Hchild).
Qed.

Lemma linkOk_idle (h : list StepData) (i : nat) (nd : StepData) :
  progress nd = SDP_RecurseOne \/ progress nd = SDP_Done -> linkOk h i nd.
Proof. intros [H | H]; split; intros H'; congruence. Qed.

Lemma linksOk_setup (pts : list Point) (qh s0 : QuickHull) :
  setupInput pts qh = Returns s0 -> linksOk s0.
Proof.
  intros Hsetup.
  destruct (setupInput_Returns pts qh s0 Hsetup) as (minP & maxP & _ & _ & ->).
  intros i nd Hi. cbn [heap] in *.
  destruct i as [| [| [| i]]]; cbn in Hi; try discriminate;
    injection Hi as <-;
    [| apply linkOk_idle; left; reflexivity ..].
  split; [| discriminate]. intros _. exists 2, 1.
  split; [reflexivity |]. split; [reflexivity |].
  split; eexists; (split; [reflexivity |]); repeat apply conj; reflexivity.
Qed.

Lemma linksOk_kept : keptByMoves kindsOk linksOk.
Proof.
  split; [| split].
  - (* the marking *)
    intros s c nd _ _ Hlinks _ Hc _ i ni Hi. cbn [atCursor heap] in *.
    pose proof (extends_insert (heap s) c nd (setProgress SDP_Done nd) Hc
                  (sameCore_setProgress _ _)) as Hext.
    destruct (lookup_insert_cases _ _ _ _ _ (lookup_lt_Some _ _ _ Hc) Hi)
      as [[_ ->] | [_ Hi']].
    + apply linkOk_idle. right. reflexivity.
    + apply (linkOk_extends _ _ _ _ Hext), Hlinks, Hi'.
  - (* one turn of the loop *)
    intros s c nd _ _ Hlinks _ Hc Hdone i ni Hi. cbn [atCursor heap] in *.
    pose proof (extends_insert (heap s) c nd (setRecursive None None nd) Hc
                  (sameCore_setRecursive _ _ _)) as Hext.
    destruct (lookup_insert_cases _ _ _ _ _ (lookup_lt_Some _ _ _ Hc) Hi)
      as [[_ ->] | [_ Hi']].
    + apply linkOk_idle. right. exact Hdone.
    + apply (linkOk_extends _ _ _ _ Hext), Hlinks, Hi'.
  - (* the visit *)
    intros s c nd furthest minP maxP _ Hkinds Hlinks _ Hc _ _ Hfur _ _.
    pose proof (lookup_lt_Some _ _ _ Hc) as Hclt.
    destruct (Forall_lookup_1 _ _ _ _ Hkinds Hc) as [Hparent Hroot].
    destruct (Hlinks c nd Hc) as [Hfirst Hsecond].
    unfold linksOk, visited. destruct (progress nd) eqn:Hpr; cbn [heap].
    + (* the first visit of a node with a parent *)
      set (x := setProgress SDP_RecurseTwo
                  (setRecursive (Some (S (length (heap s))))
                     (Some (length (heap s))) nd)).
      set (l := newStep (Some c) (segmentA nd) furthest (pointSet nd)).
      set (r := newStep (Some c) furthest (segmentB nd) (pointSet nd)).
      assert (extends (heap s) (<[c := x]> (heap s) ++ [l; r])) as Hext.
      { apply (extends_trans _ (<[c := x]> (heap s)));
          [| apply extends_app].
        apply (extends_insert _ _ nd x Hc).
        repeat apply conj; reflexivity. }
      intros i ni Hi.
      destruct (lookup_built_cases _ _ _ _ _ _ _ Hclt Hi)
        as [[-> ->] | [(_ & _ & Hi') | [[_ ->] | [_ ->]]]].
      * split; [discriminate |]. intros _. exists (length (heap s)).
        split; [reflexivity |].
        cbn [x prevStep setProgress setRecursive].
        destruct (prevStep nd) as [p |] eqn:Hprev;
          [| exfalso; apply (Hparent eq_refl); reflexivity].
        exists furthest. split; [exact Hfur |].
        exists l. split.
        { rewrite lookup_app_r by (rewrite length_insert; lia).
          rewrite length_insert, Nat.sub_diag. reflexivity. }
        repeat apply conj; reflexivity.
      * apply (linkOk_extends _ _ _ _ Hext), Hlinks, Hi'.
      * apply linkOk_idle. left. reflexivity.
      * apply linkOk_idle. left. reflexivity.
    + (* the second visit *)
      pose proof (extends_insert (heap s) c nd (setProgress SDP_Done nd) Hc
                    (sameCore_setProgress _ _)) as Hext.
      intros i ni Hi.
      destruct (lookup_insert_cases _ _ _ _ _ Hclt Hi) as [[_ ->] | [_ Hi']].
      * apply linkOk_idle. right. reflexivity.
      * apply (linkOk_extends _ _ _ _ Hext), Hlinks, Hi'.
    + exact Hlinks.
    + (* the first visit of the root *)
      pose proof (extends_insert (heap s) c nd
                    (setProgress SDP_RecurseTwo nd) Hc
                    (sameCore_setProgress _ _)) as Hext.
      intros i ni Hi.
      destruct (lookup_insert_cases _ _ _ _ _ Hclt Hi) as [[-> ->] | [_ Hi']].
      * split; [discriminate |]. intros _.
        destruct (Hfirst eq_refl) as (k1 & k2 & _ & H2 & _ & C2).
        exists k2. split; [exact H2 |].
        cbn [prevStep setProgress]. rewrite (Hroot eq_refl).
        apply (childFor_extends _ _ _ _ _ _ _ Hext C2).
      * apply (linkOk_extends _ _ _ _ Hext), Hlinks, Hi'.
Qed.

(** C2 (as the code has it).  The first visit of a node with points in
    state [SDP_RecurseOne], which every node but the root starts in,
    builds the two children and leaves the cursor on [recursiveOne], the
    child for the segment (furthest, segmentB), and the node in
    [SDP_RecurseTwo] with [recursiveTwo] the child for (segmentA,
    furthest).  In a computation, whichever node a call visits: in state
    [SDP_RecurseOne] the cursor goes to the child for (furthest,
    segmentB); in state [SDP_RecurseTwo], where the loop has come back to
    the node, the node is marked [SDP_Done] and the cursor goes to the
    child for (segmentA, furthest); the root, whose children
    [randomizeInput] built, is visited first in state
    [SDP_FirstIteration], the cursor going to its child for (segmentB,
    segmentA), that is (max, min), and then in state [SDP_RecurseTwo], the
    cursor going to its child for (segmentA, segmentB), that is (min,
    max). *)
Theorem step_descent_order :
  (forall (s : QuickHull) (c : nat) (nd : StepData),
      nextStep s = Some c -> heap s !! c = Some nd -> pointSet nd <> [] ->
      progress nd = SDP_RecurseOne ->
      exists furthest s' nd',
        calculateFurthestPoint (segmentA nd) (segmentB nd) (pointSet nd)
        = Returns furthest /\
        step s = Returns (true, s') /\
        nextStep s' = Some (S (length (heap s))) /\
        heap s' !! S (length (heap s))
        = Some (newStep (Some c) furthest (segmentB nd) (pointSet nd)) /\
        heap s' !! length (heap s)
        = Some (newStep (Some c) (segmentA nd) furthest (pointSet nd)) /\
        heap s' !! c = Some nd' /\
        progress nd' = SDP_RecurseTwo /\
        recursiveOne nd' = Some (S (length (heap s))) /\
        recursiveTwo nd' = Some (length (heap s))) /\
  (forall (pts : list Point) (qh s0 : QuickHull) (n : nat) (s : QuickHull)
          (h1 h2 : list StepData) (c : nat) (nd : StepData),
      setupInput pts qh = Returns s0 -> stepN n s0 = Returns s ->
      markEmptyDone (heap s) (nextStep s) = Returns h1 ->
      unwindDone (length h1) h1 (nextStep s) = Returns (h2, Some c, true) ->
      h2 !! c = Some nd ->
      exists s' k furthest,
        step s = Returns (true, s') /\
        calculateFurthestPoint (segmentA nd) (segmentB nd) (pointSet nd)
        = Returns furthest /\
        nextStep s' = Some k /\
        match progress nd, prevStep nd with
        | SDP_RecurseOne, _ =>
            progress <$> heap s' !! c = Some SDP_RecurseTwo /\
            childFor (heap s') c nd k furthest (segmentB nd)
        | SDP_RecurseTwo, Some _ =>
            progress <$> heap s' !! c = Some SDP_Done /\
            childFor (heap s') c nd k (segmentA nd) furthest
        | SDP_FirstIteration, _ =>
            c = 0 /\
            progress <$> heap s' !! c = Some SDP_RecurseTwo /\
            childFor (heap s') c nd k (segmentB nd) (segmentA nd)
        | SDP_RecurseTwo, None =>
            c = 0 /\
            progress <$> heap s' !! c = Some SDP_Done /\
            childFor (heap s') c nd k (segmentA nd) (segmentB nd)
        | SDP_Done, _ => False
        end).
Proof.
  split.
  - intros s c nd Hcur Hc Hne Hprog.
    pose proof (lookup_lt_Some _ _ _ Hc) as Hlt.
    destruct (visit_Returns (heap s) c nd s Hc Hne)
      as (furthest & minP & maxP & Hfur & _ & _ & _ & Hvisit).
    exists furthest, (visited (heap s) c nd furthest minP maxP s).
    eexists. split; [exact Hfur |].
    rewrite (step_visits_cursor s c nd Hcur Hc Hne) by congruence.
    rewrite Hvisit. cbn [bind]. unfold visited. rewrite Hprog.
    cbn [nextStep heap].
    split; [reflexivity |]. split; [reflexivity |].
    split.
    { rewrite lookup_app_r by (rewrite length_insert; lia).
      rewrite length_insert.
      replace (S (length (heap s)) - length (heap s)) with 1 by lia.
      reflexivity. }
    split.
    { rewrite lookup_app_r by (rewrite length_insert; lia).
      rewrite length_insert, Nat.sub_diag. reflexivity. }
    split.
    { rewrite lookup_app_l by (rewrite length_insert; exact Hlt).
      apply list_lookup_insert_eq. exact Hlt. }
    repeat apply conj; reflexivity.
  - intros pts qh s0 n s h1 h2 c nd Hsetup Hrun Hmark Hunwind Hc.
    destruct (setupInput_ok pts qh s0 Hsetup) as (Hwf0 & _).
    destruct (stepN_ok n s0 Hwf0) as (s1 & Hrun1 & Hwf & _).
    rewrite Hrun in Hrun1. injection Hrun1 as <-.
    pose proof (kept_conj _ _ kindsOk_kept linksOk_kept) as Hkept.
    pose proof (stepN_preserves _ Hkept n s0 s Hwf0
                  (conj (kindsOk_setup pts qh s0 Hsetup)
                        (linksOk_setup pts qh s0 Hsetup)) Hrun) as HI.
    destruct (moves_before_visit _ Hkept s h1 h2 (Some c) true Hwf HI
                Hmark Hunwind) as ([_ Hok2] & [Hkinds Hlinks] & Hmore).
    cbn [atCursor heap] in Hok2, Hkinds, Hlinks.
    unfold kindsOk, linksOk in Hkinds, Hlinks. cbn [atCursor heap] in *.
    destruct (Hmore eq_refl) as (c0 & nd0 & [= <-] & Hc0 & Hprog & Hne).
    rewrite Hc in Hc0. injection Hc0 as <-.
    pose proof (lookup_lt_Some _ _ _ Hc) as Hclt.
    destruct (Forall_lookup_1 _ _ _ _ Hkinds Hc) as [Hparent Hroot].
    destruct (Hlinks c nd Hc) as [Hfirst Hsecond].
    destruct (visit_Returns h2 c nd s Hc Hne)
      as (furthest & minP & maxP & Hfur & _ & _ & _ & Hvisit).
    rewrite (step_after_unwind s h1 h2 _ _ Hmark Hunwind), Hvisit.
    cbn [bind].
    assert (forall x, (progress <$> <[c := x]> h2 !! c) = Some (progress x))
      as Hat.
    { intros x. rewrite list_lookup_insert_eq by exact Hclt. reflexivity. }
    unfold visited. destruct (progress nd) eqn:Hpr.
    + exists (mkQuickHull
                (<[c := setProgress SDP_RecurseTwo
                          (setRecursive (Some (S (length h2)))
                             (Some (length h2)) nd)]> h2
                 ++ [newStep (Some c) (segmentA nd) furthest (pointSet nd);
                     newStep (Some c) furthest (segmentB nd) (pointSet nd)])
                (basePointList s) (hullPoints s ++ [furthest])
                (Some (S (length h2))) (center s) minP maxP furthest),
             (S (length h2)), furthest.
      split; [reflexivity |]. split; [exact Hfur |].
      split; [reflexivity |]. cbn [heap]. split.
      * rewrite lookup_app_l by (rewrite length_insert; exact Hclt).
        apply Hat.
      * eexists. split.
        { rewrite lookup_app_r by (rewrite length_insert; lia).
          rewrite length_insert.
          replace (S (length h2) - length h2) with 1 by lia. reflexivity. }
        repeat apply conj; reflexivity.
    + destruct (Hsecond eq_refl) as (k & Hk & Hchild).
      pose proof (extends_insert h2 c nd (setProgress SDP_Done nd) Hc
                    (sameCore_setProgress _ _)) as Hext.
      exists (mkQuickHull (<[c := setProgress SDP_Done nd]> h2)
                (basePointList s) (hullPoints s) (recursiveTwo nd)
                (center s) minP maxP (furthestStore s)), k, furthest.
      split; [reflexivity |]. split; [exact Hfur |].
      split; [exact Hk |]. cbn [heap].
      destruct (prevStep nd) as [p |] eqn:Hprev.
      * destruct Hchild as (furthest' & Hfur' & Hchild).
        rewrite Hfur in Hfur'. injection Hfur' as <-.
        split; [apply Hat |].
        apply (childFor_extends _ _ _ _ _ _ _ Hext Hchild).
      * split; [apply (ok_root _ _ _ (Hok2 c nd Hc)), Hprev |].
        split; [apply Hat |].
        apply (childFor_extends _ _ _ _ _ _ _ Hext Hchild).
    + congruence.
    + destruct (Hfirst eq_refl) as (k1 & k2 & H1 & _ & C1 & _).
      pose proof (extends_insert h2 c nd (setProgress SDP_RecurseTwo nd) Hc
                    (sameCore_setProgress _ _)) as Hext.
      exists (mkQuickHull (<[c := setProgress SDP_RecurseTwo nd]> h2)
                (basePointList s) (hullPoints s) (recursiveOne nd)
                (center s) minP maxP (furthestStore s)), k1, furthest.
      split; [reflexivity |]. split; [exact Hfur |].
      split; [exact H1 |]. cbn [heap].
      split; [apply (ok_root _ _ _ (Hok2 c nd Hc)), (Hroot eq_refl) |].
      split; [apply Hat |].
      apply (childFor_extends _ _ _ _ _ _ _ Hext C1).
Qed.

Lemma step_descent_order_witness :
  (exists furthest s' nd',
     calculateFurthestPoint (mkPoint 10 10) (mkPoint 0 0) [mkPoint 0 10]
     = Returns furthest /\
     step (squareState 1) = Returns (true, s') /\
     nextStep s' = Some 4 /\
     heap s' !! 4
     = Some (newStep (Some 2) furthest (mkPoint 0 0) [mkPoint 0 10]) /\
     heap s' !! 3
     = Some (newStep (Some 2) (mkPoint 10 10) furthest [mkPoint 0 10]) /\
     heap s' !! 2 = Some nd' /\
     progress nd' = SDP_RecurseTwo /\
     recursiveOne nd' = Some 4 /\
     recursiveTwo nd' = Some 3) /\
  (exists s' k furthest,
     step (squareState 2) = Returns (true, s') /\
     calculateFurthestPoint (mkPoint 10 10) (mkPoint 0 0) [mkPoint 0 10]
     = Returns furthest /\
     nextStep s' = Some k /\
     progress <$> heap s' !! 2 = Some SDP_Done /\
     childFor (heap s') 2
       (mkStepData [mkPoint 0 10] (mkPoint 10 10) (mkPoint 0 0)
                   SDP_RecurseTwo (Some 4) (Some 3) (Some 0))
       k (mkPoint 10 10) furthest).
Proof.
  split.
  - apply (proj1 step_descent_order (squareState 1) 2
             (mkStepData [mkPoint 0 10] (mkPoint 10 10) (mkPoint 0 0)
                         SDP_RecurseOne None None (Some 0))).
    + vm_compute. reflexivity.
    + vm_compute. reflexivity.
    + discriminate.
    + reflexivity.
  - pose (h1 := orElse [] (markEmptyDone (heap (squareState 2))
                             (nextStep (squareState 2)))).
    pose (h2 := fst (fst (orElse ([], None, false)
                            (unwindDone (length h1) h1
                               (nextStep (squareState 2)))))).
    destruct (proj2 step_descent_order squareInput newQuickHull
                (squareState 0) 2 (squareState 2) h1 h2 2
                (mkStepData [mkPoint 0 10] (mkPoint 10 10) (mkPoint 0 0)
                            SDP_RecurseTwo (Some 4) (Some 3) (Some 0)))
      as (s' & k & furthest & Hstep & Hfur & Hnext & Hdone & Hchild).
    + vm_compute. reflexivity.
    + vm_compute. reflexivity.
    + vm_compute. reflexivity.
    + vm_compute. reflexivity.
    + vm_compute. reflexivity.
    + exists s', k, furthest.
      exact (conj Hstep (conj Hfur (conj Hnext (conj Hdone Hchild)))).
Defined.
